(** * matomecreative: the edit-history and persistence engine

    A shallow embedding of the history engine of [App.tsx]
    (undo / redo / append, persistence to [localStorage], the media codec
    [dataURLtoFile] / [fileToDataURL], the object-URL effects) and of the
    gallery store of [services/db.ts], with the properties the design
    document states about them.

    Conventions.
    - A JavaScript string is a [string]: one [ascii] per UTF-16 code unit,
      so the model covers the strings whose code units are below 256.
      Everything the codec writes and everything base64 accepts is of that
      kind.
    - A JavaScript number that is used as an index or a length is a [Z].
    - [localStorage] is a finite map from keys to strings.
    - A handler [h] of the component is a function on the component state:
      React re-creates the handlers after every state change, so each one
      reads the state of the latest render. *)

From Stdlib Require Import ZArith Ascii String List Lia Bool DecimalString Sorted.
From Stdlib Require Import Decimal DecimalPos.
From Stdlib.Strings Require Import Byte.
From stdpp Require Import base option list strings gmap sorting.

Local Open Scope string_scope.
Local Open Scope list_scope.
Local Open Scope Z_scope.

(** ** Files *)

(** A [File] (a Blob with a name): the binary content and the metadata the
    engine reads. *)
Record File := mkFile {
  file_name : string;
  file_type : string;
  file_bytes : list byte
}.

#[global] Instance byte_eq_dec : EqDecision byte := Byte.byte_eq_dec.

#[global] Instance File_eq_dec : EqDecision File.
Proof. solve_decision. Defined.

(** ** Component state *)

Inductive Tab := retouch | adjust | filters | crop_tab | generate.
Inductive StartMode := upload_mode | generate_mode.
Inductive View := editor | gallery.

(** A point in image coordinates, and a crop rectangle. The handlers below
    only store and clear them. *)
Definition Hotspot : Type := Z * Z.
Definition CropRect : Type := Z * Z * Z * Z.

Record AppState := mkApp {
  history : list File;
  historyIndex : Z;
  prompt : string;
  isLoading : bool;
  error : option string;
  editHotspot : option Hotspot;
  displayHotspot : option Hotspot;
  activeTab : Tab;
  crop : option CropRect;
  completedCrop : option CropRect;
  startMode : StartMode;
  view : View;
  toastMessage : option string
}.

Definition setHistory (h : list File) (s : AppState) : AppState :=
  mkApp h (historyIndex s) (prompt s) (isLoading s) (error s) (editHotspot s)
        (displayHotspot s) (activeTab s) (crop s) (completedCrop s)
        (startMode s) (view s) (toastMessage s).
Definition setHistoryIndex (i : Z) (s : AppState) : AppState :=
  mkApp (history s) i (prompt s) (isLoading s) (error s) (editHotspot s)
        (displayHotspot s) (activeTab s) (crop s) (completedCrop s)
        (startMode s) (view s) (toastMessage s).
Definition setPrompt (p : string) (s : AppState) : AppState :=
  mkApp (history s) (historyIndex s) p (isLoading s) (error s) (editHotspot s)
        (displayHotspot s) (activeTab s) (crop s) (completedCrop s)
        (startMode s) (view s) (toastMessage s).
Definition setIsLoading (b : bool) (s : AppState) : AppState :=
  mkApp (history s) (historyIndex s) (prompt s) b (error s) (editHotspot s)
        (displayHotspot s) (activeTab s) (crop s) (completedCrop s)
        (startMode s) (view s) (toastMessage s).
Definition setError (e : option string) (s : AppState) : AppState :=
  mkApp (history s) (historyIndex s) (prompt s) (isLoading s) e (editHotspot s)
        (displayHotspot s) (activeTab s) (crop s) (completedCrop s)
        (startMode s) (view s) (toastMessage s).
Definition setEditHotspot (h : option Hotspot) (s : AppState) : AppState :=
  mkApp (history s) (historyIndex s) (prompt s) (isLoading s) (error s) h
        (displayHotspot s) (activeTab s) (crop s) (completedCrop s)
        (startMode s) (view s) (toastMessage s).
Definition setDisplayHotspot (h : option Hotspot) (s : AppState) : AppState :=
  mkApp (history s) (historyIndex s) (prompt s) (isLoading s) (error s)
        (editHotspot s) h (activeTab s) (crop s) (completedCrop s)
        (startMode s) (view s) (toastMessage s).
Definition setActiveTab (t : Tab) (s : AppState) : AppState :=
  mkApp (history s) (historyIndex s) (prompt s) (isLoading s) (error s)
        (editHotspot s) (displayHotspot s) t (crop s) (completedCrop s)
        (startMode s) (view s) (toastMessage s).
Definition setCrop (c : option CropRect) (s : AppState) : AppState :=
  mkApp (history s) (historyIndex s) (prompt s) (isLoading s) (error s)
        (editHotspot s) (displayHotspot s) (activeTab s) c (completedCrop s)
        (startMode s) (view s) (toastMessage s).
Definition setCompletedCrop (c : option CropRect) (s : AppState) : AppState :=
  mkApp (history s) (historyIndex s) (prompt s) (isLoading s) (error s)
        (editHotspot s) (displayHotspot s) (activeTab s) (crop s) c
        (startMode s) (view s) (toastMessage s).
Definition setStartMode (m : StartMode) (s : AppState) : AppState :=
  mkApp (history s) (historyIndex s) (prompt s) (isLoading s) (error s)
        (editHotspot s) (displayHotspot s) (activeTab s) (crop s)
        (completedCrop s) m (view s) (toastMessage s).
Definition setView (v : View) (s : AppState) : AppState :=
  mkApp (history s) (historyIndex s) (prompt s) (isLoading s) (error s)
        (editHotspot s) (displayHotspot s) (activeTab s) (crop s)
        (completedCrop s) (startMode s) v (toastMessage s).
Definition setToastMessage (m : option string) (s : AppState) : AppState :=
  mkApp (history s) (historyIndex s) (prompt s) (isLoading s) (error s)
        (editHotspot s) (displayHotspot s) (activeTab s) (crop s)
        (completedCrop s) (startMode s) (view s) m.

(** Setters are applied in program order: [s |> f |> g] is "f, then g". *)
Notation "s |> f" := (f s) (at level 45, left associativity, only parsing).

(** ** Arrays *)

(** [a.length] as a number. *)
Definition len {A} (a : list A) : Z := Z.of_nat (length a).

(** [a[i]] for a number [i]: [undefined] (here [None]) outside the array. *)
Definition at_index {A} (a : list A) (i : Z) : option A :=
  if i <? 0 then None else a !! Z.to_nat i.

(** [a.slice(0, e)]: a negative [e] counts from the end, and the bound is
    clipped to the array. *)
Definition slice0 {A} (a : list A) (e : Z) : list A :=
  let k := if e <? 0 then Z.max (len a + e) 0 else Z.min e (len a) in
  take (Z.to_nat k) a.

(** ** The history engine *)

Definition currentImage (s : AppState) : option File :=
  at_index (history s) (historyIndex s).
Definition originalImage (s : AppState) : option File :=
  at_index (history s) 0.

Definition canUndo (s : AppState) : bool := 0 <? historyIndex s.
Definition canRedo (s : AppState) : bool :=
  historyIndex s <? len (history s) - 1.

Definition addImageToHistory (newImageFile : File) (s : AppState) : AppState :=
  let newHistory := slice0 (history s) (historyIndex s + 1) ++ [newImageFile] in
  s |> setHistory newHistory
    |> setHistoryIndex (len newHistory - 1)
    |> setCrop None
    |> setCompletedCrop None.

Definition handleImageUpload (file : File) (s : AppState) : AppState :=
  s |> setError None
    |> setHistory [file]
    |> setHistoryIndex 0
    |> setEditHotspot None
    |> setDisplayHotspot None
    |> setActiveTab retouch
    |> setCrop None
    |> setCompletedCrop None
    |> setStartMode upload_mode.

Definition handleUndo (s : AppState) : AppState :=
  if canUndo s then
    s |> setHistoryIndex (historyIndex s - 1)
      |> setEditHotspot None
      |> setDisplayHotspot None
  else s.

Definition handleRedo (s : AppState) : AppState :=
  if canRedo s then
    s |> setHistoryIndex (historyIndex s + 1)
      |> setEditHotspot None
      |> setDisplayHotspot None
  else s.

Definition handleReset (s : AppState) : AppState :=
  if 0 <? len (history s) then
    s |> setHistoryIndex 0
      |> setError None
      |> setEditHotspot None
      |> setDisplayHotspot None
  else s.

Definition handleUploadNew (mode : StartMode) (s : AppState) : AppState :=
  s |> setHistory []
    |> setHistoryIndex (-1)
    |> setError None
    |> setPrompt ""
    |> setEditHotspot None
    |> setDisplayHotspot None
    |> setStartMode mode.

(** The three operations of the history stack, and a run of them. *)
Inductive HistoryOp :=
| OpAppend (media : File)
| OpUndo
| OpRedo.

Definition applyOp (o : HistoryOp) (s : AppState) : AppState :=
  match o with
  | OpAppend m => addImageToHistory m s
  | OpUndo => handleUndo s
  | OpRedo => handleRedo s
  end.

Definition runOps (ops : list HistoryOp) (s : AppState) : AppState :=
  fold_left (fun st o => applyOp o st) ops s.

(** The invariant of the stack: the index is -1 or points into the
    sequence. *)
Definition validStack (s : AppState) : Prop :=
  -1 <= historyIndex s <= len (history s) - 1.

(** ** Exceptions *)

(** What a [throw] or a rejected promise carries: an [Error] object with its
    message ([TypeError] and [DOMException] are of that kind), or some other
    value. *)
Inductive Thrown :=
| ErrorObj (message : string)
| NonError.

Inductive Result (A : Type) :=
| Ok (a : A)
| Throw (e : Thrown).
Arguments Ok {A} a.
Arguments Throw {A} e.

Definition bindR {A B} (r : Result A) (k : A -> Result B) : Result B :=
  match r with
  | Ok a => k a
  | Throw e => Throw e
  end.

Notation "'let*' x ':=' r 'in' k" := (bindR r (fun x => k))
  (at level 10, x name, r at level 100, k at level 200).

Fixpoint mapR {A B} (f : A -> Result B) (l : list A) : Result (list B) :=
  match l with
  | [] => Ok []
  | x :: l' => let* y := f x in let* ys := mapR f l' in Ok (y :: ys)
  end.

(** ** Strings *)

Definition code (c : ascii) : N := N_of_ascii c.

Fixpoint string_forall (p : ascii -> bool) (s : string) : bool :=
  match s with
  | EmptyString => true
  | String c s' => p c && string_forall p s'
  end.

(** [s.split(sep)] for a one-character separator. *)
Fixpoint split (sep : ascii) (s : string) : list string :=
  match s with
  | EmptyString => [EmptyString]
  | String c s' =>
      if Ascii.eqb c sep then EmptyString :: split sep s'
      else match split sep s' with
           | [] => [String c EmptyString]
           | piece :: pieces => String c piece :: pieces
           end
  end.

(** The characters that [.] of a regular expression does not match, among
    the code units below 256: line feed and carriage return. *)
Definition isLineTerminator (c : ascii) : bool :=
  (code c =? 10)%N || (code c =? 13)%N.

(** [(.*?);] tried at the start of [s]: the shortest run of characters other
    than line terminators that a [;] follows. *)
Fixpoint lazyDotThenSemicolon (s : string) : option string :=
  match s with
  | EmptyString => None
  | String c s' =>
      if Ascii.eqb c ";" then Some EmptyString
      else if isLineTerminator c then None
      else match lazyDotThenSemicolon s' with
           | Some g => Some (String c g)
           | None => None
           end
  end.

(** [s.match(/:(.*?);/)], reduced to its capture group: the leftmost [:]
    from which the rest of the pattern matches. *)
Fixpoint matchMime (s : string) : option string :=
  match s with
  | EmptyString => None
  | String c s' =>
      if Ascii.eqb c ":" then
        match lazyDotThenSemicolon s' with
        | Some g => Some g
        | None => matchMime s'
        end
      else matchMime s'
  end.

(** [s.charCodeAt(i)]; outside the string the result is [NaN], which a
    [Uint8Array] stores as 0. *)
Definition charCodeAt (s : string) (i : nat) : N :=
  match String.get i s with
  | Some c => code c
  | None => 0%N
  end.

(** ** Base64 *)

Definition base64Alphabet : list ascii :=
  list_ascii_of_string
    "ABCDEFGHIJKLMNOPQRSTUVWXYZabcdefghijklmnopqrstuvwxyz0123456789+/".

Definition b64char (i : N) : ascii := nth (N.to_nat i) base64Alphabet "A"%char.

Fixpoint indexOf (c : ascii) (l : list ascii) (i : N) : option N :=
  match l with
  | [] => None
  | x :: l' => if Ascii.eqb x c then Some i else indexOf c l' (N.succ i)
  end.

Definition b64val (c : ascii) : option N := indexOf c base64Alphabet 0%N.

Definition byteN (b : byte) : N := Byte.to_N b.

(** The base64 text of a byte sequence, padded with [=] (RFC 4648), as
    [FileReader.readAsDataURL] writes it. *)
Fixpoint base64Encode (bs : list byte) : string :=
  (match bs with
   | b0 :: b1 :: b2 :: rest =>
       let n := (byteN b0 * 256 + byteN b1) * 256 + byteN b2 in
       String (b64char (n / 262144))
         (String (b64char ((n / 4096) mod 64))
           (String (b64char ((n / 64) mod 64))
             (String (b64char (n mod 64)) (base64Encode rest))))
   | [b0; b1] =>
       let n := (byteN b0 * 256 + byteN b1) * 4 in
       String (b64char (n / 4096))
         (String (b64char ((n / 64) mod 64))
           (String (b64char (n mod 64)) "="))
   | [b0] =>
       let n := byteN b0 * 16 in
       String (b64char (n / 64)) (String (b64char (n mod 64)) "==")
   | [] => ""
   end)%N.

(** ASCII whitespace: tab, line feed, form feed, carriage return, space. *)
Definition isAsciiWhitespace (c : ascii) : bool :=
  (code c =? 9)%N || (code c =? 10)%N || (code c =? 12)%N
  || (code c =? 13)%N || (code c =? 32)%N.

(** Remove one or two [=] at the end. *)
Definition stripPadding (d : list ascii) : list ascii :=
  match rev d with
  | c1 :: r1 =>
      if Ascii.eqb c1 "=" then
        match r1 with
        | c2 :: r2 => if Ascii.eqb c2 "=" then rev r2 else rev r1
        | [] => rev r1
        end
      else d
  | [] => d
  end.

(** Groups of four 6-bit values give three bytes; a last group of three
    gives two bytes and a last group of two gives one, the bits left over
    being dropped. *)
Fixpoint decodeSextets (l : list N) : list ascii :=
  (match l with
   | a :: b :: c :: d :: rest =>
       let n := ((a * 64 + b) * 64 + c) * 64 + d in
       ascii_of_N (n / 65536) :: ascii_of_N ((n / 256) mod 256)
         :: ascii_of_N (n mod 256) :: decodeSextets rest
   | [a; b; c] =>
       let n := ((a * 64 + b) * 64 + c) / 4 in
       [ascii_of_N (n / 256); ascii_of_N (n mod 256)]
   | [a; b] =>
       let n := (a * 64 + b) / 16 in
       [ascii_of_N n]
   | _ => []
   end)%N.

(** [atob(data)], the forgiving base64 decoding of the HTML standard:
    whitespace is removed; when the length is a multiple of 4 a padding of
    one or two [=] is removed; a length that leaves remainder 1, or a
    character outside the alphabet, is an error ([None]); the result is the
    binary string of the decoded bytes. *)
Definition atob (data : string) : option string :=
  let d := List.filter (fun c => negb (isAsciiWhitespace c))
                       (list_ascii_of_string data) in
  let d := if (length d mod 4 =? 0)%nat then stripPadding d else d in
  if (length d mod 4 =? 1)%nat then None
  else match mapM b64val d with
       | Some sextets => Some (string_of_list_ascii (decodeSextets sextets))
       | None => None
       end.

Definition atobMessage : string :=
  "Failed to execute 'atob' on 'Window': The string to be decoded is not correctly encoded.".

(** ** The File constructor and the file reader *)

Definition isPrintable (c : ascii) : bool :=
  (32 <=? code c)%N && (code c <=? 126)%N.

Definition asciiLower (c : ascii) : ascii :=
  if (65 <=? code c)%N && (code c <=? 90)%N
  then ascii_of_N (code c + 32) else c.

Fixpoint stringMap (f : ascii -> ascii) (s : string) : string :=
  match s with
  | EmptyString => EmptyString
  | String c s' => String (f c) (stringMap f s')
  end.

(** The [type] of a constructed File: empty when the given type has a
    character outside U+0020..U+007E, and in lower case otherwise. *)
Definition normalizeType (t : string) : string :=
  if string_forall isPrintable t then stringMap asciiLower t else "".

(** A byte of a [Uint8Array]: the number modulo 256. *)
Definition toUint8 (n : N) : byte := byte_of_ascii (ascii_of_N n).

(** [new File([u8arr], filename, {type})]. *)
Definition newFile (u8arr : list byte) (filename type : string) : File :=
  mkFile filename (normalizeType type) u8arr.

(** [FileReader.readAsDataURL]: [data:<type>;base64,<base64 of the bytes>];
    a blob without a type is read as [application/octet-stream]. *)
Definition readAsDataURL (file : File) : string :=
  "data:"
  +:+ (if String.eqb (file_type file) "" then "application/octet-stream"
       else file_type file)
  +:+ ";base64," +:+ base64Encode (file_bytes file).

(** ** The media codec *)

(** The loop [while (n--) { u8arr[n] = bstr.charCodeAt(n); }]. *)
Fixpoint fillBytes (bstr : string) (n : nat) (u8arr : list byte) : list byte :=
  match n with
  | O => u8arr
  | S n' => fillBytes bstr n' (<[n' := toUint8 (charCodeAt bstr n')]> u8arr)
  end.

Definition dataURLtoFile (dataurl filename : string) : Result File :=
  let arr := split "," dataurl in
  if (length arr <? 2)%nat then Throw (ErrorObj "Invalid data URL") else
  match matchMime (nth 0 arr "") with
  | None | Some EmptyString =>
      Throw (ErrorObj "Could not parse MIME type from data URL")
  | Some mime =>
      match atob (nth 1 arr "") with
      | None => Throw (ErrorObj atobMessage)
      | Some bstr =>
          let n := String.length bstr in
          let u8arr := fillBytes bstr n (replicate n x00) in
          Ok (newFile u8arr filename mime)
      end
  end.

(** The promise of [fileToDataURL] resolves with the reader's result; the
    content of a [File] of this model is in memory, and reading it does not
    fail. *)
Definition fileToDataURL (file : File) : string := readAsDataURL file.

(** ** JSON *)

#[local] Set Warnings "-register-all".

Inductive json :=
| JNull
| JBool (b : bool)
| JNumber (lexeme : string)
| JString (s : string)
| JArray (items : list json)
| JObject (members : list (string * json)).

Inductive token :=
| TLBrace | TRBrace | TLBracket | TRBracket | TColon | TComma
| TString (s : string)
| TNumber (lexeme : string)
| TTrue | TFalse | TNull.

(** The states of the number grammar: an optional minus, then 0 or a
    digit 1-9 with more digits, then an optional fraction (a point and
    digits) and an optional exponent (e or E, an optional sign, digits). *)
Inductive numState :=
| NMinus | NZero | NInt | NDot | NFrac | NExp | NExpSign | NExpDigits.

Definition isDigit (c : ascii) : bool := (48 <=? code c)%N && (code c <=? 57)%N.

Definition isExponentMark (c : ascii) : bool :=
  Ascii.eqb c "e" || Ascii.eqb c "E".

Definition numStep (st : numState) (c : ascii) : option numState :=
  match st with
  | NMinus =>
      if Ascii.eqb c "0" then Some NZero
      else if isDigit c then Some NInt else None
  | NZero =>
      if Ascii.eqb c "." then Some NDot
      else if isExponentMark c then Some NExp else None
  | NInt =>
      if isDigit c then Some NInt
      else if Ascii.eqb c "." then Some NDot
      else if isExponentMark c then Some NExp else None
  | NDot => if isDigit c then Some NFrac else None
  | NFrac =>
      if isDigit c then Some NFrac
      else if isExponentMark c then Some NExp else None
  | NExp =>
      if Ascii.eqb c "+" || Ascii.eqb c "-" then Some NExpSign
      else if isDigit c then Some NExpDigits else None
  | NExpSign => if isDigit c then Some NExpDigits else None
  | NExpDigits => if isDigit c then Some NExpDigits else None
  end.

Definition numAccepting (st : numState) : bool :=
  match st with
  | NZero | NInt | NFrac | NExpDigits => true
  | _ => false
  end.

Inductive lexMode :=
| MDefault
| MString (acc : list ascii)
| MEscape (acc : list ascii)
| MUnicode (acc : list ascii) (hex : list N)
| MNumber (st : numState) (acc : list ascii)
| MWord (rest : list ascii) (t : token).

(** The double quote. *)
Definition dquote : ascii := ascii_of_N 34.

Definition isJsonWhitespace (c : ascii) : bool :=
  (code c =? 32)%N || (code c =? 9)%N || (code c =? 10)%N || (code c =? 13)%N.

Definition hexVal (c : ascii) : option N :=
  let n := code c in
  (if (48 <=? n) && (n <=? 57) then Some (n - 48)
   else if (65 <=? n) && (n <=? 70) then Some (n - 55)
   else if (97 <=? n) && (n <=? 102) then Some (n - 87)
   else None)%N.

(** The code unit of a [\uXXXX] escape. A code unit above 255 has no
    [ascii]; it is read as the character 255, which like it is neither a
    delimiter of a data URL nor a base64 character. *)
Definition unitOfCode (v : N) : ascii :=
  if (v <? 256)%N then ascii_of_N v else ascii_of_N 255.

Definition lexemeOf (acc : list ascii) : string := string_of_list_ascii (rev acc).

Definition lexDefault (c : ascii) : option (lexMode * list token) :=
  if isJsonWhitespace c then Some (MDefault, [])
  else if Ascii.eqb c "{" then Some (MDefault, [TLBrace])
  else if Ascii.eqb c "}" then Some (MDefault, [TRBrace])
  else if Ascii.eqb c "[" then Some (MDefault, [TLBracket])
  else if Ascii.eqb c "]" then Some (MDefault, [TRBracket])
  else if Ascii.eqb c ":" then Some (MDefault, [TColon])
  else if Ascii.eqb c "," then Some (MDefault, [TComma])
  else if Ascii.eqb c dquote then Some (MString [], [])
  else if Ascii.eqb c "-" then Some (MNumber NMinus [c], [])
  else if Ascii.eqb c "0" then Some (MNumber NZero [c], [])
  else if isDigit c then Some (MNumber NInt [c], [])
  else if Ascii.eqb c "t" then Some (MWord (list_ascii_of_string "rue") TTrue, [])
  else if Ascii.eqb c "f" then Some (MWord (list_ascii_of_string "alse") TFalse, [])
  else if Ascii.eqb c "n" then Some (MWord (list_ascii_of_string "ull") TNull, [])
  else None.

Definition lexEscape (acc : list ascii) (c : ascii) : option (lexMode * list token) :=
  let plain (x : ascii) := Some (MString (x :: acc), []) in
  if Ascii.eqb c dquote then plain c
  else if Ascii.eqb c "\" then plain c
  else if Ascii.eqb c "/" then plain c
  else if Ascii.eqb c "b" then plain (ascii_of_N 8)
  else if Ascii.eqb c "f" then plain (ascii_of_N 12)
  else if Ascii.eqb c "n" then plain (ascii_of_N 10)
  else if Ascii.eqb c "r" then plain (ascii_of_N 13)
  else if Ascii.eqb c "t" then plain (ascii_of_N 9)
  else if Ascii.eqb c "u" then Some (MUnicode acc [], [])
  else None.

Definition lexStep (mode : lexMode) (c : ascii) : option (lexMode * list token) :=
  match mode with
  | MDefault => lexDefault c
  | MString acc =>
      if Ascii.eqb c dquote then Some (MDefault, [TString (lexemeOf acc)])
      else if Ascii.eqb c "\" then Some (MEscape acc, [])
      else if (code c <? 32)%N then None
      else Some (MString (c :: acc), [])
  | MEscape acc => lexEscape acc c
  | MUnicode acc hex =>
      match hexVal c with
      | None => None
      | Some d =>
          match hex with
          | [h1; h2; h3] =>
              Some (MString (unitOfCode (((h1 * 16 + h2) * 16 + h3) * 16 + d)%N
                               :: acc), [])
          | _ => Some (MUnicode acc (hex ++ [d]), [])
          end
      end
  | MNumber st acc =>
      match numStep st c with
      | Some st' => Some (MNumber st' (c :: acc), [])
      | None =>
          if numAccepting st then
            match lexDefault c with
            | Some (mode', ts) => Some (mode', TNumber (lexemeOf acc) :: ts)
            | None => None
            end
          else None
      end
  | MWord rest t =>
      match rest with
      | [] => None
      | [x] => if Ascii.eqb c x then Some (MDefault, [t]) else None
      | x :: rest' => if Ascii.eqb c x then Some (MWord rest' t, []) else None
      end
  end.

Fixpoint tokenize (mode : lexMode) (text : list ascii) : option (list token) :=
  match text with
  | [] =>
      match mode with
      | MDefault => Some []
      | MNumber st acc =>
          if numAccepting st then Some [TNumber (lexemeOf acc)] else None
      | _ => None
      end
  | c :: text' =>
      match lexStep mode c with
      | None => None
      | Some (mode', ts) =>
          match tokenize mode' text' with
          | None => None
          | Some ts' => Some (ts ++ ts')
          end
      end
  end.

(** The arrays and objects that are open, innermost first. *)
Inductive frame :=
| FArr (items : list json)
| FObj (members : list (string * json)) (key : string).

Inductive parseState :=
| SValue (stack : list frame)
| SArrStart (stack : list frame)
| SArrNext (items : list json) (stack : list frame)
| SObjStart (stack : list frame)
| SObjKey (members : list (string * json)) (stack : list frame)
| SObjColon (members : list (string * json)) (key : string) (stack : list frame)
| SObjNext (members : list (string * json)) (stack : list frame)
| SEnd (v : json).

(** A value is complete: it goes into the innermost open array or object,
    or it is the text's value. *)
Definition completeValue (v : json) (stack : list frame) : parseState :=
  match stack with
  | [] => SEnd v
  | FArr items :: stack' => SArrNext (v :: items) stack'
  | FObj members key :: stack' => SObjNext ((key, v) :: members) stack'
  end.

Definition startValue (t : token) (stack : list frame) : option parseState :=
  match t with
  | TLBracket => Some (SArrStart stack)
  | TLBrace => Some (SObjStart stack)
  | TString s => Some (completeValue (JString s) stack)
  | TNumber n => Some (completeValue (JNumber n) stack)
  | TTrue => Some (completeValue (JBool true) stack)
  | TFalse => Some (completeValue (JBool false) stack)
  | TNull => Some (completeValue JNull stack)
  | TRBrace | TRBracket | TColon | TComma => None
  end.

Definition parseStep (st : parseState) (t : token) : option parseState :=
  match st with
  | SValue stack => startValue t stack
  | SArrStart stack =>
      match t with
      | TRBracket => Some (completeValue (JArray []) stack)
      | _ => startValue t (FArr [] :: stack)
      end
  | SArrNext items stack =>
      match t with
      | TComma => Some (SValue (FArr items :: stack))
      | TRBracket => Some (completeValue (JArray (rev items)) stack)
      | _ => None
      end
  | SObjStart stack =>
      match t with
      | TRBrace => Some (completeValue (JObject []) stack)
      | TString k => Some (SObjColon [] k stack)
      | _ => None
      end
  | SObjKey members stack =>
      match t with
      | TString k => Some (SObjColon members k stack)
      | _ => None
      end
  | SObjColon members k stack =>
      match t with
      | TColon => Some (SValue (FObj members k :: stack))
      | _ => None
      end
  | SObjNext members stack =>
      match t with
      | TComma => Some (SObjKey members stack)
      | TRBrace => Some (completeValue (JObject (rev members)) stack)
      | _ => None
      end
  | SEnd _ => None
  end.

Fixpoint parseTokens (st : parseState) (ts : list token) : option json :=
  match ts with
  | [] => match st with SEnd v => Some v | _ => None end
  | t :: ts' =>
      match parseStep st t with
      | Some st' => parseTokens st' ts'
      | None => None
      end
  end.

(** [JSON.parse(text)]; [None] is the [SyntaxError]. *)
Definition JSON_parse (text : string) : option json :=
  match tokenize MDefault (list_ascii_of_string text) with
  | Some ts => parseTokens (SValue []) ts
  | None => None
  end.

(** ** Numbers and strings *)

(** [String(n)] for an integer. *)
Definition stringOfZ (n : Z) : string := NilZero.string_of_int (Z.to_int n).

(** The white space that [parseInt] skips, among the code units below 256. *)
Definition isStrWhitespace (c : ascii) : bool :=
  let n := code c in
  ((9 <=? n) && (n <=? 13) || (n =? 32) || (n =? 160))%N.

Fixpoint dropWhile {A} (p : A -> bool) (l : list A) : list A :=
  match l with
  | [] => []
  | x :: l' => if p x then dropWhile p l' else l
  end.

Fixpoint takeWhile {A} (p : A -> bool) (l : list A) : list A :=
  match l with
  | [] => []
  | x :: l' => if p x then x :: takeWhile p l' else []
  end.

Definition digitsValue (ds : list ascii) : Z :=
  fold_left (fun acc c => acc * 10 + (Z.of_N (code c) - 48)) ds 0.

(** [parseInt(s, 10)]: white space, an optional sign, then the longest run of
    digits; [None] is [NaN]. The value is the exact integer: the rounding of
    a value above 2^53 does not change how it compares with a length. *)
Definition parseInt (s : string) : option Z :=
  let cs := dropWhile isStrWhitespace (list_ascii_of_string s) in
  let '(sign, cs) :=
    match cs with
    | c :: rest =>
        if Ascii.eqb c "-" then (-1, rest)
        else if Ascii.eqb c "+" then (1, rest)
        else (1, cs)
    | [] => (1, cs)
    end in
  match takeWhile isDigit cs with
  | [] => None
  | ds => Some (sign * digitsValue ds)
  end.

(** [!s.trim()]: the string has nothing but white space. *)
Definition isBlank (s : string) : bool := string_forall isStrWhitespace s.

(** ** Numbers as strings *)

(** [String(x)] for the number that a JSON lexeme denotes: the lexeme is
    read as a decimal fraction, rounded to the nearest double (ties to the
    even significand), and the double is written with the fewest digits
    that read back as the same double. *)

(** The parts of a number lexeme: its sign, and [d] and [e] with the value
    [d * 10^e]. *)
Definition lexemeParts (lexeme : string) : bool * Z * Z :=
  let cs := list_ascii_of_string lexeme in
  let '(negative, cs) :=
    match cs with
    | c :: rest => if Ascii.eqb c "-" then (true, rest) else (false, cs)
    | [] => (false, cs)
    end in
  let intDigits := takeWhile isDigit cs in
  let cs := dropWhile isDigit cs in
  let '(fracDigits, cs) :=
    match cs with
    | c :: rest =>
        if Ascii.eqb c "." then (takeWhile isDigit rest, dropWhile isDigit rest)
        else ([], cs)
    | [] => ([], cs)
    end in
  let exponent :=
    match cs with
    | c :: rest =>
        if isExponentMark c then
          match rest with
          | c' :: rest' =>
              if Ascii.eqb c' "-" then - digitsValue (takeWhile isDigit rest')
              else if Ascii.eqb c' "+" then digitsValue (takeWhile isDigit rest')
              else digitsValue (takeWhile isDigit rest)
          | [] => 0
          end
        else 0
    | [] => 0
    end in
  (negative, digitsValue (intDigits ++ fracDigits),
   exponent - Z.of_nat (length fracDigits)).

(** A double that is not negative: zero, infinity, or [m * 2^p] with
    [m < 2^53], and [2^52 <= m] unless [p = -1074]. *)
Inductive Double :=
| DZero
| DInfinity
| DFinite (m p : Z).

(** The integer nearest to [num / den], the even one at a tie. *)
Definition roundHalfEven (num den : Z) : Z :=
  let q := num / den in
  let r := num mod den in
  if (den <? 2 * r) || ((den =? 2 * r) && Z.odd q) then q + 1 else q.

(** [num / den] divided by [b^e], as a fraction. *)
Definition scaleBy (b : Z) (num den e : Z) : Z * Z :=
  if 0 <=? e then (num, den * b ^ e) else (num * b ^ (- e), den).

(** The greatest [e] with [2^e <= num / den]. *)
Definition floorLog2 (num den : Z) : Z :=
  let e := Z.log2 num - Z.log2 den in
  let '(n, d) := scaleBy 2 num den e in
  if d <=? n then e else e - 1.

Definition toDouble (num den : Z) : Double :=
  if num =? 0 then DZero
  else
    let p := Z.max (floorLog2 num den - 52) (-1074) in
    let '(n, d) := scaleBy 2 num den p in
    let m := roundHalfEven n d in
    let '(m, p) := if m =? 2 ^ 53 then (2 ^ 52, p + 1) else (m, p) in
    if m =? 0 then DZero
    else if 971 <? p then DInfinity
    else DFinite m p.

Definition digitCount (n : Z) : Z := Z.of_nat (String.length (stringOfZ n)).

(** The greatest [e] with [10^e <= num / den]. *)
Definition floorLog10 (num den : Z) : Z :=
  let e := digitCount num - digitCount den in
  let '(n, d) := scaleBy 10 num den e in
  if d <=? n then e else e - 1.

(** [s * 10^e] is read as the double [m * 2^p]. *)
Definition readsAs (m p s e : Z) : bool :=
  let '(n, d) := scaleBy 10 s 1 (- e) in
  match toDouble n d with
  | DFinite m' p' => (m' =? m) && (p' =? p)
  | _ => false
  end.

(** The digits [s], their number [k] and the exponent [n] of the shortest
    decimal that reads as [m * 2^p]: the least [k], from [k] on, for which
    there is an [s] of [k] digits with [s * 10^(n-k)] read as the double;
    of two such [s] the nearer one, and the even one at a tie. [n0] is the
    number of digits before the point. *)
Fixpoint shortestDigits (fuel : nat) (k : Z) (m p n0 : Z) : Z * Z * Z :=
  let '(vn, vd) := scaleBy 2 m 1 (- p) in
  let '(tn, td) := scaleBy 10 vn vd (n0 - k) in
  let lo := tn / td in
  let hi := lo + 1 in
  let okLo := readsAs m p lo (n0 - k) in
  let okHi := readsAs m p hi (n0 - k) in
  let r := tn mod td in
  let preferLo := (2 * r <? td) || ((2 * r =? td) && Z.even lo) in
  let result s := if s =? 10 ^ k then (1, 1, n0 + 1) else (s, k, n0) in
  if okLo && (preferLo || negb okHi) then result lo
  else if okHi then result hi
  else
    match fuel with
    | O => result lo
    | S fuel' => shortestDigits fuel' (k + 1) m p n0
    end.

Fixpoint zeros (n : nat) : string :=
  match n with
  | O => ""
  | S n' => String "0" (zeros n')
  end.

Definition formatDigits (s k n : Z) : string :=
  let ds := stringOfZ s in
  if (k <=? n) && (n <=? 21) then ds +:+ zeros (Z.to_nat (n - k))
  else if (0 <? n) && (n <=? 21) then
    substring 0 (Z.to_nat n) ds +:+ "." +:+ substring (Z.to_nat n) (Z.to_nat (k - n)) ds
  else if (-6 <? n) && (n <=? 0) then "0." +:+ zeros (Z.to_nat (- n)) +:+ ds
  else
    let e := n - 1 in
    let exponent := (if 0 <=? e then "+" else "-") +:+ stringOfZ (Z.abs e) in
    if k =? 1 then ds +:+ "e" +:+ exponent
    else substring 0 1 ds +:+ "." +:+ substring 1 (Z.to_nat (k - 1)) ds
         +:+ "e" +:+ exponent.

Definition numberToString (lexeme : string) : string :=
  let '(negative, d, e) := lexemeParts lexeme in
  let '(num, den) := scaleBy 10 d 1 (- e) in
  match toDouble num den with
  | DZero => "0"
  | DInfinity => if negative then "-Infinity" else "Infinity"
  | DFinite m p =>
      let '(vn, vd) := scaleBy 2 m 1 (- p) in
      let '(s, k, n) := shortestDigits 16 1 m p (floorLog10 vn vd + 1) in
      (if negative then "-" else "") +:+ formatDigits s k n
  end.

(** ** Values read back from JSON *)

(** [v.key], for the keys [dataUrl] and [name] that the engine reads: reading
    a property of [null] throws; an object has the value of the last member
    of that name; any other value has no such property ([undefined], here
    [None]). *)
Fixpoint lastMember (key : string) (members : list (string * json)) : option json :=
  match members with
  | [] => None
  | (k, v) :: rest =>
      match lastMember key rest with
      | Some v' => Some v'
      | None => if String.eqb k key then Some v else None
      end
  end.

Definition getProp (v : json) (key : string) : Result (option json) :=
  match v with
  | JNull => Throw (ErrorObj ("Cannot read properties of null (reading '" +:+ key +:+ "')"))
  | JObject members => Ok (lastMember key members)
  | _ => Ok None
  end.

Fixpoint joinStrings (sep : string) (l : list string) : string :=
  match l with
  | [] => ""
  | [x] => x
  | x :: rest => x +:+ sep +:+ joinStrings sep rest
  end.

(** [String(v)] for a value read from JSON, as [new File] converts the name
    that it is given. A number is written as [numberToString] says. An
    array is joined with commas, [null] giving the empty string. An object
    with a member [toString] of its own has nothing to call, since no value
    of JSON is a function, and [valueOf] gives no primitive: the conversion
    throws a [TypeError]; any other object gives the text of
    [Object.prototype.toString]. *)
Fixpoint jsonToString (v : json) : Result string :=
  match v with
  | JNull => Ok "null"
  | JBool true => Ok "true"
  | JBool false => Ok "false"
  | JNumber lexeme => Ok (numberToString lexeme)
  | JString s => Ok s
  | JArray items =>
      let* texts :=
        (fix each (l : list json) : Result (list string) :=
           match l with
           | [] => Ok []
           | x :: l' =>
               let* text := match x with JNull => Ok "" | _ => jsonToString x end in
               let* texts := each l' in
               Ok (text :: texts)
           end) items in
      Ok (joinStrings "," texts)
  | JObject members =>
      match lastMember "toString" members with
      | Some _ => Throw (ErrorObj "Cannot convert object to primitive value")
      | None => Ok "[object Object]"
      end
  end.

Definition toString (v : option json) : Result string :=
  match v with
  | None => Ok "undefined"
  | Some v => jsonToString v
  end.

(** [arr.map(f)] on a value read from JSON: only an array has [map]. *)
Definition arrayMap {B} (f : json -> Result B) (v : json) : Result (list B) :=
  match v with
  | JArray items => mapR f items
  | JNull => Throw (ErrorObj "Cannot read properties of null (reading 'map')")
  | _ => Throw (ErrorObj "savedHistory.map is not a function")
  end.

(** The call [dataURLtoFile(item.dataUrl, item.name)] with what JSON gave:
    only a string has [split], and the name is converted to a string when
    the function gets to [new File], after the decoding. *)
Definition callDataURLtoFile (dataurl filename : option json) : Result File :=
  match dataurl with
  | Some (JString s) =>
      let* decoded := dataURLtoFile s "" in
      let* name := toString filename in
      Ok (mkFile name (file_type decoded) (file_bytes decoded))
  | None => Throw (ErrorObj "Cannot read properties of undefined (reading 'split')")
  | Some JNull => Throw (ErrorObj "Cannot read properties of null (reading 'split')")
  | Some _ => Throw (ErrorObj "dataurl.split is not a function")
  end.

(** ** JSON.stringify *)

Definition hexDigit (n : N) : ascii :=
  if (n <? 10)%N then ascii_of_N (48 + n) else ascii_of_N (87 + n).

Definition quoteChar (c : ascii) : string :=
  let n := code c in
  if Ascii.eqb c dquote then String "\" (String dquote "")
  else if Ascii.eqb c "\" then "\\"
  else if (n =? 8)%N then "\b"
  else if (n =? 12)%N then "\f"
  else if (n =? 10)%N then "\n"
  else if (n =? 13)%N then "\r"
  else if (n =? 9)%N then "\t"
  else if (n <? 32)%N then
    "\u00" +:+ String (hexDigit (n / 16)) (String (hexDigit (n mod 16)) "")
  else String c "".

Fixpoint quoteChars (s : string) : string :=
  match s with
  | EmptyString => ""
  | String c s' => quoteChar c +:+ quoteChars s'
  end.

Definition quoteJSON (s : string) : string :=
  String dquote (quoteChars s) +:+ String dquote "".

Fixpoint JSON_stringify (v : json) : string :=
  match v with
  | JNull => "null"
  | JBool true => "true"
  | JBool false => "false"
  | JNumber lexeme => lexeme
  | JString s => quoteJSON s
  | JArray items =>
      "[" +:+ joinStrings "," (List.map JSON_stringify items) +:+ "]"
  | JObject members =>
      "{" +:+ joinStrings ","
                (List.map (fun kv => quoteJSON (fst kv) +:+ ":" +:+ JSON_stringify (snd kv))
                          members)
          +:+ "}"
  end.

(** ** Durable storage *)

(** [localStorage]: [getItem] is the lookup ([null] is [None]) and
    [removeItem] the deletion. [setItem] inserts, unless the storage refuses
    the write, as it may when its quota is exceeded; it then throws and the
    storage stays as it is. Which writes a storage takes is for the browser
    to say: [accepts key value ls] is its answer for the storage [ls]. *)
Abbreviation Storage := (gmap string string).
Abbreviation Quota := (string -> string -> Storage -> bool).

Definition HISTORY_KEY : string := "matome_creative_history".
Definition INDEX_KEY : string := "matome_creative_historyIndex".

Definition getItem (key : string) (ls : Storage) : option string := ls !! key.
Definition writeItem (key value : string) (ls : Storage) : Storage := <[key := value]> ls.
Definition setItem (accepts : Quota) (key value : string) (ls : Storage)
  : Result Storage :=
  if accepts key value ls then Ok (writeItem key value ls)
  else Throw (ErrorObj "The quota has been exceeded.").
Definition removeItem (key : string) (ls : Storage) : Storage := delete key ls.

(** [!x] for a string or [null]. *)
Definition falsy (x : option string) : bool :=
  match x with
  | None => true
  | Some s => String.eqb s ""
  end.

(** ** Restoring and saving the history *)

(** The index that is kept: the stored one when it is a number within the
    sequence, and the last position (-1 when there is none) otherwise. *)
Definition validateIndex (historyIndex : option Z) (history : list File) : Z :=
  let fallback := if 0 <? len history then len history - 1 else -1 in
  match historyIndex with
  | None => fallback
  | Some i => if (i <? 0) || (len history <=? i) then fallback else i
  end.

(** The callback of [savedHistory.map]: one stored entry back to a File. *)
Definition restoreEntry (item : json) : Result File :=
  let* dataUrl := getProp item "dataUrl" in
  let* name := getProp item "name" in
  callDataURLtoFile dataUrl name.

(** The body of the [try] block of [loadInitialState], after the test of the
    two stored strings. *)
Definition restoreHistory (savedHistoryJSON savedIndexStr : string)
  : Result (list File * Z) :=
  let* savedHistory :=
    match JSON_parse savedHistoryJSON with
    | Some v => Ok v
    | None => Throw (ErrorObj "Unexpected token in JSON")
    end in
  let* history := arrayMap restoreEntry savedHistory in
  let historyIndex := parseInt savedIndexStr in
  Ok (history, validateIndex historyIndex history).

(** [loadInitialState]: the restored history and index, and the storage as
    the call leaves it. The [catch] block takes every exception of the
    body. *)
Definition loadInitialState (ls : Storage) : (list File * Z) * Storage :=
  let savedHistoryJSON := getItem HISTORY_KEY ls in
  let savedIndexStr := getItem INDEX_KEY ls in
  if falsy savedHistoryJSON || falsy savedIndexStr then (([], -1), ls)
  else
    match restoreHistory (default "" savedHistoryJSON) (default "" savedIndexStr) with
    | Ok restored => (restored, ls)
    | Throw _ =>
        (([], -1), ls |> removeItem HISTORY_KEY |> removeItem INDEX_KEY)
    end.

(** A stored history that makes the body of the [try] block throw: it is
    not JSON, or it is an array with an entry that does not decode. *)
Definition corruptedHistory (historyJSON : string) : Prop :=
  JSON_parse historyJSON = None
  \/ exists items,
       JSON_parse historyJSON = Some (JArray items)
       /\ Exists (fun item => exists e, restoreEntry item = Throw e) items.

(** The value that the persistence effect writes for a history. *)
Definition serializableHistory (h : list File) : json :=
  JArray (List.map (fun file =>
                      JObject [("dataUrl", JString (fileToDataURL file));
                               ("name", JString (file_name file))])
                   h).

(** The effect that saves the state, run after every change of [history] or
    [historyIndex], with the history and the index of its render. With a
    history to save, the effect first reads the files ([await Promise.all])
    and writes when the reading is done: between the two the write is
    pending, and the effect has no cleanup that would cancel it. A save
    whose reading fails never gets to its writes: the [catch] of the effect
    takes the rejection. Without a history to save, the effect removes the
    keys at once. *)
Record PendingSave := mkPending {
  pendingHistory : list File;
  pendingIndex : Z
}.

Definition saveStateBegin (s : AppState) (ls : Storage) : Storage * option PendingSave :=
  if (0 <? len (history s)) && (0 <=? historyIndex s) then
    (ls, Some (mkPending (history s) (historyIndex s)))
  else
    (ls |> removeItem HISTORY_KEY |> removeItem INDEX_KEY, None).

(** The two writes of a pending save, on the storage as it is when the
    reading is done. The [catch] of the effect takes the exception of a
    refused write: the write before it stays and the one after it is not
    made. *)
Definition saveStateComplete (accepts : Quota) (p : PendingSave) (ls : Storage)
  : Storage :=
  match setItem accepts HISTORY_KEY
                (JSON_stringify (serializableHistory (pendingHistory p))) ls with
  | Throw _ => ls
  | Ok ls1 =>
      match setItem accepts INDEX_KEY (stringOfZ (pendingIndex p)) ls1 with
      | Throw _ => ls1
      | Ok ls2 => ls2
      end
  end.

(** The effect of one render run to its end, when no other render and no
    other write comes in between. *)
Definition saveState (accepts : Quota) (s : AppState) (ls : Storage) : Storage :=
  match saveStateBegin s ls with
  | (ls', Some p) => saveStateComplete accepts p ls'
  | (ls', None) => ls'
  end.

(** The storage together with the saves that are still reading their files.
    The effect runs for a render, and the [k]-th pending save gets to its
    writes; the saves get there in any order. *)
Inductive SaveEvent :=
| EffectRuns (s : AppState)
| WriteLands (k : nat).

Definition saveStep (accepts : Quota) (e : SaveEvent)
    (st : Storage * list PendingSave) : Storage * list PendingSave :=
  match e with
  | EffectRuns s =>
      let '(ls', p) := saveStateBegin s (fst st) in
      (ls', snd st ++ match p with Some p => [p] | None => [] end)
  | WriteLands k =>
      match snd st !! k with
      | Some p => (saveStateComplete accepts p (fst st), delete k (snd st))
      | None => st
      end
  end.

Definition runSaves (accepts : Quota) (es : list SaveEvent)
    (st : Storage * list PendingSave) : Storage * list PendingSave :=
  fold_left (fun st e => saveStep accepts e st) es st.

(** The render of the last run of the effect. *)
Definition lastRendered (es : list SaveEvent) : option AppState :=
  fold_left (fun r e => match e with
                        | EffectRuns s => Some s
                        | WriteLands _ => r
                        end) es None.

(** The saves get to their writes in the order in which they began. *)
Definition landsOldest (e : SaveEvent) : Prop :=
  match e with
  | EffectRuns _ => True
  | WriteLands k => k = 0%nat
  end.

Definition isLanding (e : SaveEvent) : Prop :=
  match e with
  | EffectRuns _ => False
  | WriteLands _ => True
  end.

(** A storage that refuses nothing. *)
Definition unbounded : Quota := fun _ _ _ => true.

(** The state of the first render: [useState] with the restored history and
    index, and the initial value of every other cell. *)
Definition initialApp (h : list File) (i : Z) : AppState :=
  mkApp h i "" false None None None retouch None None upload_mode editor None.

(** ** The editing actions *)

(** [err instanceof Error ? err.message : '...']. The texts of the messages
    are the bytes of the source file. *)
Definition errorMessageOf (err : Thrown) : string :=
  match err with
  | ErrorObj message => message
  | NonError => "不明なエラーが発生しました。"
  end.

(** The actions that call an AI collaborator. The collaborators are outside
    the engine: each is a function that gives the encoded image or throws.
    [now] is the reading of [Date.now()]. Here a handler is run to its
    end with nothing in between; [startAction] and [settleAction] below
    are its two halves, for the runs in which other actions come while it
    waits for the collaborator. *)
Section EditingActions.

Variable generateEditedImage : File -> string -> Hotspot -> Result string.
Variable generateFilteredImage : File -> string -> Result string.
Variable generateAdjustedImage : File -> string -> Result string.
Variable upscaleImage : File -> Result string.
Variable now : Z.

Definition handleGenerate (s : AppState) : AppState :=
  match currentImage s with
  | None => s |> setError (Some "編集する画像が読み込まれていません。")
  | Some img =>
      if isBlank (prompt s) then
        s |> setError (Some "編集内容を入力してください。")
      else
        match editHotspot s with
        | None =>
            s |> setError (Some "編集する領域を画像上でクリックして選択してください。")
        | Some hotspot =>
            let s1 := s |> setIsLoading true |> setError None in
            let attempt :=
              let* editedImageUrl := generateEditedImage img (prompt s) hotspot in
              dataURLtoFile editedImageUrl ("edited-" +:+ stringOfZ now +:+ ".png") in
            let s2 :=
              match attempt with
              | Ok newImageFile =>
                  s1 |> addImageToHistory newImageFile
                     |> setEditHotspot None
                     |> setDisplayHotspot None
              | Throw err =>
                  s1 |> setError (Some ("画像の生成に失敗しました。 " +:+ errorMessageOf err))
              end in
            s2 |> setIsLoading false
        end
  end.

Definition handleApplyFilter (filterPrompt : string) (s : AppState) : AppState :=
  match currentImage s with
  | None => s |> setError (Some "フィルターを適用する画像が読み込まれていません。")
  | Some img =>
      let s1 := s |> setIsLoading true |> setError None in
      let attempt :=
        let* filteredImageUrl := generateFilteredImage img filterPrompt in
        dataURLtoFile filteredImageUrl ("filtered-" +:+ stringOfZ now +:+ ".png") in
      let s2 :=
        match attempt with
        | Ok newImageFile => s1 |> addImageToHistory newImageFile
        | Throw err =>
            s1 |> setError (Some ("フィルターの適用に失敗しました。 " +:+ errorMessageOf err))
        end in
      s2 |> setIsLoading false
  end.

Definition handleApplyAdjustment (adjustmentPrompt : string) (s : AppState) : AppState :=
  match currentImage s with
  | None => s |> setError (Some "調整を適用する画像が読み込まれていません。")
  | Some img =>
      let s1 := s |> setIsLoading true |> setError None in
      let attempt :=
        let* adjustedImageUrl := generateAdjustedImage img adjustmentPrompt in
        dataURLtoFile adjustedImageUrl ("adjusted-" +:+ stringOfZ now +:+ ".png") in
      let s2 :=
        match attempt with
        | Ok newImageFile => s1 |> addImageToHistory newImageFile
        | Throw err =>
            s1 |> setError (Some ("調整の適用に失敗しました。 " +:+ errorMessageOf err))
        end in
      s2 |> setIsLoading false
  end.

Definition handleUpscaleImage (s : AppState) : AppState :=
  match currentImage s with
  | None => s |> setError (Some "高品質化する画像が読み込まれていません。")
  | Some img =>
      let s1 := s |> setIsLoading true |> setError None in
      let attempt :=
        let* upscaledImageUrl := upscaleImage img in
        dataURLtoFile upscaledImageUrl ("upscaled-" +:+ stringOfZ now +:+ ".png") in
      let s2 :=
        match attempt with
        | Ok newImageFile =>
            s1 |> addImageToHistory newImageFile
               |> setToastMessage (Some "画像を高品質化しました。")
        | Throw err =>
            s1 |> setError (Some ("画像の高品質化に失敗しました。 " +:+ errorMessageOf err))
        end in
      s2 |> setIsLoading false
  end.

End EditingActions.

(** The history stack of a state. *)
Definition historyStack (s : AppState) : list File * Z :=
  (history s, historyIndex s).

(** ** The gallery store *)

Record SavedItem := mkItem {
  id : Z;
  file : File;
  createdAt : Z
}.

(** The object store [saved-items] (key path [id], auto-increment): its
    records in the order of their keys, and the key generator, which only
    grows. The database is open at the current version. *)
Record ObjectStore := mkStore {
  records : list SavedItem;
  keyGenerator : Z
}.

Definition emptyStore : ObjectStore := mkStore [] 1.

(** [store.add(value)] for a value without [id]: the generator gives the
    key, and the record goes after the records with smaller keys. *)
Definition storeAdd (f : File) (date : Z) (st : ObjectStore) : Z * ObjectStore :=
  let key := keyGenerator st in
  (key, mkStore (records st ++ [mkItem key f date]) (key + 1)).

(** [store.getAll()]: the records in ascending order of key. *)
Definition storeGetAll (st : ObjectStore) : list SavedItem := records st.

(** [store.delete(key)]. *)
Definition storeDelete (key : Z) (st : ObjectStore) : ObjectStore :=
  mkStore (List.filter (fun r => negb (id r =? key)) (records st))
          (keyGenerator st).

(** [Array.prototype.sort(cmp)], which is stable: an element goes after the
    elements that the comparison places before it and stays before the
    others, in particular before the ones it compares equal to. *)
Fixpoint insertSorted {A} (cmp : A -> A -> Z) (x : A) (l : list A) : list A :=
  match l with
  | [] => [x]
  | y :: l' => if 0 <? cmp x y then y :: insertSorted cmp x l' else x :: l
  end.

Definition arraySort {A} (cmp : A -> A -> Z) (l : list A) : list A :=
  foldr (insertSorted cmp) [] l.

(** [now] is the reading of the clock by [new Date()], in milliseconds. *)
Definition saveItemToGallery (itemFile : File) (now : Z) (db : ObjectStore)
  : Z * ObjectStore :=
  storeAdd itemFile now db.

(** The call of [saveItemToGallery] as a handler awaits it: the
    transaction commits and gives the id, or IndexedDB rejects it, the
    promise rejects with [failure], and the store stays as it was. *)
Definition awaitSaveItem (failure : option Thrown) (itemFile : File) (now : Z)
    (db : ObjectStore) : Result Z * ObjectStore :=
  match failure with
  | Some err => (Throw err, db)
  | None =>
      let '(id, db') := saveItemToGallery itemFile now db in
      (Ok id, db')
  end.

Definition getAllItemsFromGallery (db : ObjectStore) : list SavedItem :=
  let items := storeGetAll db in
  arraySort (fun a b => createdAt b - createdAt a) items.

Definition deleteItemFromGallery (key : Z) (db : ObjectStore) : ObjectStore :=
  storeDelete key db.

(** The operations that change the gallery, and a run of them from a
    store. *)
Inductive GalleryOp :=
| GallerySave (itemFile : File) (now : Z)
| GalleryDelete (key : Z).

Definition applyGalleryOp (o : GalleryOp) (db : ObjectStore) : ObjectStore :=
  match o with
  | GallerySave f now => snd (saveItemToGallery f now db)
  | GalleryDelete key => deleteItemFromGallery key db
  end.

Definition runGallery (ops : list GalleryOp) (db : ObjectStore) : ObjectStore :=
  fold_left (fun st o => applyGalleryOp o st) ops db.

(** The keys of the store are in strictly ascending order and below the
    generator. *)
Definition storeOrdered (db : ObjectStore) : Prop :=
  StronglySorted (fun a b => id a < id b) (records db)
  /\ Forall (fun r => id r < keyGenerator db) (records db).

(** The order of the list that the gallery reads: later dates first, and,
    among equal dates, smaller ids first. *)
Definition listedBefore (a b : SavedItem) : Prop :=
  createdAt b < createdAt a \/ (createdAt a = createdAt b /\ id a < id b).

(** ** Object URLs of the displayed images *)

(** One [useEffect] of the component with its dependency, together with the
    object URLs it has created and not revoked. The equality of [Media]
    stands for [Object.is] on the dependency. *)
Section ObjectUrlEffect.

Context {Media : Type} `{EqDecision Media}.

Record EffectSlot := mkSlot {
  liveUrls : gset nat;           (* created by the effect, not yet revoked *)
  nextUrl : nat;                 (* the next URL that [createObjectURL] gives *)
  lastDeps : option (option Media); (* the dependency of the last run *)
  cleanup : option nat;          (* the URL that the pending cleanup revokes *)
  imageUrl : option nat          (* the state cell [currentImageUrl] / [originalImageUrl] *)
}.

Definition mountSlot : EffectSlot := mkSlot ∅ 0 None None None.

(** [() => URL.revokeObjectURL(url)], when the last run returned it. *)
Definition runCleanup (sl : EffectSlot) : EffectSlot :=
  match cleanup sl with
  | Some url =>
      mkSlot (liveUrls sl ∖ {[url]}) (nextUrl sl) (lastDeps sl) None (imageUrl sl)
  | None => sl
  end.

(** The body of the effect for the image [img]. *)
Definition runEffect (img : option Media) (sl : EffectSlot) : EffectSlot :=
  match img with
  | Some _ =>
      let url := nextUrl sl in
      mkSlot (liveUrls sl ∪ {[url]}) (S (nextUrl sl)) (Some img) (Some url) (Some url)
  | None =>
      mkSlot (liveUrls sl) (nextUrl sl) (Some img) None None
  end.

(** What React does with the effect. After a render with the dependency
    [img]: nothing when the dependency is the one of the last run;
    otherwise the cleanup of the last run, then the body. At unmount: the
    cleanup. *)
Inductive EffectEvent :=
| Commit (img : option Media)
| Unmount.

(** The states that the slot goes through during an event, in order. *)
Definition effectSteps (e : EffectEvent) (sl : EffectSlot) : list EffectSlot :=
  match e with
  | Commit img =>
      if decide (lastDeps sl = Some img) then []
      else [runCleanup sl; runEffect img (runCleanup sl)]
  | Unmount =>
      [mkSlot (liveUrls (runCleanup sl)) (nextUrl sl) None None (imageUrl sl)]
  end.

Definition afterEvent (e : EffectEvent) (sl : EffectSlot) : EffectSlot :=
  last (sl :: effectSteps e sl) |> default sl.

(** Every state from [sl] on, through a sequence of events. *)
Fixpoint effectTrace (es : list EffectEvent) (sl : EffectSlot) : list EffectSlot :=
  match es with
  | [] => [sl]
  | e :: es' => sl :: effectSteps e sl ++ tail (effectTrace es' (afterEvent e sl))
  end.

(** The live URLs are the one that the pending cleanup revokes; it is
    older than the next URL, and a cleanup is pending only after a run
    for an image. *)
Definition slotConsistent (sl : EffectSlot) : Prop :=
  liveUrls sl = match cleanup sl with Some url => {[url]} | None => ∅ end
  /\ (forall url, cleanup sl = Some url ->
        (url < nextUrl sl)%nat /\ exists m, lastDeps sl = Some (Some m)).

End ObjectUrlEffect.

Arguments EffectSlot : clear implicits.
Arguments EffectEvent : clear implicits.

(** The two roles, and the image that each one displays. For a role the
    dependency is a File, and two Files equal in name, type and bytes count
    as the same object. *)
Inductive Role := CurrentRole | OriginalRole.

Definition roleImage (r : Role) (s : AppState) : option File :=
  match r with
  | CurrentRole => currentImage s
  | OriginalRole => originalImage s
  end.

(** The effect events of a role over the renders of the component, the
    unmount at the end included when [unmounts]. *)
Definition roleEvents (r : Role) (renders : list AppState) (unmounts : bool)
  : list (EffectEvent File) :=
  List.map (fun s => Commit (roleImage r s)) renders
  ++ (if unmounts then [Unmount] else []).

(** ** The media types of the round trip *)

Definition isUpper (c : ascii) : bool := (65 <=? code c)%N && (code c <=? 90)%N.

(** A type that a File keeps as it is given and that the data URL carries
    whole: not empty, printable, without capitals, and without the [;] and
    [,] that delimit the header of the data URL. *)
Definition plainTypeChar (c : ascii) : bool :=
  isPrintable c && negb (isUpper c)
  && negb (Ascii.eqb c ";") && negb (Ascii.eqb c ",").

Definition plainMimeType (t : string) : bool :=
  negb (String.eqb t "") && string_forall plainTypeChar t.

Definition notChar (sep c : ascii) : bool := negb (Ascii.eqb c sep).

(** The 6-bit values and the padding that [base64Encode] writes. *)
Fixpoint sextetsOf (bs : list byte) : list N :=
  (match bs with
   | b0 :: b1 :: b2 :: rest =>
       let n := (byteN b0 * 256 + byteN b1) * 256 + byteN b2 in
       n / 262144 :: (n / 4096) mod 64 :: (n / 64) mod 64 :: n mod 64
         :: sextetsOf rest
   | [b0; b1] =>
       let n := (byteN b0 * 256 + byteN b1) * 4 in
       [n / 4096; (n / 64) mod 64; n mod 64]
   | [b0] =>
       let n := byteN b0 * 16 in
       [n / 64; n mod 64]
   | [] => []
   end)%N.

Fixpoint paddingOf (bs : list byte) : list ascii :=
  match bs with
  | _ :: _ :: _ :: rest => paddingOf rest
  | [_; _] => ["="%char]
  | [_] => ["="%char; "="%char]
  | [] => []
  end.

(** Linear arithmetic with division and remainder by constants. *)
Ltac lia_div := zify; Z.to_euclidean_division_equations; lia.

(** ** Sample media for the examples *)

Definition pngA : File := mkFile "a.png" "image/png" [x89; x50; x4e; x47].
Definition pngB : File := mkFile "b.png" "image/png" [x89; x50; x00].
Definition pngC : File := mkFile "c.png" "image/png" [xff; xd8; xff].

(** A stored history cut short in the middle of its entry: the first 40
    characters of the saved history of one image, which end inside the
    base64 text of the data URL. *)
Definition truncatedHistoryJSON : string :=
  substring 0 40 (JSON_stringify (serializableHistory [pngA])).

(** A stored history whose only entry has lost the prefix of its data URL:
    the array of one object with dataUrl iVBORw== and name a.png. *)
Definition prefixlessHistoryJSON : string :=
  JSON_stringify
    (JArray [JObject [("dataUrl", JString "iVBORw=="); ("name", JString "a.png")]]).

(** ** The other handlers of the component *)

Definition handleNavigateToGallery (s : AppState) : AppState :=
  s |> setView gallery.

(** [handleNavigateToEditor(imageFile?)]: with a file of the gallery the
    history is replaced by that file alone. *)
Definition handleNavigateToEditor (imageFile : option File) (s : AppState) : AppState :=
  let s1 :=
    match imageFile with
    | Some f =>
        s |> setError None
          |> setHistory [f]
          |> setHistoryIndex 0
          |> setEditHotspot None
          |> setDisplayHotspot None
          |> setActiveTab retouch
          |> setCrop None
          |> setCompletedCrop None
    | None => s
    end in
  s1 |> setView editor.

(** [handleSaveToGallery]: the current image goes to the gallery store;
    when the store rejects the save, the error says so. *)
Definition handleSaveToGallery (failure : option Thrown) (now : Z)
    (s : AppState) (db : ObjectStore) : AppState * ObjectStore :=
  match currentImage s with
  | Some img =>
      let s1 := s |> setIsLoading true |> setError None in
      match awaitSaveItem failure img now db with
      | (Ok _, db') =>
          (s1 |> setToastMessage (Some "画像をギャラリーに保存しました。")
              |> setIsLoading false,
           db')
      | (Throw err, db') =>
          (s1 |> setError (Some ("ギャラリーへの保存に失敗しました。 "
                                 +:+ errorMessageOf err))
              |> setIsLoading false,
           db')
      end
  | None => (s, db)
  end.

(** What [renderContent] shows: the error view when there is an error, the
    gallery in the gallery view, the start screen when no image is
    displayed, and the editor otherwise. The URL of the displayed image is
    there exactly when there is a current image, once the effects have
    run. *)
Definition showsStartScreen (s : AppState) : bool :=
  falsy (error s)
  && match view s with editor => true | gallery => false end
  && match currentImage s with None => true | Some _ => false end.

(** [handleImageClick]: outside the retouch tab a click does nothing; in it
    the click sets the two hotspots. The two points are what the handler
    computes from the geometry of the displayed image: the offset of the
    click, and the same point in the coordinates of the image. *)
Definition handleImageClick (displayPoint originalPoint : Hotspot) (s : AppState)
  : AppState :=
  match activeTab s with
  | retouch =>
      s |> setDisplayHotspot (Some displayPoint)
        |> setEditHotspot (Some originalPoint)
  | _ => s
  end.

(** The stack is empty with index -1, or the index points into it. *)
Definition stackShape (s : AppState) : Prop :=
  (history s = [] /\ historyIndex s = -1)
  \/ 0 <= historyIndex s < len (history s).

(** Everything that the user and the collaborators can make the component do
    to its history, each action run to its end before the next one. *)
Inductive AppAction :=
| DoAppend (newImageFile : File)
| DoUndo
| DoRedo
| DoReset
| DoUpload (f : File)
| DoUploadNew (mode : StartMode)
| DoOpenGallery
| DoOpenEditor (imageFile : option File)
| DoEdit (now : Z)
| DoFilter (filterPrompt : string) (now : Z)
| DoAdjust (adjustmentPrompt : string) (now : Z)
| DoUpscale (now : Z)
| DoSetPrompt (p : string)
| DoClickImage (displayPoint originalPoint : Hotspot).

Section AppRun.

Variable generateEditedImage : File -> string -> Hotspot -> Result string.
Variable generateFilteredImage : File -> string -> Result string.
Variable generateAdjustedImage : File -> string -> Result string.
Variable upscaleImage : File -> Result string.

Definition applyAction (a : AppAction) (s : AppState) : AppState :=
  match a with
  | DoAppend f => addImageToHistory f s
  | DoUndo => handleUndo s
  | DoRedo => handleRedo s
  | DoReset => handleReset s
  | DoUpload f => handleImageUpload f s
  | DoUploadNew mode => handleUploadNew mode s
  | DoOpenGallery => handleNavigateToGallery s
  | DoOpenEditor f => handleNavigateToEditor f s
  | DoEdit now => handleGenerate generateEditedImage now s
  | DoFilter p now => handleApplyFilter generateFilteredImage now p s
  | DoAdjust p now => handleApplyAdjustment generateAdjustedImage now p s
  | DoUpscale now => handleUpscaleImage upscaleImage now s
  | DoSetPrompt p => s |> setPrompt p
  | DoClickImage displayPoint originalPoint =>
      handleImageClick displayPoint originalPoint s
  end.

Definition runApp (actions : list AppAction) (s : AppState) : AppState :=
  fold_left (fun st a => applyAction a st) actions s.

End AppRun.

(** The component as [App] starts it: the state cells of the first render
    hold what [loadInitialState] restored. *)
Definition startApp (ls : Storage) : AppState :=
  let '(h, i) := fst (loadInitialState ls) in initialApp h i.

(** An action that keeps the first entry of a non-empty history. *)
Definition keepsOriginal (a : AppAction) : bool :=
  match a with
  | DoUpload _ | DoUploadNew _ | DoOpenEditor (Some _) => false
  | _ => true
  end.

(** ** Auxiliary definitions of the proofs *)

(** The value of a run of digits that continues a number. *)
Definition digitsFrom (acc : Z) (ds : list ascii) : Z :=
  fold_left (fun acc c => acc * 10 + (Z.of_N (code c) - 48)) ds acc.

(** The stored form of one file, and the tokens of its text. *)
Definition entryJson (f : File) : json :=
  JObject [("dataUrl", JString (fileToDataURL f)); ("name", JString (file_name f))].

Definition entryTokens (f : File) : list token :=
  [TLBrace; TString "dataUrl"; TColon; TString (fileToDataURL f); TComma;
   TString "name"; TColon; TString (file_name f); TRBrace].

Fixpoint moreEntryTokens (fs : list File) : list token :=
  match fs with
  | [] => []
  | f :: fs' => TComma :: entryTokens f ++ moreEntryTokens fs'
  end.

(** ** The gallery view *)

(** The state of the [Gallery] component. *)
Record GalleryView := mkGallery {
  items : list SavedItem;
  galleryIsLoading : bool;
  galleryError : option string
}.

Definition mountGallery : GalleryView := mkGallery [] true None.

(** [loadItems]: the list of the store replaces the list of the view. *)
Definition loadItems (db : ObjectStore) (v : GalleryView) : GalleryView :=
  mkGallery (getAllItemsFromGallery db) false None.

(** [handleDelete(id)]: when the user confirms, the entry leaves the store
    and the list of the view; [confirmed] is the answer to
    [window.confirm]. *)
Definition galleryHandleDelete (confirmed : bool) (key : Z)
    (v : GalleryView) (db : ObjectStore) : GalleryView * ObjectStore :=
  if confirmed then
    (mkGallery (List.filter (fun item => negb (id item =? key)) (items v))
               (galleryIsLoading v) (galleryError v),
     deleteItemFromGallery key db)
  else (v, db).

(** A sequence of deletions, each with the answer of the user. *)
Definition runDeletes (ds : list (bool * Z)) (v : GalleryView) (db : ObjectStore)
  : GalleryView * ObjectStore :=
  fold_left (fun st d => galleryHandleDelete (fst d) (snd d) (fst st) (snd st))
            ds (v, db).

(** ** The AI service *)

(** [s.trim()]. *)
Definition trim (s : string) : string :=
  string_of_list_ascii
    (rev (dropWhile isStrWhitespace
            (rev (dropWhile isStrWhitespace (list_ascii_of_string s))))).

(** A string or [undefined] inside a template literal. *)
Definition templateOf (x : option string) : string := default "undefined" x.

(** [x || ''] for a string or [undefined]. *)
Definition orEmpty (x : option string) : string := default "" x.

Definition quoted (s : string) : string := String dquote s +:+ String dquote "".

(** The parts of a response of the model that the service reads. [text] is
    the value of the getter of that name. *)
Record InlineData := mkInlineData {
  mimeType : option string;
  data : option string
}.

Record Part := mkPart {
  inlineData : option InlineData;
  partText : option string
}.

Record Content := mkContent {
  parts : option (list Part)
}.

Record Candidate := mkCandidate {
  content : option Content;
  finishReason : option string
}.

Record PromptFeedback := mkPromptFeedback {
  blockReason : option string;
  blockReasonMessage : option string
}.

Record GenerateContentResponse := mkResponse {
  promptFeedback : option PromptFeedback;
  candidates : option (list Candidate);
  text : option string
}.

(** The four contexts that the service passes to [handleApiResponse], and
    their entries in [contextMap]. *)
Inductive ApiContext := CtxEdit | CtxFilter | CtxAdjustment | CtxUpscale.

Definition contextMap (context : ApiContext) : string :=
  match context with
  | CtxEdit => "編集"
  | CtxFilter => "フィルター"
  | CtxAdjustment => "調整"
  | CtxUpscale => "高画質化"
  end.

(** [response.candidates?.[0]]. *)
Definition firstCandidate (response : GenerateContentResponse) : option Candidate :=
  match candidates response with
  | Some (c :: _) => Some c
  | _ => None
  end.

(** [response.candidates?.[0]?.content?.parts?.find(part => part.inlineData)]. *)
Definition imagePartFromResponse (response : GenerateContentResponse) : option Part :=
  match firstCandidate response with
  | Some c =>
      match content c with
      | Some (mkContent (Some ps)) =>
          List.find (fun part => match inlineData part with
                                 | Some _ => true
                                 | None => false
                                 end) ps
      | _ => None
      end
  | None => None
  end.

Definition handleApiResponse (response : GenerateContentResponse)
    (context : ApiContext) : Result string :=
  let blocked :=
    match promptFeedback response with
    | Some feedback =>
        if falsy (blockReason feedback) then None else Some feedback
    | None => None
    end in
  match blocked with
  | Some feedback =>
      Throw (ErrorObj ("リクエストがブロックされました。理由: "
                       +:+ templateOf (blockReason feedback) +:+ "。"
                       +:+ orEmpty (blockReasonMessage feedback)))
  | None =>
      match imagePartFromResponse response with
      | Some (mkPart (Some image) _) =>
          Ok ("data:" +:+ templateOf (mimeType image) +:+ ";base64,"
              +:+ templateOf (data image))
      | _ =>
          let reason :=
            match firstCandidate response with
            | Some c => finishReason c
            | None => None
            end in
          let translatedContext := contextMap context in
          if negb (falsy reason) && negb (String.eqb (orEmpty reason) "STOP") then
            Throw (ErrorObj (translatedContext
                             +:+ "の画像生成が予期せず停止しました。理由: "
                             +:+ templateOf reason
                             +:+ "。これはセーフティ設定に関連することがよくあります。"))
          else
            let textFeedback := option_map trim (text response) in
            Throw (ErrorObj
                     ("AIモデルが" +:+ translatedContext +:+ "の画像を返しませんでした。"
                      +:+ (if falsy textFeedback then
                             "これはセーフティフィルターや、リクエストが複雑すぎる場合に発生する可能性があります。より直接的な表現でプロンプトを書き直してみてください。"
                           else
                             "モデルはテキストで応答しました: "
                             +:+ quoted (templateOf textFeedback))))
      end
  end.

(** [fileToPart]: the media type and the base64 text of a file, taken from
    its data URL. *)
Definition fileToPart (file : File) : Result InlineData :=
  let dataUrl := readAsDataURL file in
  let arr := split "," dataUrl in
  if (length arr <? 2)%nat then Throw (ErrorObj "Invalid data URL") else
  match matchMime (nth 0 arr "") with
  | None | Some EmptyString =>
      Throw (ErrorObj "Could not parse MIME type from data URL")
  | Some mime => Ok (mkInlineData (Some mime) (Some (nth 1 arr "")))
  end.

(** [fileToBase64]: [result.split(',')[1]]. *)
Definition fileToBase64 (file : File) : option string :=
  split "," (readAsDataURL file) !! 1%nat.

Definition editPrompt (userPrompt : string) (hotspot : Hotspot) : string :=
  "You are an expert photo editor AI. Your task is to perform a natural, localized edit on the provided image based on the user's request.
User Request: "
  +:+ quoted userPrompt
  +:+ "
Edit Location: Focus on the area around pixel coordinates (x: "
  +:+ stringOfZ (fst hotspot)
  +:+ ", y: "
  +:+ stringOfZ (snd hotspot)
  +:+ ").

Editing Guidelines:
- The edit must be realistic and blend seamlessly with the surrounding area.
- The rest of the image (outside the immediate edit area) must remain identical to the original.

Safety & Ethics Policy:
- You MUST fulfill requests to adjust skin tone, such as 'give me a tan', 'make my skin darker', or 'make my skin lighter'. These are considered standard photo enhancements.
- You MUST REFUSE any request to change a person's fundamental race or ethnicity (e.g., 'make me look Asian', 'change this person to be Black'). Do not perform these edits. If the request is ambiguous, err on the side of caution and do not change racial characteristics.

Output: Return ONLY the final edited image. Do not return text.".

Definition filterPromptText (filterPrompt : string) : string :=
  "You are an expert photo editor AI. Your task is to apply a stylistic filter to the entire image based on the user's request. Do not change the composition or content, only apply the style.
Filter Request: "
  +:+ quoted filterPrompt
  +:+ "

Safety & Ethics Policy:
- Filters may subtly shift colors, but you MUST ensure they do not alter a person's fundamental race or ethnicity.
- You MUST REFUSE any request that explicitly asks to change a person's race (e.g., 'apply a filter to make me look Chinese').

Output: Return ONLY the final filtered image. Do not return text.".

Definition adjustmentPromptText (adjustmentPrompt : string) : string :=
  "You are an expert photo editor AI. Your task is to perform a natural, global adjustment to the entire image based on the user's request.
User Request: "
  +:+ quoted adjustmentPrompt
  +:+ "

Editing Guidelines:
- The adjustment must be applied across the entire image.
- The result must be photorealistic.

Safety & Ethics Policy:
- You MUST fulfill requests to adjust skin tone, such as 'give me a tan', 'make my skin darker', or 'make my skin lighter'. These are considered standard photo enhancements.
- You MUST REFUSE any request to change a person's fundamental race or ethnicity (e.g., 'make me look Asian', 'change this person to be Black'). Do not perform these edits. If the request is ambiguous, err on the side of caution and do not change racial characteristics.

Output: Return ONLY the final adjusted image. Do not return text.".

Definition upscalePrompt : string :=
  "You are an expert photo restoration AI. Your task is to upscale the provided image, significantly increasing its resolution, sharpness, and detail. Remove any compression artifacts, noise, or blurriness. The final result should be a photorealistic, high-quality version of the original. Do not change the composition, content, or style. Output ONLY the final upscaled image.".

Definition IMAGE_MODEL : string := "gemini-2.5-flash-image-preview".

(** The calls of the service. [generateContent] is the model behind the
    network: for a model name, an image part and a prompt it gives a
    response or fails. *)
Section AiService.

Variable generateContent :
  string -> InlineData -> string -> Result GenerateContentResponse.

Definition generateEditedImage (originalImage : File) (userPrompt : string)
    (hotspot : Hotspot) : Result string :=
  let* originalImagePart := fileToPart originalImage in
  let prompt := editPrompt userPrompt hotspot in
  let* response := generateContent IMAGE_MODEL originalImagePart prompt in
  handleApiResponse response CtxEdit.

Definition generateFilteredImage (originalImage : File) (filterPrompt : string)
  : Result string :=
  let* originalImagePart := fileToPart originalImage in
  let prompt := filterPromptText filterPrompt in
  let* response := generateContent IMAGE_MODEL originalImagePart prompt in
  handleApiResponse response CtxFilter.

Definition generateAdjustedImage (originalImage : File) (adjustmentPrompt : string)
  : Result string :=
  let* originalImagePart := fileToPart originalImage in
  let prompt := adjustmentPromptText adjustmentPrompt in
  let* response := generateContent IMAGE_MODEL originalImagePart prompt in
  handleApiResponse response CtxAdjustment.

Definition upscaleImage (originalImage : File) : Result string :=
  let* originalImagePart := fileToPart originalImage in
  let prompt := upscalePrompt in
  let* response := generateContent IMAGE_MODEL originalImagePart prompt in
  handleApiResponse response CtxUpscale.

End AiService.

(** ** The image generation panel *)

Definition enhancePromptText (userPrompt : string) : string :=
  "You are a world-class prompt engineer specializing in creating vivid, detailed, and effective prompts for generative AI image models. Your task is to take a user's simple idea and expand it into a rich, masterpiece-level prompt.

Follow these rules:
1.  **Analyze Intent:** Understand the core subject and mood the user wants.
2.  **Add Detail:** Elaborate on the subject, background, and environment. Describe textures, materials, and specific features.
3.  **Define Atmosphere:** Specify the lighting (e.g., "
  +:+ quoted "dramatic studio lighting,"
  +:+ " "
  +:+ quoted "golden hour glow,"
  +:+ " "
  +:+ quoted "moody cinematic lighting"
  +:+ "), time of day, and weather.
4.  **Specify Style:** Define the artistic style (e.g., "
  +:+ quoted "photorealistic,"
  +:+ " "
  +:+ quoted "fantasy concept art,"
  +:+ " "
  +:+ quoted "impressionist painting,"
  +:+ " "
  +:+ quoted "cyberpunk anime"
  +:+ ").
5.  **Set Composition:** Suggest a camera angle, shot type, and lens (e.g., "
  +:+ quoted "dynamic low-angle shot,"
  +:+ " "
  +:+ quoted "macro detail shot,"
  +:+ " "
  +:+ quoted "wide-angle panoramic view, 35mm lens"
  +:+ ").
6.  **Use Strong Keywords:** Use evocative adjectives and technical terms relevant to art and photography.
7.  **Output Format:** Return ONLY the final, enhanced prompt as a single, continuous line of text. Do not add any conversational text, labels, or explanations.

User's idea: "
  +:+ quoted userPrompt.

Definition TEXT_MODEL : string := "gemini-2.5-flash".

Inductive AspectRatio := Ratio1x1 | Ratio16x9 | Ratio9x16 | Ratio4x3 | Ratio3x4.

(** What the service reads of a response of the image model. *)
Record ImagePayload := mkImagePayload {
  imageBytes : option string
}.

Record GeneratedImage := mkGeneratedImage {
  image : option ImagePayload
}.

Record GenerateImagesResponse := mkImagesResponse {
  generatedImages : option (list GeneratedImage)
}.

Section ImageGeneration.

(** The image model and the text model behind the network. Of the response
    of the text model the service reads [text] only. *)
Variable generateImages : string -> AspectRatio -> Result GenerateImagesResponse.
Variable generateText : string -> string -> Result (option string).

(** The message of the [TypeError] that the engine raises when the
    property of that name is read of [undefined]. *)
Variable typeErrorMessage : string -> string.

(** [generateImage]: every failure inside leaves as an [Error] with the
    prefix of the service. *)
Definition generateImage (prompt : string) (aspectRatio : AspectRatio)
  : Result string :=
  let attempt :=
    let* response := generateImages prompt aspectRatio in
    match generatedImages response with
    | Some (first :: _) =>
        match image first with
        | None =>
            Throw (ErrorObj (typeErrorMessage "imageBytes"))
        | Some payload =>
            if falsy (imageBytes payload) then
              Throw (ErrorObj "AIモデルが画像を生成できませんでした。プロンプトを変更して再試行してください。")
            else Ok ("data:image/png;base64," +:+ templateOf (imageBytes payload))
        end
    | _ =>
        Throw (ErrorObj "AIモデルが画像を生成できませんでした。プロンプトを変更して再試行してください。")
    end in
  match attempt with
  | Ok url => Ok url
  | Throw err =>
      Throw (ErrorObj ("画像生成に失敗しました: " +:+ errorMessageOf err))
  end.

(** [enhancePrompt]: the answer of the text model, trimmed; an answer that
    is blank is a failure. *)
Definition enhancePrompt (userPrompt : string) : Result string :=
  let prompt := enhancePromptText userPrompt in
  let attempt :=
    let* text := generateText TEXT_MODEL prompt in
    match text with
    | None => Throw (ErrorObj (typeErrorMessage "trim"))
    | Some t =>
        let enhancedPrompt := trim t in
        if String.eqb enhancedPrompt "" then
          Throw (ErrorObj "モデルがプロンプトを改善できませんでした。")
        else Ok enhancedPrompt
    end in
  match attempt with
  | Ok enhancedPrompt => Ok enhancedPrompt
  | Throw err =>
      Throw (ErrorObj ("プロンプトの改善に失敗しました: " +:+ errorMessageOf err))
  end.

(** The state of [ImageGenerationPanel]. *)
Record PanelState := mkPanel {
  panelPrompt : string;
  panelAspectRatio : AspectRatio;
  isGenerating : bool;
  isEnhancing : bool
}.

Definition setIsGenerating (b : bool) (p : PanelState) : PanelState :=
  mkPanel (panelPrompt p) (panelAspectRatio p) b (isEnhancing p).

Definition setIsEnhancing (b : bool) (p : PanelState) : PanelState :=
  mkPanel (panelPrompt p) (panelAspectRatio p) (isGenerating p) b.

Definition setPanelPrompt (t : string) (p : PanelState) : PanelState :=
  mkPanel t (panelAspectRatio p) (isGenerating p) (isEnhancing p).

(** What [catch] of the panel reports for a thrown value. *)
Definition panelMessageOf (err : Thrown) : string :=
  match err with
  | ErrorObj m => m
  | NonError => "不明なエラー"
  end.

(** The panel lives in the start screen: when the component shows
    something else after a handler, the panel is unmounted and its state is
    gone ([None]); a panel that is mounted again starts from its initial
    state. *)
Definition mountPanel : PanelState := mkPanel "" Ratio1x1 false false.

Definition stillMounted (p : PanelState) (s : AppState) : option PanelState :=
  if showsStartScreen s then Some p else None.

(** [handleEnhancePrompt] of the panel, run to its end; [onError] is
    [setError] of [App]. *)
Definition panelHandleEnhancePrompt (p : PanelState) (s : AppState)
  : option PanelState * AppState :=
  if isBlank (panelPrompt p) then
    let s' := s |> setError (Some "改善するプロンプトを入力してください。") in
    (stillMounted p s', s')
  else
    let p1 := p |> setIsEnhancing true in
    let s1 := s |> setError (Some "") in
    match enhancePrompt (panelPrompt p) with
    | Ok enhanced =>
        (stillMounted (p1 |> setPanelPrompt enhanced |> setIsEnhancing false) s1, s1)
    | Throw err =>
        let s' := s1 |> setError (Some (panelMessageOf err)) in
        (stillMounted (p1 |> setIsEnhancing false) s', s')
    end.

(** [handleGenerate] of the panel, run to its end, with the callbacks that
    [App] gives it: [onError] is [setError], [setToastMessage] is the one of
    [App], and [onImageGenerated] is [handleImageUpload]. The generated file
    is saved to the gallery before it becomes the history; a save that
    fails is logged and the file still becomes the history. The callbacks
    set cells of [App] to values that they do not read from it. [now] is the
    reading of [Date.now()] for the name of the file, [savedAt] the date of
    the save, and [failure] the rejection of the save, if any. *)
Definition panelHandleGenerate (failure : option Thrown) (now savedAt : Z)
    (p : PanelState) (s : AppState) (db : ObjectStore)
  : option PanelState * AppState * ObjectStore :=
  if isBlank (panelPrompt p) then
    let s' := s |> setError (Some "画像を生成するためのプロンプトを入力してください。") in
    (stillMounted p s', s', db)
  else
    let p1 := p |> setIsGenerating true in
    let s1 := s |> setError (Some "") in
    let attempt :=
      let* imageUrl := generateImage (panelPrompt p) (panelAspectRatio p) in
      dataURLtoFile imageUrl ("generated-" +:+ stringOfZ now +:+ ".png") in
    match attempt with
    | Ok imageFile =>
        let '(saved, db') := awaitSaveItem failure imageFile savedAt db in
        let s2 :=
          match saved with
          | Ok _ =>
              s1 |> setToastMessage (Some "AIが生成した画像をギャラリーに自動保存しました。")
          | Throw _ => s1
          end in
        let s' := s2 |> handleImageUpload imageFile in
        (stillMounted (p1 |> setIsGenerating false) s', s', db')
    | Throw err =>
        let s' := s1 |> setError (Some (panelMessageOf err)) in
        (stillMounted (p1 |> setIsGenerating false) s', s', db)
    end.

End ImageGeneration.

(** The response is blocked: [response.promptFeedback?.blockReason] is a
    string that is not empty. *)
Definition isBlocked (response : GenerateContentResponse) : bool :=
  match promptFeedback response with
  | Some feedback => negb (falsy (blockReason feedback))
  | None => false
  end.

(** The model answers with an image: the response is not blocked, and the
    first part with inline data of its first candidate carries the bytes
    [bs] in base64 under the type [mime]. *)
Definition imageAnswer (response : GenerateContentResponse)
    (mime : string) (bs : list byte) : Prop :=
  isBlocked response = false
  /\ exists t,
       imagePartFromResponse response
       = Some (mkPart (Some (mkInlineData (Some mime) (Some (base64Encode bs)))) t).

(** [s'] is [s] with [file] appended behind the current image and made
    current, and with no action running and no error shown. *)
Definition appended (file : File) (s s' : AppState) : Prop :=
  history s' = take (Z.to_nat (historyIndex s + 1)) (history s) ++ [file]
  /\ historyIndex s' = historyIndex s + 1
  /\ currentImage s' = Some file
  /\ error s' = None
  /\ isLoading s' = false.

(** The part that the service makes of a file of a plain type. *)
Definition partOf (file : File) : InlineData :=
  mkInlineData (Some (file_type file)) (Some (base64Encode (file_bytes file))).

(** A response that carries one image and a response that is blocked. *)
Definition imageResponse (mime text : string) : GenerateContentResponse :=
  mkResponse None
    (Some [mkCandidate
             (Some (mkContent (Some [mkPart None (Some "Here it is.");
                                     mkPart (Some (mkInlineData (Some mime) (Some text)))
                                            None])))
             (Some "STOP")])
    None.

Definition blockedResponse : GenerateContentResponse :=
  mkResponse (Some (mkPromptFeedback (Some "SAFETY") None))
    (Some [mkCandidate
             (Some (mkContent (Some [mkPart (Some (mkInlineData (Some "image/png")
                                                               (Some "iVBORw==")))
                                            None])))
             (Some "STOP")])
    None.

(** The slot after a sequence of events. *)
Definition afterEvents {Media : Type} `{EqDecision Media}
    (es : list (EffectEvent Media)) (sl : EffectSlot Media) : EffectSlot Media :=
  fold_left (fun st e => afterEvent e st) es sl.

(** At rest the cell of the URL holds the URL of the pending cleanup, and
    a cleanup is pending exactly when the last run was for an image. *)
Definition slotAtRest {Media : Type} (sl : EffectSlot Media) : Prop :=
  slotConsistent sl
  /\ imageUrl sl = cleanup sl
  /\ (forall img, lastDeps sl = Some img -> (is_Some (cleanup sl) <-> is_Some img)).

(** The effect of [MediaCard] in the gallery, over the renders of one
    mounted card: its dependency is the file of the item, which is never
    absent. A card that is mounted again starts from [mountSlot]. *)
Definition mediaCardEvents (renders : list SavedItem) : list (EffectEvent File) :=
  List.map (fun item => Commit (Some (file item))) renders.

(** ** The filter panel and the adjustment panel *)

(** [FilterPanel] and [AdjustmentPanel] have the same state and the same
    handlers; they differ in their presets and in the handler of [App] that
    they call. *)
Record PresetPanel := mkPresetPanel {
  selectedPresetPrompt : option string;
  customPrompt : string
}.

Definition mountPresetPanel : PresetPanel := mkPresetPanel None "".

(** [selectedPresetPrompt || customPrompt]. *)
Definition activePrompt (st : PresetPanel) : string :=
  if falsy (selectedPresetPrompt st) then customPrompt st
  else orEmpty (selectedPresetPrompt st).

Definition handlePresetClick (prompt : string) (st : PresetPanel) : PresetPanel :=
  mkPresetPanel (Some prompt) "".

Definition handleCustomChange (value : string) (st : PresetPanel) : PresetPanel :=
  mkPresetPanel None value.

(** [handleApply]: the prompt that goes to the handler of [App], if any. *)
Definition handleApply (st : PresetPanel) : option string :=
  if String.eqb (activePrompt st) "" then None else Some (activePrompt st).

(** The button of the panel is rendered when there is an active prompt,
    and it is disabled while an action runs and when the prompt is blank. A
    click reaches [handleApply] when the button is there and enabled. *)
Definition applyButtonEnabled (isLoading : bool) (st : PresetPanel) : bool :=
  negb (String.eqb (activePrompt st) "")
  && negb (isLoading || isBlank (activePrompt st)).

Definition clickApply (isLoading : bool) (st : PresetPanel) : option string :=
  if applyButtonEnabled isLoading st then handleApply st else None.

(** The choices of the user in a panel. *)
Inductive PresetEvent :=
| PresetClick (prompt : string)
| CustomChange (value : string).

Definition presetEventText (e : PresetEvent) : string :=
  match e with
  | PresetClick prompt => prompt
  | CustomChange value => value
  end.

Definition applyPresetEvent (e : PresetEvent) (st : PresetPanel) : PresetPanel :=
  match e with
  | PresetClick prompt => handlePresetClick prompt st
  | CustomChange value => handleCustomChange value st
  end.

Definition runPresetPanel (es : list PresetEvent) (st : PresetPanel) : PresetPanel :=
  fold_left (fun st e => applyPresetEvent e st) es st.

(** A click on the button of [FilterPanel], whose [onApplyFilter] is
    [handleApplyFilter], and on the button of [AdjustmentPanel], whose
    [onApplyAdjustment] is [handleApplyAdjustment]. *)
Definition clickApplyFilter
    (generateFilteredImage : File -> string -> Result string) (now : Z)
    (st : PresetPanel) (s : AppState) : AppState :=
  match clickApply (isLoading s) st with
  | Some prompt => handleApplyFilter generateFilteredImage now prompt s
  | None => s
  end.

Definition clickApplyAdjustment
    (generateAdjustedImage : File -> string -> Result string) (now : Z)
    (st : PresetPanel) (s : AppState) : AppState :=
  match clickApply (isLoading s) st with
  | Some prompt => handleApplyAdjustment generateAdjustedImage now prompt s
  | None => s
  end.

(** ** The video service *)

(** What the service reads of an operation of the video model:
    [operation.done] and [operation.response?.generatedVideos?.[0]?.video?.uri]. *)
Record Video := mkVideo {
  uri : option string
}.

Record GeneratedVideo := mkGeneratedVideo {
  video : option Video
}.

Record GenerateVideosResponse := mkVideosResponse {
  generatedVideos : option (list GeneratedVideo)
}.

Record VideosOperation := mkOperation {
  done : bool;
  response : option GenerateVideosResponse
}.

Definition downloadLinkOf (operation : VideosOperation) : option string :=
  match response operation with
  | Some r =>
      match generatedVideos r with
      | Some (first :: _) =>
          match video first with
          | Some v => uri v
          | None => None
          end
      | _ => None
      end
  | None => None
  end.

(** The request that goes to the video model. *)
Module Veo.
Record Image := mkImage {
  imageBytes : option string;
  mimeType : string
}.
End Veo.

Record VideoRequest := mkVideoRequest {
  requestModel : string;
  requestPrompt : string;
  requestImage : option Veo.Image;
  numberOfVideos : Z
}.

(** What the service reads of the response of [fetch]. *)
Record FetchResponse := mkFetchResponse {
  ok : bool;
  statusText : string;
  blob : Result (list byte)
}.

(** A call that has settled with a result, or that is still waiting. *)
Inductive Pending (A : Type) :=
| Settled (r : Result A)
| StillPending.
Arguments Settled {A} r.
Arguments StillPending {A}.

(** The loop [while (!operation.done)]: each turn waits and asks for the
    operation again. [polls] are the answers of [getVideosOperation] in the
    order of the calls; when they are used up the loop is still waiting. *)
Fixpoint pollOperation (operation : VideosOperation)
    (polls : list (Result VideosOperation)) : Pending VideosOperation :=
  if done operation then Settled (Ok operation)
  else
    match polls with
    | [] => StillPending
    | Ok operation' :: later => pollOperation operation' later
    | Throw err :: _ => Settled (Throw err)
    end.

Section VideoService.

(** The video model and [fetch] behind the network, and
    [process.env.API_KEY]. *)
Variable generateVideos : VideoRequest -> Result VideosOperation.
Variable fetch : string -> Result FetchResponse.
Variable API_KEY : option string.

(** [generateVideo]; [newUrl] is the URL that [URL.createObjectURL] gives
    for the downloaded blob. The image, when there is one, is read before
    the [try] block: when the reader fails ([readFails]) its rejection,
    which is the event of the reader and not an [Error], leaves the
    function as it is. *)
Definition generateVideo (prompt : string) (image : option File)
    (readFails : bool)
    (polls : list (Result VideosOperation)) (newUrl : string) : Pending string :=
  if match image with Some _ => readFails | None => false end then
    Settled (Throw NonError)
  else
  let requestPayload :=
    mkVideoRequest "veo-2.0-generate-001" prompt
      (option_map (fun f => Veo.mkImage (fileToBase64 f) (file_type f)) image)
      1 in
  let attempt :=
    match generateVideos requestPayload with
    | Throw err => Settled (Throw err)
    | Ok started =>
        match pollOperation started polls with
        | StillPending => StillPending
        | Settled (Throw err) => Settled (Throw err)
        | Settled (Ok operation) =>
            let downloadLink := downloadLinkOf operation in
            Settled
              (if falsy downloadLink then
                 Throw (ErrorObj "動画の生成に成功しましたが、ビデオデータが見つかりませんでした。セーフティ設定が原因である可能性があります。")
               else
                 let* fetched :=
                   fetch (templateOf downloadLink +:+ "&key=" +:+ templateOf API_KEY) in
                 if negb (ok fetched) then
                   Throw (ErrorObj ("生成された動画のダウンロードに失敗しました: "
                                    +:+ statusText fetched))
                 else
                   let* videoBlob := blob fetched in
                   Ok newUrl)
        end
    end in
  match attempt with
  | Settled (Throw err) =>
      Settled (Throw (ErrorObj ("動画生成に失敗しました: " +:+ errorMessageOf err)))
  | other => other
  end.

End VideoService.

(** An answer of [getVideosOperation] that keeps the loop waiting. *)
Definition keepsWaiting (answer : Result VideosOperation) : Prop :=
  exists operation, answer = Ok operation /\ done operation = false.

(** ** Actions that wait for a collaborator *)

(** The four actions that call an AI collaborator wait for its answer, and
    the component takes other actions meanwhile: undo, redo, reset, a new
    upload and the tabs stay enabled. The handler that waits is the one of
    the render in which it started: its [addImageToHistory] appends to the
    history and the index of that render, not to those of the moment when
    the answer comes. *)
Inductive AsyncKind :=
| EditKind
| FilterKind (filterPrompt : string)
| AdjustKind (adjustmentPrompt : string)
| UpscaleKind.

Record PendingAction := mkPendingAction {
  pendingKind : AsyncKind;
  closureHistory : list File;
  closureIndex : Z;
  awaited : Result string
}.

(** [addImageToHistory] of the render with the history [closureHistory] and
    the index [closureIndex]. *)
Definition addImageToHistoryOf (closureHistory : list File) (closureIndex : Z)
    (newImageFile : File) (s : AppState) : AppState :=
  let newHistory := slice0 closureHistory (closureIndex + 1) ++ [newImageFile] in
  s |> setHistory newHistory
    |> setHistoryIndex (len newHistory - 1)
    |> setCrop None
    |> setCompletedCrop None.

(** A handler from the await on: the answer of the collaborator is there,
    [now] is the reading of [Date.now()], and [s] is the state of the
    component at that moment. *)
Definition settleAction (now : Z) (p : PendingAction) (s : AppState) : AppState :=
  let attempt prefix :=
    let* url := awaited p in
    dataURLtoFile url (prefix +:+ stringOfZ now +:+ ".png") in
  let append newImageFile :=
    s |> addImageToHistoryOf (closureHistory p) (closureIndex p) newImageFile in
  let s2 :=
    match pendingKind p with
    | EditKind =>
        match attempt "edited-" with
        | Ok newImageFile =>
            append newImageFile |> setEditHotspot None |> setDisplayHotspot None
        | Throw err =>
            s |> setError (Some ("画像の生成に失敗しました。 " +:+ errorMessageOf err))
        end
    | FilterKind _ =>
        match attempt "filtered-" with
        | Ok newImageFile => append newImageFile
        | Throw err =>
            s |> setError (Some ("フィルターの適用に失敗しました。 " +:+ errorMessageOf err))
        end
    | AdjustKind _ =>
        match attempt "adjusted-" with
        | Ok newImageFile => append newImageFile
        | Throw err =>
            s |> setError (Some ("調整の適用に失敗しました。 " +:+ errorMessageOf err))
        end
    | UpscaleKind =>
        match attempt "upscaled-" with
        | Ok newImageFile =>
            append newImageFile |> setToastMessage (Some "画像を高品質化しました。")
        | Throw err =>
            s |> setError (Some ("画像の高品質化に失敗しました。 " +:+ errorMessageOf err))
        end
    end in
  s2 |> setIsLoading false.

(** What happens in the component: an action that runs to its end, the
    start of an action that waits, and the answer to the [i]-th action that
    waits; the answers come in any order. *)
Inductive AppEvent :=
| Does (a : AppAction)
| Starts (k : AsyncKind)
| Settles (i : nat) (now : Z).

Section AsyncRun.

Variable generateEditedImage : File -> string -> Hotspot -> Result string.
Variable generateFilteredImage : File -> string -> Result string.
Variable generateAdjustedImage : File -> string -> Result string.
Variable upscaleImage : File -> Result string.

(** A handler up to its await: the guards, the two flags, and the call of
    the collaborator, whose answer is awaited. *)
Definition startAction (k : AsyncKind) (s : AppState)
  : AppState * option PendingAction :=
  let waits answer :=
    (s |> setIsLoading true |> setError None,
     Some (mkPendingAction k (history s) (historyIndex s) answer)) in
  match k with
  | EditKind =>
      match currentImage s with
      | None => (s |> setError (Some "編集する画像が読み込まれていません。"), None)
      | Some img =>
          if isBlank (prompt s) then
            (s |> setError (Some "編集内容を入力してください。"), None)
          else
            match editHotspot s with
            | None =>
                (s |> setError (Some "編集する領域を画像上でクリックして選択してください。"),
                 None)
            | Some hotspot => waits (generateEditedImage img (prompt s) hotspot)
            end
      end
  | FilterKind filterPrompt =>
      match currentImage s with
      | None =>
          (s |> setError (Some "フィルターを適用する画像が読み込まれていません。"), None)
      | Some img => waits (generateFilteredImage img filterPrompt)
      end
  | AdjustKind adjustmentPrompt =>
      match currentImage s with
      | None => (s |> setError (Some "調整を適用する画像が読み込まれていません。"), None)
      | Some img => waits (generateAdjustedImage img adjustmentPrompt)
      end
  | UpscaleKind =>
      match currentImage s with
      | None => (s |> setError (Some "高品質化する画像が読み込まれていません。"), None)
      | Some img => waits (upscaleImage img)
      end
  end.

Definition stepEvent (e : AppEvent) (st : AppState * list PendingAction)
  : AppState * list PendingAction :=
  match e with
  | Does a =>
      (applyAction generateEditedImage generateFilteredImage
                   generateAdjustedImage upscaleImage a (fst st), snd st)
  | Starts k =>
      let '(s', p) := startAction k (fst st) in
      (s', snd st ++ match p with Some p => [p] | None => [] end)
  | Settles i now =>
      match snd st !! i with
      | Some p => (settleAction now p (fst st), delete i (snd st))
      | None => st
      end
  end.

Definition runEvents (es : list AppEvent) (st : AppState * list PendingAction)
  : AppState * list PendingAction :=
  fold_left (fun st e => stepEvent e st) es st.

End AsyncRun.

(** An event that is not an upload, a start-over or the opening of a
    gallery item. *)
Definition keepsOriginalEvent (e : AppEvent) : Prop :=
  match e with
  | Does a => keepsOriginal a = true
  | _ => True
  end.

(** What a run keeps: the index points into the history, the first entry
    is [o], and so it is for the history and the index of every action
    that waits. *)
Definition keepsFirst (o : option File) (st : AppState * list PendingAction) : Prop :=
  (0 <= historyIndex (fst st) < len (history (fst st))
   /\ originalImage (fst st) = o)
  /\ Forall (fun p => 0 <= closureIndex p < len (closureHistory p)
                      /\ at_index (closureHistory p) 0 = o) (snd st).

(** * Properties of the history engine *)

Lemma len_nonneg {A} (a : list A) : 0 <= len a.
Proof. unfold len. lia. Qed.

Lemma len_app {A} (a b : list A) : len (a ++ b) = len a + len b.
Proof. unfold len. rewrite length_app. lia. Qed.

Lemma slice0_in_range {A} (a : list A) (e : Z) :
  0 <= e <= len a -> slice0 a e = take (Z.to_nat e) a.
Proof.
  intros He. unfold slice0.
  destruct (e <? 0) eqn:Hneg; [apply Z.ltb_lt in Hneg; lia|].
  by rewrite Z.min_l by lia.
Qed.

Lemma len_slice0 {A} (a : list A) (e : Z) :
  0 <= e <= len a -> len (slice0 a e) = e.
Proof.
  intros He. rewrite slice0_in_range by done.
  unfold len in *. rewrite length_take. lia.
Qed.

Lemma addImageToHistory_valid m s :
  validStack s -> validStack (addImageToHistory m s).
Proof.
  unfold validStack. intros Hs. cbn.
  rewrite len_app, len_slice0 by lia. unfold len; cbn. lia.
Qed.

Lemma handleUndo_valid s : validStack s -> validStack (handleUndo s).
Proof.
  unfold validStack, handleUndo, canUndo. intros Hs.
  destruct (0 <? historyIndex s) eqn:Hc; cbn; [apply Z.ltb_lt in Hc|]; lia.
Qed.

Lemma handleRedo_valid s : validStack s -> validStack (handleRedo s).
Proof.
  unfold validStack, handleRedo, canRedo. intros Hs.
  destruct (historyIndex s <? len (history s) - 1) eqn:Hc; cbn;
    [apply Z.ltb_lt in Hc|]; lia.
Qed.

Lemma applyOp_valid o s : validStack s -> validStack (applyOp o s).
Proof.
  destruct o; cbn;
    auto using addImageToHistory_valid, handleUndo_valid, handleRedo_valid.
Qed.

(** C1. Starting from a valid stack, after any sequence of append, undo and
    redo the index is in [-1, length-1] and the length is not negative. *)
Theorem runOps_index_in_range (ops : list HistoryOp) (s : AppState) :
  validStack s ->
  -1 <= historyIndex (runOps ops s) <= len (history (runOps ops s)) - 1
  /\ 0 <= len (history (runOps ops s)).
Proof.
  intros Hs. split; [|apply len_nonneg].
  revert s Hs. induction ops as [|o ops IH]; intros s Hs; [exact Hs|].
  cbn. apply IH. by apply applyOp_valid.
Qed.

Lemma runOps_index_in_range_witness :
  let s := runOps [OpAppend pngA; OpAppend pngB; OpUndo; OpAppend pngC; OpRedo]
                  (initialApp [] (-1)) in
  -1 <= historyIndex s <= len (history s) - 1 /\ 0 <= len (history s).
Proof.
  apply (runOps_index_in_range _ (initialApp [] (-1))).
  unfold validStack, len; simpl; lia.
Defined.

(** C2. On a valid stack, append keeps the entries at positions
    [0..currentIndex], puts the new media after them and moves the index to
    the last position; from [A,B] at index 0, appending C gives [A,C] at
    index 1, and B is not in the stack any more. *)
Theorem addImageToHistory_truncates_then_appends (s : AppState) (m : File) :
  validStack s ->
  history (addImageToHistory m s)
    = take (Z.to_nat (historyIndex s + 1)) (history s) ++ [m]
  /\ historyIndex (addImageToHistory m s)
    = len (history (addImageToHistory m s)) - 1
  /\ (forall A B : File,
        history s = [A; B] -> historyIndex s = 0 ->
        history (addImageToHistory m s) = [A; m]
        /\ historyIndex (addImageToHistory m s) = 1
        /\ (B <> A -> B <> m -> B ∉ history (addImageToHistory m s))).
Proof.
  intros Hs. unfold validStack in Hs.
  assert (Hh : history (addImageToHistory m s)
               = take (Z.to_nat (historyIndex s + 1)) (history s) ++ [m]).
  { unfold addImageToHistory. cbn [history setHistory setHistoryIndex setCrop
      setCompletedCrop]. f_equal. apply slice0_in_range. lia. }
  split; [exact Hh|]. split; [reflexivity|].
  intros A B HAB Hi.
  assert (Hi' : historyIndex (addImageToHistory m s) = 1).
  { change (len (history (addImageToHistory m s)) - 1 = 1).
    rewrite Hh, HAB, Hi. reflexivity. }
  rewrite Hh, HAB, Hi. cbn [Z.add Z.to_nat Pos.to_nat Pos.iter_op Nat.add take app].
  split; [reflexivity|]. split; [exact Hi'|].
  intros HA Hm Hin. apply elem_of_cons in Hin as [->|Hin]; [done|].
  apply elem_of_cons in Hin as [->|Hin]; [done|].
  by apply elem_of_nil in Hin.
Qed.

Lemma addImageToHistory_truncates_then_appends_witness :
  let s := initialApp [pngA; pngB] 0 in
  history (addImageToHistory pngC s) = [pngA; pngC]
  /\ historyIndex (addImageToHistory pngC s) = 1
  /\ pngB ∉ history (addImageToHistory pngC s).
Proof.
  intros s.
  destruct (addImageToHistory_truncates_then_appends s pngC) as (_ & _ & H).
  { unfold validStack, len; simpl; lia. }
  destruct (H pngA pngB eq_refl eq_refl) as (H1 & H2 & H3).
  split; [exact H1|]. split; [exact H2|].
  apply H3; discriminate.
Defined.

(** C5. Undo changes nothing unless the index is above 0, and then it lowers
    the index by one and keeps the sequence; redo changes nothing unless the
    index is below length-1, and then it raises the index by one and keeps
    the sequence. *)
Theorem handleUndo_handleRedo_spec (s : AppState) :
  (~ 0 < historyIndex s -> handleUndo s = s)
  /\ (0 < historyIndex s ->
        history (handleUndo s) = history s
        /\ historyIndex (handleUndo s) = historyIndex s - 1)
  /\ (~ historyIndex s < len (history s) - 1 -> handleRedo s = s)
  /\ (historyIndex s < len (history s) - 1 ->
        history (handleRedo s) = history s
        /\ historyIndex (handleRedo s) = historyIndex s + 1).
Proof.
  unfold handleUndo, handleRedo, canUndo, canRedo.
  destruct (Z.ltb_spec 0 (historyIndex s));
    destruct (Z.ltb_spec (historyIndex s) (len (history s) - 1));
    cbn; repeat split; intros; try reflexivity; lia.
Qed.

Lemma handleUndo_handleRedo_spec_witness :
  let s := initialApp [pngA; pngB] 1 in
  historyIndex (handleUndo s) = 0
  /\ handleRedo s = s
  /\ handleUndo (handleUndo s) = handleUndo s
  /\ historyIndex (handleRedo (handleUndo s)) = 1.
Proof.
  intros s.
  destruct (handleUndo_handleRedo_spec s) as (_ & Hu & Hr & _).
  destruct (handleUndo_handleRedo_spec (handleUndo s)) as (Hu0 & _ & _ & Hr0).
  split; [apply Hu; simpl; lia|].
  split; [apply Hr; unfold len; simpl; lia|].
  split; [apply Hu0; simpl; lia|].
  apply Hr0; unfold len; simpl; lia.
Defined.

(** * Properties of the media codec *)

(** Induction on a list, three elements at a time. *)
Lemma list_ind3 {A} (P : list A -> Prop) :
  P [] -> (forall a, P [a]) -> (forall a b, P [a; b]) ->
  (forall a b c l, P l -> P (a :: b :: c :: l)) ->
  forall l, P l.
Proof.
  intros H0 H1 H2 H3.
  assert (H : forall l, P l /\ (forall a, P (a :: l)) /\ (forall a b, P (a :: b :: l))).
  { induction l as [|x l (IH0 & IH1 & IH2)]; [by auto|].
    split; [apply IH1|]. split; [intros a; apply IH2|].
    intros a b. by apply H3. }
  intros l. apply H.
Qed.

Section Base64.

Local Open Scope N_scope.

Lemma byteN_bounded b : byteN b < 256.
Proof. unfold byteN. pose proof (Byte.to_N_bounded b). lia. Qed.

Lemma below_64 (P : N -> bool) :
  forallb P (List.map N.of_nat (seq 0 64)) = true ->
  forall i, i < 64 -> P i = true.
Proof.
  intros Hall i Hi. rewrite forallb_forall in Hall. apply Hall.
  rewrite <- (N2Nat.id i). apply in_map, in_seq. lia.
Qed.

Lemma b64val_b64char i : i < 64 -> b64val (b64char i) = Some i.
Proof.
  intros Hi.
  pose proof (below_64
    (fun i => match b64val (b64char i) with
              | Some j => i =? j
              | None => false
              end) eq_refl i Hi) as H.
  cbv beta in H. destruct (b64val (b64char i)); [|done].
  apply N.eqb_eq in H. by subst.
Qed.

Lemma b64char_plain i :
  i < 64 ->
  isAsciiWhitespace (b64char i) = false
  /\ Ascii.eqb (b64char i) "=" = false
  /\ Ascii.eqb (b64char i) "," = false.
Proof.
  intros Hi.
  pose proof (below_64
    (fun i => negb (isAsciiWhitespace (b64char i))
              && negb (Ascii.eqb (b64char i) "=")
              && negb (Ascii.eqb (b64char i) ",")) eq_refl i Hi) as H.
  cbv beta in H. repeat (apply andb_prop in H as [H ?]).
  repeat split; by apply negb_true_iff.
Qed.

Lemma sextetsOf_bounded bs : Forall (fun i => i < 64) (sextetsOf bs).
Proof.
  induction bs as [|a|a b|a b c l IH] using list_ind3; cbn [sextetsOf].
  - constructor.
  - pose proof (byteN_bounded a). repeat constructor; lia_div.
  - pose proof (byteN_bounded a). pose proof (byteN_bounded b).
    repeat constructor; lia_div.
  - pose proof (byteN_bounded a). pose proof (byteN_bounded b).
    pose proof (byteN_bounded c).
    repeat (constructor; [lia_div|]). exact IH.
Qed.

Lemma base64Encode_chars bs :
  list_ascii_of_string (base64Encode bs)
  = (List.map b64char (sextetsOf bs) ++ paddingOf bs)%list.
Proof.
  induction bs as [|a|a b|a b c l IH] using list_ind3;
    cbn [base64Encode sextetsOf paddingOf List.map list_ascii_of_string app];
    try reflexivity.
  by rewrite IH.
Qed.

Lemma decodeSextets_sextetsOf bs :
  decodeSextets (sextetsOf bs) = List.map ascii_of_byte bs.
Proof.
  induction bs as [|a|a b|a b c l IH] using list_ind3;
    cbn [decodeSextets sextetsOf List.map]; [reflexivity|..].
  - pose proof (byteN_bounded a).
    rewrite ascii_of_byte_via_N. fold (byteN a).
    do 2 f_equal. lia_div.
  - pose proof (byteN_bounded a). pose proof (byteN_bounded b).
    rewrite !ascii_of_byte_via_N. fold (byteN a) (byteN b).
    f_equal; [f_equal; lia_div|]. f_equal. f_equal. lia_div.
  - pose proof (byteN_bounded a). pose proof (byteN_bounded b).
    pose proof (byteN_bounded c).
    rewrite !ascii_of_byte_via_N, IH. fold (byteN a) (byteN b) (byteN c).
    f_equal; [f_equal; lia_div|]. f_equal; [f_equal; lia_div|].
    f_equal. f_equal. lia_div.
Qed.

End Base64.

Lemma stripPadding_encoded (l pad : list ascii) :
  Forall (fun c => Ascii.eqb c "=" = false) l ->
  pad = [] \/ pad = ["="%char] \/ pad = ["="%char; "="%char] ->
  stripPadding (l ++ pad) = l.
Proof.
  intros Hl Hpad.
  assert (Hhead : forall c r, rev l = c :: r -> Ascii.eqb c "=" = false).
  { intros c r Hr. rewrite Forall_forall in Hl. apply Hl.
    apply list_elem_of_In, in_rev. rewrite Hr. by left. }
  unfold stripPadding.
  destruct Hpad as [->|[->| ->]]; rewrite rev_app_distr; cbn [rev app].
  - rewrite app_nil_r. destruct (rev l) as [|c r] eqn:Hr; [done|].
    by rewrite (Hhead c r eq_refl).
  - cbn. destruct (rev l) as [|c r] eqn:Hr.
    + by rewrite <- (rev_involutive l), Hr.
    + rewrite (Hhead c r eq_refl), <- Hr. apply rev_involutive.
  - cbn. apply rev_involutive.
Qed.

Lemma mapM_b64val_b64char (l : list N) :
  Forall (fun i => (i < 64)%N) l ->
  mapM b64val (List.map b64char l) = Some l.
Proof.
  induction 1 as [|i l Hi _ IH]; [done|]. cbn [List.map].
  rewrite mapM_Some. constructor; [by apply b64val_b64char|].
  by apply mapM_Some.
Qed.

Lemma length_sextetsOf bs :
  exists k r : nat,
    length (sextetsOf bs) = (4 * k + r)%nat
    /\ (r = 0 \/ r = 2 \/ r = 3)%nat
    /\ (length (sextetsOf bs) + length (paddingOf bs) = 4 * (k + Nat.min r 1))%nat.
Proof.
  induction bs as [|a|a b|a b c l (k & r & H1 & H2 & H3)] using list_ind3.
  - exists 0%nat, 0%nat. cbn. lia.
  - exists 0%nat, 2%nat. cbn. lia.
  - exists 0%nat, 3%nat. cbn. lia.
  - exists (S k), r. cbn [sextetsOf paddingOf length] in *. lia.
Qed.

(** Decoding the base64 text of a byte sequence gives the binary string of
    the same bytes. *)
Lemma atob_base64Encode bs :
  atob (base64Encode bs)
  = Some (string_of_list_ascii (List.map ascii_of_byte bs)).
Proof.
  unfold atob. rewrite base64Encode_chars.
  pose proof (sextetsOf_bounded bs) as Hb.
  assert (Hpad : paddingOf bs = [] \/ paddingOf bs = ["="%char]
                 \/ paddingOf bs = ["="%char; "="%char]).
  { clear Hb. induction bs using list_ind3; cbn [paddingOf]; auto. }
  assert (Hplain : Forall (fun c => isAsciiWhitespace c = false
                                    /\ Ascii.eqb c "=" = false)
                          (List.map b64char (sextetsOf bs))).
  { apply Forall_forall. intros c Hc.
    apply list_elem_of_In, in_map_iff in Hc as (i & <- & Hi).
    rewrite Forall_forall in Hb.
    destruct (b64char_plain i) as (? & ? & ?); [|done].
    by apply Hb, list_elem_of_In. }
  rewrite List.forallb_filter_id.
  2:{ rewrite forallb_app. apply andb_true_intro; split.
      - apply forallb_forall. intros c Hc. rewrite Forall_forall in Hplain.
        apply list_elem_of_In, Hplain in Hc as [-> _]. done.
      - destruct Hpad as [->|[->| ->]]; reflexivity. }
  destruct (length_sextetsOf bs) as (k & r & H1 & H2 & H3).
  rewrite length_app, length_map, H3.
  replace (4 * (k + Nat.min r 1))%nat with ((k + Nat.min r 1) * 4)%nat by lia.
  rewrite Nat.Div0.mod_mul. cbn [Nat.eqb].
  rewrite stripPadding_encoded; [|by eapply Forall_impl; [exact Hplain|intros ? [_ ?]]|done].
  rewrite length_map, H1.
  replace (4 * k + r)%nat with (r + k * 4)%nat by lia.
  rewrite Nat.Div0.mod_add.
  replace ((r mod 4) =? 1)%nat with false
    by (by destruct H2 as [->|[->| ->]]).
  by rewrite mapM_b64val_b64char, decodeSextets_sextetsOf.
Qed.

Lemma string_forall_chars (p : ascii -> bool) (s : string) :
  string_forall p s = forallb p (list_ascii_of_string s).
Proof. induction s as [|c s IH]; [done|]. cbn. by rewrite IH. Qed.

Lemma string_forall_impl (p q : ascii -> bool) (s : string) :
  (forall c, p c = true -> q c = true) ->
  string_forall p s = true -> string_forall q s = true.
Proof.
  intros Hpq. induction s as [|c s IH]; [done|]. cbn.
  intros [Hc Hs]%andb_prop. by rewrite (Hpq c Hc), IH.
Qed.

Lemma append_empty_l (s : string) : "" +:+ s = s.
Proof. reflexivity. Qed.

Lemma append_String_l (c : ascii) (a b : string) :
  String c a +:+ b = String c (a +:+ b).
Proof. reflexivity. Qed.

Lemma split_without (sep : ascii) (s : string) :
  string_forall (notChar sep) s = true -> split sep s = [s].
Proof.
  induction s as [|c s IH]; [done|]. cbn [split string_forall].
  unfold notChar at 1.
  intros [Hc Hs]%andb_prop. apply negb_true_iff in Hc.
  by rewrite Hc, (IH Hs).
Qed.

Lemma split_at_first (sep : ascii) (a b : string) :
  string_forall (notChar sep) a = true ->
  split sep (a +:+ String sep b) = a :: split sep b.
Proof.
  induction a as [|c a IH];
    rewrite ?append_empty_l, ?append_String_l; cbn [split string_forall].
  - intros _. by rewrite Ascii.eqb_refl.
  - unfold notChar at 1. intros [Hc Ha]%andb_prop.
    apply negb_true_iff in Hc. by rewrite Hc, (IH Ha).
Qed.

Lemma lazyDotThenSemicolon_stops (g rest : string) :
  string_forall (fun c => notChar ";" c && negb (isLineTerminator c)) g = true ->
  lazyDotThenSemicolon (g +:+ String ";" rest) = Some g.
Proof.
  induction g as [|c g IH];
    rewrite ?append_empty_l, ?append_String_l;
    cbn [lazyDotThenSemicolon string_forall];
    [by rewrite Ascii.eqb_refl|].
  unfold notChar at 1.
  intros [[Hc Hl]%andb_prop Hg]%andb_prop.
  apply negb_true_iff in Hc, Hl. by rewrite Hc, Hl, (IH Hg).
Qed.

Lemma get_string_of_list_ascii (l : list ascii) (i : nat) :
  String.get i (string_of_list_ascii l) = l !! i.
Proof.
  revert i. induction l as [|c l IH]; intros [|i]; cbn; auto.
Qed.

Lemma length_string_of_list_ascii (l : list ascii) :
  String.length (string_of_list_ascii l) = length l.
Proof. induction l as [|c l IH]; cbn; auto. Qed.

(** The loop writes positions [n-1] down to [0] and leaves the rest. *)
Lemma fillBytes_lookup (bstr : string) (n : nat) (u8arr : list byte) (i : nat) :
  (n <= length u8arr)%nat ->
  fillBytes bstr n u8arr !! i
  = if decide (i < n)%nat then Some (toUint8 (charCodeAt bstr i))
    else u8arr !! i.
Proof.
  revert u8arr. induction n as [|n IH]; intros u8arr Hn; cbn [fillBytes].
  - by rewrite decide_False by lia.
  - rewrite IH by (rewrite length_insert; lia).
    destruct (decide (i < n)%nat).
    + by rewrite decide_True by lia.
    + destruct (decide (i = n)) as [->|Hne].
      * rewrite decide_True by lia. apply list_lookup_insert_eq. lia.
      * rewrite decide_False by lia. by apply list_lookup_insert_ne.
Qed.

Lemma fillBytes_binary_string (bs : list byte) :
  let bstr := string_of_list_ascii (List.map ascii_of_byte bs) in
  fillBytes bstr (String.length bstr) (replicate (String.length bstr) x00) = bs.
Proof.
  intros bstr.
  assert (Hlen : String.length bstr = length bs).
  { unfold bstr. by rewrite length_string_of_list_ascii, length_map. }
  apply list_eq. intros i.
  rewrite fillBytes_lookup by (rewrite length_replicate; lia).
  rewrite Hlen. destruct (decide (i < length bs)%nat) as [Hi|Hi].
  - destruct (lookup_lt_is_Some_2 bs i Hi) as [b Hb]. rewrite Hb. f_equal.
    unfold charCodeAt, bstr. rewrite get_string_of_list_ascii.
    change (List.map ascii_of_byte bs) with (ascii_of_byte <$> bs).
    rewrite list_lookup_fmap, Hb. cbn.
    unfold toUint8, code. by rewrite ascii_N_embedding, byte_of_ascii_of_byte.
  - transitivity (@None byte).
    + apply lookup_replicate_None. lia.
    + symmetry. apply lookup_ge_None. lia.
Qed.

Lemma asciiLower_plain (c : ascii) : isUpper c = false -> asciiLower c = c.
Proof. unfold asciiLower, isUpper. by intros ->. Qed.

Lemma normalizeType_plain (t : string) :
  string_forall plainTypeChar t = true -> normalizeType t = t.
Proof.
  intros Ht. unfold normalizeType.
  rewrite (string_forall_impl plainTypeChar isPrintable t); [|
    by unfold plainTypeChar; intros c [[[? _]%andb_prop _]%andb_prop _]%andb_prop|done].
  induction t as [|c t IH]; [done|]. cbn in *.
  apply andb_prop in Ht as [Hc Ht]. rewrite (IH Ht). f_equal.
  apply asciiLower_plain. unfold plainTypeChar in Hc.
  apply andb_prop in Hc as [[[_ Hu]%andb_prop _]%andb_prop _].
  by apply negb_true_iff.
Qed.

Lemma plainTypeChar_header (c : ascii) :
  plainTypeChar c = true ->
  notChar "," c = true
  /\ (notChar ";" c && negb (isLineTerminator c)) = true.
Proof.
  unfold plainTypeChar, notChar.
  intros [[[Hp _]%andb_prop Hs]%andb_prop Hc]%andb_prop.
  split; [done|]. rewrite Hs. cbn. apply negb_true_iff.
  unfold isPrintable, isLineTerminator in *.
  apply andb_prop in Hp as [Hlo _]. apply N.leb_le in Hlo.
  apply orb_false_intro; apply N.eqb_neq; lia.
Qed.

Lemma append_assoc_string (a b c : string) : (a +:+ b) +:+ c = a +:+ (b +:+ c).
Proof.
  induction a as [|x a IH]; [done|]. by rewrite !append_String_l, IH.
Qed.

Lemma string_forall_append (p : ascii -> bool) (a b : string) :
  string_forall p (a +:+ b) = string_forall p a && string_forall p b.
Proof.
  induction a as [|x a IH]; [done|].
  rewrite append_String_l. cbn [string_forall]. by rewrite IH, andb_assoc.
Qed.

Lemma base64Encode_no_comma bs :
  string_forall (notChar ",") (base64Encode bs) = true.
Proof.
  rewrite string_forall_chars, base64Encode_chars, forallb_app.
  apply andb_true_intro; split.
  - apply forallb_forall. intros c (i & <- & Hi)%in_map_iff.
    pose proof (sextetsOf_bounded bs) as Hb. rewrite Forall_forall in Hb.
    destruct (b64char_plain i) as (_ & _ & Hc); [by apply Hb, list_elem_of_In|].
    unfold notChar. by rewrite Hc.
  - induction bs using list_ind3; done.
Qed.

(** The header [data:<type>;base64] gives back the type. *)
Lemma matchMime_header (t : string) :
  string_forall plainTypeChar t = true ->
  matchMime ("data:" +:+ t +:+ ";base64") = Some t.
Proof.
  intros Ht.
  change (matchMime ("data:" +:+ t +:+ ";base64"))
    with (match lazyDotThenSemicolon (t +:+ String ";" "base64") with
          | Some g => Some g
          | None => matchMime (t +:+ String ";" "base64")
          end).
  rewrite lazyDotThenSemicolon_stops; [done|].
  eapply string_forall_impl; [|exact Ht].
  intros c Hc. by apply plainTypeChar_header.
Qed.

Lemma split_dataURL (t : string) (bs : list byte) :
  string_forall plainTypeChar t = true ->
  split "," ("data:" +:+ t +:+ ";base64," +:+ base64Encode bs)
  = ["data:" +:+ t +:+ ";base64"; base64Encode bs].
Proof.
  intros Ht.
  replace ("data:" +:+ t +:+ ";base64," +:+ base64Encode bs)
    with (("data:" +:+ t +:+ ";base64") +:+ String "," (base64Encode bs)).
  2:{ rewrite !append_assoc_string. do 2 f_equal. }
  rewrite split_at_first.
  - by rewrite split_without by apply base64Encode_no_comma.
  - rewrite !string_forall_append. apply andb_true_intro; split; [done|].
    apply andb_true_intro; split; [|done].
    eapply string_forall_impl; [|exact Ht].
    intros c Hc. by apply plainTypeChar_header.
Qed.

(** C4. Decoding the encoded string of a media object gives a media object
    with the same MIME type and the same bytes, for [image/png], for
    [video/mp4] and for every type that is not empty, is printable and in
    lower case, and has no [;] and no [,]. *)
Theorem codec_round_trip (m : File) (filename : string) :
  file_type m = "image/png" \/ file_type m = "video/mp4"
  \/ plainMimeType (file_type m) = true ->
  exists m' : File,
    dataURLtoFile (fileToDataURL m) filename = Ok m'
    /\ file_type m' = file_type m
    /\ file_bytes m' = file_bytes m.
Proof.
  intros Ht.
  assert (Hplain : plainMimeType (file_type m) = true).
  { destruct Ht as [->|[->|Ht]]; [reflexivity|reflexivity|exact Ht]. }
  clear Ht. destruct m as [nm t bs]. cbn [file_type file_bytes] in *.
  unfold plainMimeType in Hplain.
  apply andb_prop in Hplain as [Hne Ht]. apply negb_true_iff in Hne.
  exists (mkFile filename t bs). split; [|done].
  unfold dataURLtoFile, fileToDataURL, readAsDataURL. cbn [file_type file_bytes].
  rewrite Hne, (split_dataURL t bs Ht).
  cbn [length Nat.ltb Nat.leb nth]. rewrite (matchMime_header t Ht).
  destruct t as [|c t]; [discriminate|].
  rewrite atob_base64Encode, fillBytes_binary_string.
  unfold newFile. by rewrite normalizeType_plain.
Qed.

Lemma codec_round_trip_witness :
  exists m' : File,
    dataURLtoFile (fileToDataURL pngA) "restored.png" = Ok m'
    /\ file_type m' = "image/png"
    /\ file_bytes m' = [x89; x50; x4e; x47].
Proof.
  apply (codec_round_trip pngA "restored.png"). left. reflexivity.
Defined.

Example mp4_decodes_to_itself :
  dataURLtoFile
    (fileToDataURL (mkFile "clip.mp4" "video/mp4" [x00; x00; x00; x18; x66]))
    "clip.mp4"
  = Ok (mkFile "clip.mp4" "video/mp4" [x00; x00; x00; x18; x66]).
Proof. reflexivity. Qed.

(** * Properties of the persistence of the history *)

Lemma keys_differ : HISTORY_KEY <> INDEX_KEY.
Proof. discriminate. Qed.

Lemma removed_both (ls : Storage) :
  let ls' := ls |> removeItem HISTORY_KEY |> removeItem INDEX_KEY in
  getItem HISTORY_KEY ls' = None /\ getItem INDEX_KEY ls' = None.
Proof.
  unfold getItem, removeItem. split.
  - rewrite lookup_delete_ne by (symmetry; apply keys_differ).
    apply lookup_delete_eq.
  - apply lookup_delete_eq.
Qed.

Lemma falsy_Some (s : string) : s <> "" -> falsy (Some s) = false.
Proof. intros Hs. cbn. by apply String.eqb_neq. Qed.

Lemma mapR_Throw {A B} (f : A -> Result B) (l : list A) :
  Exists (fun x => exists e, f x = Throw e) l -> exists e, mapR f l = Throw e.
Proof.
  induction 1 as [x l [e He]|x l _ [e IH]]; cbn [mapR].
  - rewrite He. by exists e.
  - destruct (f x) as [y|e']; cbn [bindR]; [|by exists e'].
    rewrite IH. by exists e.
Qed.

Lemma restoreHistory_corrupted (historyJSON indexStr : string) :
  corruptedHistory historyJSON ->
  exists e, restoreHistory historyJSON indexStr = Throw e.
Proof.
  unfold restoreHistory. intros [->|(items & -> & Hbad)]; cbn [bindR].
  - eauto.
  - destruct (mapR_Throw restoreEntry items Hbad) as [e He].
    cbn [arrayMap]. rewrite He. by exists e.
Qed.

(** C3 (amended). When both keys hold a non-empty string and the stored
    history is not JSON or has an entry that does not decode, the restore
    deletes both keys and gives the empty stack; when a key is absent or
    holds the empty string, the restore gives the empty stack and leaves the
    storage as it is. The restore is a total function: no exception leaves
    it. *)
Theorem loadInitialState_corrupted (ls : Storage) :
  (falsy (getItem HISTORY_KEY ls) || falsy (getItem INDEX_KEY ls) = true ->
     loadInitialState ls = (([], -1), ls))
  /\ (forall historyJSON indexStr : string,
        getItem HISTORY_KEY ls = Some historyJSON ->
        getItem INDEX_KEY ls = Some indexStr ->
        historyJSON <> "" -> indexStr <> "" ->
        corruptedHistory historyJSON ->
        fst (loadInitialState ls) = ([], -1)
        /\ snd (loadInitialState ls)
           = (ls |> removeItem HISTORY_KEY |> removeItem INDEX_KEY)
        /\ getItem HISTORY_KEY (snd (loadInitialState ls)) = None
        /\ getItem INDEX_KEY (snd (loadInitialState ls)) = None).
Proof.
  split.
  - intros Hf. unfold loadInitialState. by rewrite Hf.
  - intros historyJSON indexStr Hh Hi Hhne Hine Hbad.
    assert (Hload : loadInitialState ls
              = (([], -1), ls |> removeItem HISTORY_KEY |> removeItem INDEX_KEY)).
    { unfold loadInitialState. rewrite Hh, Hi, !falsy_Some by done.
      cbn -[restoreHistory].
      destruct (restoreHistory_corrupted historyJSON indexStr Hbad) as [e ->].
      done. }
    rewrite Hload. cbn [fst snd].
    destruct (removed_both ls) as [H1 H2]. done.
Qed.

Lemma loadInitialState_corrupted_witness :
  let ls : Storage :=
    {[ HISTORY_KEY := prefixlessHistoryJSON; INDEX_KEY := "0" ]} in
  fst (loadInitialState ls) = ([], -1)
  /\ getItem HISTORY_KEY (snd (loadInitialState ls)) = None
  /\ getItem INDEX_KEY (snd (loadInitialState ls)) = None.
Proof.
  intros ls.
  destruct (loadInitialState_corrupted ls) as [_ H].
  destruct (H prefixlessHistoryJSON "0") as (H1 & _ & H2 & H3);
    [reflexivity|reflexivity|discriminate|discriminate| |by repeat split].
  right. eexists. split; [reflexivity|].
  apply Exists_cons_hd. eexists. reflexivity.
Defined.

(** C3, as stated, fails: with a truncated history under its key and no
    index key, the restore gives the empty stack and the history key keeps
    its corrupted value. *)
Lemma loadInitialState_keeps_corrupted_history :
  let ls : Storage := {[ HISTORY_KEY := truncatedHistoryJSON ]} in
  JSON_parse truncatedHistoryJSON = None
  /\ fst (loadInitialState ls) = ([], -1)
  /\ getItem HISTORY_KEY (snd (loadInitialState ls)) = Some truncatedHistoryJSON.
Proof. repeat split; reflexivity. Qed.

Lemma validateIndex_in_range (i : Z) (files : list File) :
  0 <= i <= len files - 1 -> validateIndex (Some i) files = i.
Proof.
  intros Hi. unfold validateIndex.
  destruct (Z.ltb_spec i 0); [lia|].
  destruct (Z.leb_spec (len files) i); [lia|]. done.
Qed.





Lemma saveStateBegin_clears (s : AppState) (ls : Storage) :
  history s = [] \/ historyIndex s < 0 ->
  saveStateBegin s ls
  = (ls |> removeItem HISTORY_KEY |> removeItem INDEX_KEY, None).
Proof.
  intros Hs. unfold saveStateBegin.
  destruct (Z.ltb_spec 0 (len (history s)));
    destruct (Z.leb_spec 0 (historyIndex s)); cbn [andb]; try done.
  destruct Hs as [Hnil|Hneg]; [|lia].
  rewrite Hnil in *. unfold len in *. cbn [length] in *. lia.
Qed.

Lemma runSaves_nothing_pending (accepts : Quota) (es : list SaveEvent)
    (ls : Storage) :
  Forall isLanding es -> runSaves accepts es (ls, []) = (ls, []).
Proof.
  induction 1 as [|e es He _ IH]; [done|].
  destruct e as [s|k]; [done|]. cbn. exact IH.
Qed.

(** C10 (amended). When the history is empty or the index is below 0, the
    persistence step removes both keys at once and begins no write, and the
    restore from the storage it leaves gives the empty stack; the state
    after "start over" is such a state. The step leaves the saves that are
    still reading their files pending; when none is pending, nothing lands
    afterwards and the storage stays as the step left it. *)
Theorem saveState_clears_empty_history
    (accepts : Quota) (s : AppState) (ls : Storage) :
  history s = [] \/ historyIndex s < 0 ->
  let cleared := ls |> removeItem HISTORY_KEY |> removeItem INDEX_KEY in
  saveStateBegin s ls = (cleared, None)
  /\ saveState accepts s ls = cleared
  /\ getItem HISTORY_KEY cleared = None
  /\ getItem INDEX_KEY cleared = None
  /\ loadInitialState cleared = (([], -1), cleared)
  /\ (forall pendings,
        saveStep accepts (EffectRuns s) (ls, pendings) = (cleared, pendings))
  /\ (forall es, Forall isLanding es ->
        runSaves accepts (EffectRuns s :: es) (ls, []) = (cleared, []))
  /\ (forall (mode : StartMode) (s0 : AppState),
        saveState accepts (handleUploadNew mode s0) ls = cleared).
Proof.
  intros Hs cleared.
  pose proof (saveStateBegin_clears s ls Hs) as Hbegin. fold cleared in Hbegin.
  destruct (removed_both ls) as [H1 H2]. cbv zeta in H1, H2.
  fold cleared in H1, H2.
  split; [exact Hbegin|].
  split; [unfold saveState; by rewrite Hbegin|].
  split; [exact H1|]. split; [exact H2|]. split; [|split; [|split]].
  - unfold loadInitialState. by rewrite H1.
  - intros pendings. cbn [saveStep fst snd]. rewrite Hbegin.
    by rewrite app_nil_r.
  - intros es Hes. cbn [runSaves fold_left saveStep fst snd]. rewrite Hbegin.
    cbn [app]. by apply runSaves_nothing_pending.
  - intros mode s0. unfold saveState.
    by rewrite (saveStateBegin_clears (handleUploadNew mode s0) ls) by by left.
Qed.

Lemma saveState_clears_empty_history_witness :
  let ls := saveState unbounded (initialApp [pngA; pngB] 1) ∅ in
  let s := handleUploadNew upload_mode (initialApp [pngA; pngB] 1) in
  fst (loadInitialState ls) = ([pngA; pngB], 1)
  /\ getItem HISTORY_KEY (saveState unbounded s ls) = None
  /\ getItem INDEX_KEY (saveState unbounded s ls) = None
  /\ fst (loadInitialState (saveState unbounded s ls)) = ([], -1).
Proof.
  intros ls s.
  destruct (saveState_clears_empty_history unbounded s ls)
    as (_ & Hclear & H1 & H2 & H3 & _).
  { left. reflexivity. }
  rewrite Hclear.
  split; [reflexivity|]. split; [exact H1|]. split; [exact H2|].
  by rewrite H3.
Defined.

(** C10, as stated, fails: the save of a history of two files is still
    reading them when "start over" empties the history and the persistence
    step removes the keys; the write of that save lands afterwards, and the
    next start restores the two files instead of the empty stack. *)
Lemma stale_save_lands_after_clear :
  let s := initialApp [pngA; pngB] 1 in
  let events := [EffectRuns s; EffectRuns (handleUploadNew upload_mode s);
                 WriteLands 0] in
  history (handleUploadNew upload_mode s) = []
  /\ snd (runSaves unbounded events (∅, [])) = []
  /\ fst (loadInitialState (fst (runSaves unbounded events (∅, []))))
     = ([pngA; pngB], 1).
Proof. repeat split; reflexivity. Qed.

(** * Properties of the gallery store *)

Section Sorting.

Context {A : Type} (cmp : A -> A -> Z).

Lemma insertSorted_perm (x : A) (l : list A) :
  insertSorted cmp x l ≡ₚ x :: l.
Proof.
  induction l as [|y l IH]; cbn [insertSorted]; [done|].
  destruct (0 <? cmp x y); [|done].
  rewrite IH. apply Permutation_swap.
Qed.

Lemma arraySort_perm (l : list A) : arraySort cmp l ≡ₚ l.
Proof.
  induction l as [|x l IH]; cbn; [done|].
  unfold arraySort in IH. by rewrite insertSorted_perm, IH.
Qed.

End Sorting.

Lemma listedBefore_insert (x : SavedItem) (l : list SavedItem) :
  StronglySorted listedBefore l ->
  Forall (fun y => id x < id y) l ->
  StronglySorted listedBefore
    (insertSorted (fun a b => createdAt b - createdAt a) x l).
Proof.
  induction 1 as [|y l Hl IH Hy]; intros Hx; cbn [insertSorted].
  - repeat constructor.
  - apply Forall_cons in Hx as [Hxy Hx].
    destruct (Z.ltb_spec 0 (createdAt y - createdAt x)) as [Hlt|Hge].
    + constructor; [by apply IH|].
      rewrite insertSorted_perm. constructor; [|done].
      left. lia.
    + assert (Hfirst : listedBefore x y) by (unfold listedBefore; lia).
      constructor; [by constructor|]. constructor; [done|].
      rewrite Forall_forall in Hy, Hx. apply Forall_forall. intros z Hz.
      specialize (Hy z Hz). specialize (Hx z Hz).
      unfold listedBefore in *. lia.
Qed.

Lemma arraySort_listedBefore (l : list SavedItem) :
  StronglySorted (fun a b => id a < id b) l ->
  StronglySorted listedBefore
    (arraySort (fun a b => createdAt b - createdAt a) l).
Proof.
  induction 1 as [|x l Hl IH Hx]; [constructor|].
  cbn. apply listedBefore_insert; [exact IH|].
  fold (arraySort (fun a b => createdAt b - createdAt a) l).
  by rewrite arraySort_perm.
Qed.

Lemma applyGalleryOp_ordered (o : GalleryOp) (db : ObjectStore) :
  storeOrdered db -> storeOrdered (applyGalleryOp o db).
Proof.
  intros [Hsorted Hbelow]. destruct o as [f now|key]; cbn; split; cbn.
  - induction Hsorted as [|r l Hl IH Hr]; cbn.
    + repeat constructor.
    + apply Forall_cons in Hbelow as [Hrk Hbelow].
      constructor; [by apply IH|].
      apply Forall_app. split; [done|]. by repeat constructor.
  - apply Forall_app. split.
    + eapply Forall_impl; [exact Hbelow|]. cbn. intros; lia.
    + repeat constructor. cbn. lia.
  - clear Hbelow. induction Hsorted as [|r l Hl IH Hr]; cbn; [constructor|].
    destruct (negb (id r =? key)); [|done].
    constructor; [done|].
    apply Forall_forall. intros z Hz%list_elem_of_In%filter_In.
    rewrite Forall_forall in Hr. apply Hr, list_elem_of_In, Hz.
  - apply Forall_forall. intros z Hz%list_elem_of_In%filter_In.
    rewrite Forall_forall in Hbelow. apply Hbelow, list_elem_of_In, Hz.
Qed.

Lemma runGallery_ordered (ops : list GalleryOp) (db : ObjectStore) :
  storeOrdered db -> storeOrdered (runGallery ops db).
Proof.
  revert db. induction ops as [|o ops IH]; intros db Hdb; [done|].
  cbn. by apply IH, applyGalleryOp_ordered.
Qed.

(** C7 (amended). In every state of the gallery store, the list read back
    has all the entries, later dates first, and entries of equal date in
    ascending order of id. *)
Theorem getAllItemsFromGallery_order (ops : list GalleryOp) :
  let db := runGallery ops emptyStore in
  getAllItemsFromGallery db ≡ₚ records db
  /\ StronglySorted listedBefore (getAllItemsFromGallery db).
Proof.
  intros db. unfold getAllItemsFromGallery, storeGetAll. split.
  - apply arraySort_perm.
  - apply arraySort_listedBefore.
    apply (runGallery_ordered ops emptyStore). split; constructor.
Qed.

(** C7, as stated, fails: two entries saved at the same date are listed
    with the smaller id first. *)
Lemma getAllItemsFromGallery_equal_dates_ascending_id :
  let db := runGallery [GallerySave pngA 1000; GallerySave pngB 1000;
                        GallerySave pngC 2000] emptyStore in
  List.map (fun r => (id r, createdAt r)) (getAllItemsFromGallery db)
  = [(3, 2000); (1, 1000); (2, 1000)].
Proof. reflexivity. Qed.

(** * Properties of the object URLs *)

Section ObjectUrlEffectFacts.

Context {Media : Type} `{EqDecision Media}.
Implicit Types (sl : EffectSlot Media) (e : EffectEvent Media).

Lemma slotConsistent_size sl : slotConsistent sl -> (size (liveUrls sl) <= 1)%nat.
Proof.
  intros [Hlive _]. rewrite Hlive. destruct (cleanup sl).
  - rewrite size_singleton. lia.
  - rewrite size_empty. lia.
Qed.

Lemma runCleanup_released sl :
  slotConsistent sl ->
  liveUrls (runCleanup sl) = ∅ /\ cleanup (runCleanup sl) = None
  /\ nextUrl (runCleanup sl) = nextUrl sl
  /\ lastDeps (runCleanup sl) = lastDeps sl.
Proof.
  intros [Hlive _]. unfold runCleanup.
  destruct (cleanup sl) as [url|] eqn:Hc; cbn; [|by rewrite Hc].
  rewrite Hlive. repeat split. apply difference_diag_L.
Qed.

Lemma no_cleanup_consistent sl :
  liveUrls sl = ∅ -> cleanup sl = None -> slotConsistent sl.
Proof. intros Hl Hc. split; rewrite Hc; [done|discriminate]. Qed.

Lemma runCleanup_consistent sl : slotConsistent sl -> slotConsistent (runCleanup sl).
Proof.
  intros Hsl. destruct (runCleanup_released sl Hsl) as (Hl & Hc & _).
  by apply no_cleanup_consistent.
Qed.

Lemma runEffect_bound (img : option Media) sl :
  liveUrls sl = ∅ -> cleanup sl = None ->
  slotConsistent (runEffect img sl)
  /\ liveUrls (runEffect img sl)
     = match img with Some _ => {[nextUrl sl]} | None => ∅ end.
Proof.
  intros Hl Hc. unfold runEffect.
  destruct img as [m|]; cbn [liveUrls]; rewrite Hl.
  - split; [|apply (left_id_L ∅ (∪))]. split; cbn; [apply (left_id_L ∅ (∪))|].
    intros url [= <-]. split; [lia|by exists m].
  - split; [|done]. by apply no_cleanup_consistent.
Qed.

Lemma effectSteps_consistent e sl :
  slotConsistent sl -> Forall slotConsistent (effectSteps e sl).
Proof.
  intros Hsl. destruct (runCleanup_released sl Hsl) as (Hl & Hc & _).
  destruct e as [img|]; cbn [effectSteps].
  - destruct (decide _); [constructor|].
    apply Forall_cons; split; [by apply runCleanup_consistent|].
    apply Forall_cons; split; [by apply runEffect_bound|constructor].
  - apply Forall_cons; split; [by apply no_cleanup_consistent|constructor].
Qed.

Lemma afterEvent_consistent e sl :
  slotConsistent sl -> slotConsistent (afterEvent e sl).
Proof.
  intros Hsl. pose proof (effectSteps_consistent e sl Hsl) as Hsteps.
  unfold afterEvent.
  destruct (last (sl :: effectSteps e sl)) as [sl'|] eqn:Hlast; [|done].
  apply last_Some in Hlast as [l' Hl']. change (slotConsistent sl').
  assert (Hall : Forall slotConsistent (sl :: effectSteps e sl))
    by by constructor.
  rewrite Hl' in Hall. apply Forall_app in Hall as [_ Hall].
  exact (Forall_inv Hall).
Qed.

Lemma effectTrace_consistent (es : list (EffectEvent Media)) sl :
  slotConsistent sl -> Forall slotConsistent (effectTrace es sl).
Proof.
  revert sl. induction es as [|e es IH]; intros sl Hsl; cbn [effectTrace].
  - by apply Forall_singleton.
  - apply Forall_cons; split; [done|]. apply Forall_app. split.
    + by apply effectSteps_consistent.
    + specialize (IH (afterEvent e sl) (afterEvent_consistent e sl Hsl)).
      destruct (effectTrace es (afterEvent e sl)); [done|].
      by apply Forall_cons in IH as [_ IH].
Qed.

Lemma mountSlot_consistent : slotConsistent (@mountSlot Media).
Proof. by apply no_cleanup_consistent. Qed.

(** A commit with another dependency: the URL of the new image, if there
    is an image, is the only live one. *)
Lemma commit_other_live sl (img : option Media) :
  slotConsistent sl -> lastDeps sl <> Some img ->
  liveUrls (afterEvent (Commit img) sl)
  = match img with Some _ => {[nextUrl sl]} | None => ∅ end.
Proof.
  intros Hsl Hdeps. unfold afterEvent. cbn [effectSteps].
  rewrite decide_False by done.
  change (liveUrls (runEffect img (runCleanup sl)) = match img with
                                                      | Some _ => {[nextUrl sl]}
                                                      | None => ∅
                                                      end).
  destruct (runCleanup_released sl Hsl) as (Hl & Hc & Hn & _).
  destruct (runEffect_bound img (runCleanup sl) Hl Hc) as [_ Hlive].
  by rewrite Hlive, Hn.
Qed.

(** A commit with the same dependency changes nothing. *)
Lemma commit_same sl (img : option Media) :
  lastDeps sl = Some img -> afterEvent (Commit img) sl = sl.
Proof.
  intros Hdeps. unfold afterEvent. cbn [effectSteps].
  by rewrite decide_True by done.
Qed.

End ObjectUrlEffectFacts.

(** C8. For each role, in every state that the effect of the role goes
    through over the renders of the component (and its unmount), at most
    one object URL is live; when an image is bound and a different one
    is committed, exactly one URL is live afterwards and it is not the
    previous one; and when the image of the role becomes absent, or the
    component unmounts, no URL is live afterwards. *)
Theorem role_has_at_most_one_live_url
    (r : Role) (renders : list AppState) (unmounts : bool)
    (sl : EffectSlot File) :
  sl ∈ effectTrace (roleEvents r renders unmounts) mountSlot ->
  (size (liveUrls sl) <= 1)%nat
  /\ (forall (old : nat) (s : AppState) (m : File),
        cleanup sl = Some old -> roleImage r s = Some m ->
        lastDeps sl <> Some (Some m) ->
        size (liveUrls (afterEvent (Commit (roleImage r s)) sl)) = 1%nat
        /\ old ∉ liveUrls (afterEvent (Commit (roleImage r s)) sl))
  /\ (forall s : AppState,
        roleImage r s = None ->
        liveUrls (afterEvent (Commit (roleImage r s)) sl) = ∅)
  /\ liveUrls (afterEvent Unmount sl) = ∅.
Proof.
  intros Hin.
  assert (Hsl : slotConsistent sl).
  { pose proof (effectTrace_consistent (roleEvents r renders unmounts)
                  mountSlot mountSlot_consistent) as Hall.
    rewrite Forall_forall in Hall. by apply Hall. }
  split; [by apply slotConsistent_size|]. split; [|split].
  - intros old s m Hold -> Hdeps.
    rewrite (commit_other_live sl (Some m) Hsl Hdeps).
    split; [apply size_singleton|].
    destruct Hsl as [_ Hlt]. destruct (Hlt old Hold) as [Hlt' _].
    intros ->%elem_of_singleton. lia.
  - intros s ->.
    destruct (decide (lastDeps sl = Some None)) as [Hsame|Hdiff].
    + rewrite (commit_same sl None Hsame).
      destruct Hsl as [Hlive Hrun]. rewrite Hlive.
      destruct (cleanup sl) as [url|]; [|done].
      destruct (Hrun url eq_refl) as [_ [m Hm]]. congruence.
    + by rewrite (commit_other_live sl None Hsl Hdiff).
  - unfold afterEvent. cbn.
    by destruct (runCleanup_released sl Hsl) as (-> & _).
Qed.

Lemma role_has_at_most_one_live_url_witness :
  let renders := [initialApp [] (-1); initialApp [pngA] 0;
                  initialApp [pngA; pngB] 1] in
  let sl : EffectSlot File := mkSlot {[1%nat]} 2 (Some (Some pngB)) (Some 1%nat) (Some 1%nat) in
  (size (liveUrls sl) <= 1)%nat
  /\ size (liveUrls (afterEvent
                       (Commit (roleImage CurrentRole (initialApp [pngA; pngB] 0)))
                       sl)) = 1%nat
  /\ liveUrls (afterEvent
                 (Commit (roleImage CurrentRole (initialApp [] (-1)))) sl) = ∅.
Proof.
  intros renders sl.
  destruct (role_has_at_most_one_live_url CurrentRole renders false sl)
    as (H1 & H2 & H3 & _).
  { unfold renders, sl. cbn.
    repeat (first [apply list_elem_of_here | apply list_elem_of_further]). }
  split; [exact H1|]. split.
  - destruct (H2 1%nat (initialApp [pngA; pngB] 0) pngA) as [H _];
      [reflexivity|reflexivity|discriminate|exact H].
  - apply H3. reflexivity.
Defined.

(** * Properties of the editing actions *)

(** C9. When the collaborator call of an edit, a filter, an adjustment or an
    upscale fails, the history stack after the action is the one before it,
    and the error cell holds the message of the failure. *)
Theorem failed_action_keeps_history
    (generateEditedImage : File -> string -> Hotspot -> Result string)
    (generateFilteredImage generateAdjustedImage : File -> string -> Result string)
    (upscaleImage : File -> Result string)
    (now : Z) (s : AppState) (img : File) (err : Thrown) :
  currentImage s = Some img ->
  (forall hotspot,
     isBlank (prompt s) = false -> editHotspot s = Some hotspot ->
     generateEditedImage img (prompt s) hotspot = Throw err ->
     let s' := handleGenerate generateEditedImage now s in
     historyStack s' = historyStack s
     /\ error s' = Some ("画像の生成に失敗しました。 " +:+ errorMessageOf err))
  /\ (forall filterPrompt,
        generateFilteredImage img filterPrompt = Throw err ->
        let s' := handleApplyFilter generateFilteredImage now filterPrompt s in
        historyStack s' = historyStack s
        /\ error s' = Some ("フィルターの適用に失敗しました。 " +:+ errorMessageOf err))
  /\ (forall adjustmentPrompt,
        generateAdjustedImage img adjustmentPrompt = Throw err ->
        let s' := handleApplyAdjustment generateAdjustedImage now adjustmentPrompt s in
        historyStack s' = historyStack s
        /\ error s' = Some ("調整の適用に失敗しました。 " +:+ errorMessageOf err))
  /\ (upscaleImage img = Throw err ->
        let s' := handleUpscaleImage upscaleImage now s in
        historyStack s' = historyStack s
        /\ error s' = Some ("画像の高品質化に失敗しました。 " +:+ errorMessageOf err)).
Proof.
  intros Himg. split; [|split; [|split]].
  - intros hotspot Hprompt Hspot Hfail s'. unfold s', handleGenerate.
    by rewrite Himg, Hprompt, Hspot, Hfail.
  - intros filterPrompt Hfail s'. unfold s', handleApplyFilter.
    by rewrite Himg, Hfail.
  - intros adjustmentPrompt Hfail s'. unfold s', handleApplyAdjustment.
    by rewrite Himg, Hfail.
  - intros Hfail s'. unfold s', handleUpscaleImage.
    by rewrite Himg, Hfail.
Qed.

Lemma failed_action_keeps_history_witness :
  let s := initialApp [pngA; pngB] 1
             |> setPrompt "remove the lamp" |> setEditHotspot (Some (10, 20)) in
  let blocked := ErrorObj "Request was blocked." in
  historyStack (handleGenerate (fun _ _ _ => Throw blocked) 1700000000000 s)
    = ([pngA; pngB], 1)
  /\ error (handleGenerate (fun _ _ _ => Throw blocked) 1700000000000 s)
    = Some ("画像の生成に失敗しました。 " +:+ "Request was blocked.")
  /\ historyStack (handleUpscaleImage (fun _ => Throw blocked) 1700000000000 s)
    = ([pngA; pngB], 1).
Proof.
  intros s blocked.
  destruct (failed_action_keeps_history
              (fun _ _ _ => Throw blocked) (fun _ _ => Throw blocked)
              (fun _ _ => Throw blocked) (fun _ => Throw blocked)
              1700000000000 s pngB blocked eq_refl) as (Hedit & _ & _ & Hup).
  destruct (Hedit (10, 20) eq_refl eq_refl eq_refl) as [H1 H2].
  destruct (Hup eq_refl) as [H3 _].
  split; [exact H1|]. split; [exact H2|exact H3].
Defined.

(** * Further properties of the history engine *)

Lemma stackShape_same (s s' : AppState) :
  history s' = history s -> historyIndex s' = historyIndex s ->
  stackShape s -> stackShape s'.
Proof. unfold stackShape. by intros -> ->. Qed.

Lemma at_index_Some {A} (a : list A) (i : Z) :
  is_Some (at_index a i) <-> 0 <= i < len a.
Proof.
  unfold at_index, len. destruct (Z.ltb_spec i 0).
  - split; [by intros [? ?]|lia].
  - rewrite lookup_lt_is_Some. lia.
Qed.

Lemma at_index_appended {A} (a : list A) (x : A) (i : Z) :
  0 <= i <= len a ->
  at_index (take (Z.to_nat i) a ++ [x]) i = Some x.
Proof.
  intros Hi. unfold at_index, len in *.
  destruct (Z.ltb_spec i 0); [lia|].
  rewrite lookup_app_r by (rewrite length_take; lia).
  rewrite length_take. by replace (Z.to_nat i - _)%nat with 0%nat by lia.
Qed.

Lemma at_index_kept {A} (a : list A) (x : A) (i k : Z) :
  0 <= k < i -> i <= len a ->
  at_index (take (Z.to_nat i) a ++ [x]) k = at_index a k.
Proof.
  intros Hk Hi. unfold at_index, len in *.
  destruct (Z.ltb_spec k 0); [lia|].
  rewrite lookup_app_l by (rewrite length_take; lia).
  apply lookup_take_lt. lia.
Qed.

Lemma addImageToHistory_stack (m : File) (s : AppState) :
  stackShape s ->
  history (addImageToHistory m s)
    = take (Z.to_nat (historyIndex s + 1)) (history s) ++ [m]
  /\ historyIndex (addImageToHistory m s) = historyIndex s + 1.
Proof.
  intros Hs.
  assert (Hr : 0 <= historyIndex s + 1 <= len (history s)).
  { destruct Hs as [[Hh Hi]|Hi]; [rewrite Hh, Hi; unfold len; cbn; lia|lia]. }
  unfold addImageToHistory.
  cbn [history historyIndex setHistory setHistoryIndex setCrop setCompletedCrop].
  rewrite len_app, len_slice0, slice0_in_range by done.
  split; [done|]. unfold len; cbn [length]. lia.
Qed.

Lemma addImageToHistory_shape (m : File) (s : AppState) :
  stackShape s -> stackShape (addImageToHistory m s).
Proof.
  intros Hs. destruct (addImageToHistory_stack m s Hs) as [Hh Hi].
  right. rewrite Hh, Hi, len_app. unfold len at 2. cbn [length].
  assert (Hr : 0 <= historyIndex s + 1 <= len (history s)).
  { destruct Hs as [[Hh' Hi']|Hi']; [rewrite Hh', Hi'; unfold len; cbn; lia|lia]. }
  unfold len. rewrite length_take. unfold len in Hr. lia.
Qed.

Section AppRunFacts.

Variable generateEditedImage : File -> string -> Hotspot -> Result string.
Variable generateFilteredImage : File -> string -> Result string.
Variable generateAdjustedImage : File -> string -> Result string.
Variable upscaleImage : File -> Result string.

Local Abbreviation applyAction :=
  (applyAction generateEditedImage generateFilteredImage
               generateAdjustedImage upscaleImage).
Local Abbreviation runApp :=
  (runApp generateEditedImage generateFilteredImage
          generateAdjustedImage upscaleImage).

(** An action leaves the stack as it is, replaces it by one file, empties
    it, moves the index by one within it, puts the index at 0, or appends a
    file. *)
Lemma applyAction_cases (a : AppAction) (s : AppState) :
  historyStack (applyAction a s) = historyStack s
  \/ (exists f, historyStack (applyAction a s) = ([f], 0))
  \/ historyStack (applyAction a s) = ([], -1)
  \/ (0 < historyIndex s
      /\ historyStack (applyAction a s) = (history s, historyIndex s - 1))
  \/ (historyIndex s < len (history s) - 1
      /\ historyStack (applyAction a s) = (history s, historyIndex s + 1))
  \/ (0 < len (history s) /\ historyStack (applyAction a s) = (history s, 0))
  \/ (exists f, historyStack (applyAction a s)
                = historyStack (addImageToHistory f s)).
Proof.
  destruct a; cbn [applyAction].
  - do 6 right. by eexists.
  - unfold handleUndo, canUndo.
    destruct (Z.ltb_spec 0 (historyIndex s)); [do 3 right; left|left]; done.
  - unfold handleRedo, canRedo.
    destruct (Z.ltb_spec (historyIndex s) (len (history s) - 1));
      [do 4 right; left|left]; done.
  - unfold handleReset.
    destruct (Z.ltb_spec 0 (len (history s))); [do 5 right; left|left]; done.
  - right; left. by eexists.
  - right; right; left. done.
  - by left.
  - destruct imageFile; [right; left; by eexists|by left].
  - unfold handleGenerate.
    destruct (currentImage s); [|by left].
    destruct (isBlank (prompt s)); [by left|].
    destruct (editHotspot s); [|by left].
    destruct (bindR _ _); [do 6 right; by eexists|by left].
  - unfold handleApplyFilter.
    destruct (currentImage s); [|by left].
    destruct (bindR _ _); [do 6 right; by eexists|by left].
  - unfold handleApplyAdjustment.
    destruct (currentImage s); [|by left].
    destruct (bindR _ _); [do 6 right; by eexists|by left].
  - unfold handleUpscaleImage.
    destruct (currentImage s); [|by left].
    destruct (bindR _ _); [do 6 right; by eexists|by left].
  - by left.
  - unfold handleImageClick. destruct (activeTab s); by left.
Qed.

Lemma applyAction_shape (a : AppAction) (s : AppState) :
  stackShape s -> stackShape (applyAction a s).
Proof.
  intros Hs. unfold stackShape.
  destruct (applyAction_cases a s)
    as [H|[[f H]|[H|[[Hc H]|[[Hc H]|[[Hc H]|[f H]]]]]]];
    unfold historyStack in H; injection H as Hh Hi; rewrite Hh, Hi.
  - exact Hs.
  - right. unfold len; cbn; lia.
  - by left.
  - right. destruct Hs as [[_ ?]|?]; lia.
  - right. destruct Hs as [[Hnil ?]|?]; [|lia].
    rewrite Hnil in Hc. unfold len in Hc; cbn in Hc. lia.
  - right. lia.
  - apply (addImageToHistory_shape f s Hs).
Qed.

Lemma runApp_shape (actions : list AppAction) (s : AppState) :
  stackShape s -> stackShape (runApp actions s).
Proof.
  revert s. induction actions as [|a actions IH]; intros s Hs; [done|].
  cbn. by apply IH, applyAction_shape.
Qed.

End AppRunFacts.

Lemma validateIndex_shape (stored : option Z) (files : list File) :
  (files = [] /\ validateIndex stored files = -1)
  \/ 0 <= validateIndex stored files < len files.
Proof.
  unfold validateIndex.
  assert (Hf : (files = [] /\ (if 0 <? len files then len files - 1 else -1) = -1)
               \/ 0 <= (if 0 <? len files then len files - 1 else -1) < len files).
  { destruct files as [|f files]; [by left|right].
    unfold len; cbn [length]. destruct (Z.ltb_spec 0 (Z.of_nat (S (length files)))); lia. }
  destruct stored as [i|]; [|exact Hf].
  destruct (Z.ltb_spec i 0); [exact Hf|].
  destruct (Z.leb_spec (len files) i); [exact Hf|]. right. cbn. lia.
Qed.

Lemma restoreHistory_Ok (historyJSON indexStr : string) (restored : list File * Z) :
  restoreHistory historyJSON indexStr = Ok restored ->
  exists files,
    restored = (files, validateIndex (parseInt indexStr) files).
Proof.
  unfold restoreHistory. destruct (JSON_parse historyJSON); [|done].
  cbn [bindR]. destruct (arrayMap restoreEntry j) as [files|]; [|done].
  cbn [bindR]. intros [= <-]. by exists files.
Qed.

(** What [loadInitialState] gives: the empty stack, or a decoded sequence
    with the validated index. *)
Lemma loadInitialState_cases (ls : Storage) :
  (fst (loadInitialState ls) = ([], -1)
   /\ (snd (loadInitialState ls) = ls
       \/ snd (loadInitialState ls)
          = (ls |> removeItem HISTORY_KEY |> removeItem INDEX_KEY)))
  \/ (exists historyJSON indexStr files,
        getItem HISTORY_KEY ls = Some historyJSON
        /\ getItem INDEX_KEY ls = Some indexStr
        /\ restoreHistory historyJSON indexStr
           = Ok (files, validateIndex (parseInt indexStr) files)
        /\ loadInitialState ls
           = ((files, validateIndex (parseInt indexStr) files), ls)).
Proof.
  unfold loadInitialState.
  destruct (getItem HISTORY_KEY ls) as [historyJSON|] eqn:Hh;
    [|left; cbn; auto].
  destruct (getItem INDEX_KEY ls) as [indexStr|] eqn:Hi;
    [|left; rewrite orb_true_r; cbn; auto].
  destruct (falsy (Some historyJSON) || falsy (Some indexStr)); [left; cbn; auto|].
  cbn -[restoreHistory].
  destruct (restoreHistory historyJSON indexStr) as [restored|e] eqn:Hr.
  - right. destruct (restoreHistory_Ok _ _ _ Hr) as [files ->].
    by exists historyJSON, indexStr, files.
  - left. cbn. auto.
Qed.

Lemma startApp_shape (ls : Storage) : stackShape (startApp ls).
Proof.
  unfold startApp.
  destruct (loadInitialState_cases ls)
    as [[-> _]|(hj & ix & files & _ & _ & _ & ->)]; cbn.
  - by left.
  - unfold stackShape. cbn. apply validateIndex_shape.
Qed.

(** X1. Whatever the durable storage holds at start and whatever the
    collaborators answer, after any sequence of actions the stack is empty
    with index -1 or the index points into it, and the component has a
    current image, and an original image, exactly when the history is not
    empty. *)
Theorem app_stack_always_well_formed
    (generateEditedImage : File -> string -> Hotspot -> Result string)
    (generateFilteredImage generateAdjustedImage : File -> string -> Result string)
    (upscaleImage : File -> Result string)
    (ls : Storage) (actions : list AppAction) :
  let s := runApp generateEditedImage generateFilteredImage
                  generateAdjustedImage upscaleImage actions (startApp ls) in
  stackShape s
  /\ (is_Some (currentImage s) <-> history s <> [])
  /\ (is_Some (originalImage s) <-> history s <> []).
Proof.
  intros s.
  assert (Hs : stackShape s) by apply runApp_shape, startApp_shape.
  split; [exact Hs|].
  unfold currentImage, originalImage. rewrite !at_index_Some.
  destruct Hs as [[Hh Hi]|Hi].
  - rewrite Hh, Hi. unfold len; cbn. split; split; (lia || done).
  - assert (history s <> []).
    { intros Hn. rewrite Hn in Hi. unfold len in Hi; cbn in Hi. lia. }
    split; split; (lia || done).
Qed.

(** X2. On a stack whose index points into it, a redo after an undo that
    moved, and an undo after a redo that moved, give back the sequence and
    the index. *)
Theorem undo_and_redo_are_inverse (s : AppState) :
  0 <= historyIndex s < len (history s) ->
  (canUndo s = true -> historyStack (handleRedo (handleUndo s)) = historyStack s)
  /\ (canRedo s = true -> historyStack (handleUndo (handleRedo s)) = historyStack s).
Proof.
  intros Hi. unfold handleUndo, handleRedo, canUndo, canRedo, historyStack. split.
  - intros ->. cbn.
    destruct (Z.ltb_spec (historyIndex s - 1) (len (history s) - 1)); [|lia].
    cbn. f_equal. lia.
  - intros ->. cbn.
    destruct (Z.ltb_spec 0 (historyIndex s + 1)); [|lia].
    cbn. f_equal. lia.
Qed.

Lemma undo_and_redo_are_inverse_witness :
  let s := initialApp [pngA; pngB; pngC] 1 in
  historyStack (handleRedo (handleUndo s)) = ([pngA; pngB; pngC], 1)
  /\ historyStack (handleUndo (handleRedo s)) = ([pngA; pngB; pngC], 1).
Proof.
  intros s.
  destruct (undo_and_redo_are_inverse s) as [H1 H2].
  { unfold len; cbn; lia. }
  split; [apply H1|apply H2]; reflexivity.
Defined.

(** X3. After an append to a well-formed stack the appended media is the
    current image, nothing is left to redo, and an undo is possible exactly
    when the history was not empty; that undo shows the image that was
    current before the append, and a redo after it shows the appended media
    again. *)
Theorem append_then_undo_redo (m : File) (s : AppState) :
  stackShape s ->
  let s' := addImageToHistory m s in
  currentImage s' = Some m
  /\ canRedo s' = false
  /\ (canUndo s' = true <-> history s <> [])
  /\ (history s <> [] ->
        currentImage (handleUndo s') = currentImage s
        /\ currentImage (handleRedo (handleUndo s')) = Some m).
Proof.
  intros Hs s'.
  destruct (addImageToHistory_stack m s Hs) as [Hh Hi]. fold s' in Hh, Hi.
  assert (Hr : 0 <= historyIndex s + 1 <= len (history s)).
  { destruct Hs as [[Hh' Hi']|Hi']; [rewrite Hh', Hi'; unfold len; cbn; lia|lia]. }
  assert (Hlen : len (history s') = historyIndex s + 2).
  { rewrite Hh, len_app. unfold len. rewrite length_take. unfold len in Hr.
    cbn [length]. lia. }
  assert (Hne : history s <> [] <-> 0 <= historyIndex s).
  { destruct Hs as [[Hh' Hi']|Hi'].
    - rewrite Hh', Hi'. split; [done|lia].
    - split; [lia|]. intros _ Hn. rewrite Hn in Hi'. unfold len in Hi'; cbn in Hi'. lia. }
  assert (Hcur : currentImage s' = Some m).
  { unfold currentImage. rewrite Hh, Hi. by apply at_index_appended. }
  split; [exact Hcur|]. split; [|split].
  - unfold canRedo. rewrite Hi, Hlen. apply Z.ltb_ge. lia.
  - unfold canUndo. rewrite Hi, Hne, Z.ltb_lt. lia.
  - intros Hnonempty. apply Hne in Hnonempty.
    assert (Hundo : handleUndo s' = s' |> setHistoryIndex (historyIndex s)
                                       |> setEditHotspot None
                                       |> setDisplayHotspot None).
    { unfold handleUndo, canUndo. rewrite Hi.
      destruct (Z.ltb_spec 0 (historyIndex s + 1)); [|lia].
      do 3 f_equal. lia. }
    split.
    + rewrite Hundo. unfold currentImage. cbn [history historyIndex setHistoryIndex
        setEditHotspot setDisplayHotspot].
      rewrite Hh. apply at_index_kept; lia.
    + unfold handleRedo, canRedo. rewrite Hundo.
      cbn [history historyIndex setHistoryIndex setEditHotspot setDisplayHotspot].
      rewrite Hlen.
      destruct (Z.ltb_spec (historyIndex s) (historyIndex s + 2 - 1)); [|lia].
      unfold currentImage.
      cbn [history historyIndex setHistoryIndex setEditHotspot setDisplayHotspot].
      rewrite Hh. by apply at_index_appended.
Qed.

Lemma append_then_undo_redo_witness :
  let s' := addImageToHistory pngC (initialApp [pngA; pngB] 0) in
  currentImage s' = Some pngC
  /\ canRedo s' = false
  /\ currentImage (handleUndo s') = Some pngA
  /\ currentImage (handleRedo (handleUndo s')) = Some pngC.
Proof.
  intros s'.
  destruct (append_then_undo_redo pngC (initialApp [pngA; pngB] 0))
    as (H1 & H2 & _ & H3).
  { right. unfold len; cbn; lia. }
  destruct H3 as [H3 H4]; [discriminate|].
  split; [exact H1|]. split; [exact H2|]. split; [exact H3|exact H4].
Defined.

Section OriginalKept.

Variable generateEditedImage : File -> string -> Hotspot -> Result string.
Variable generateFilteredImage : File -> string -> Result string.
Variable generateAdjustedImage : File -> string -> Result string.
Variable upscaleImage : File -> Result string.

Local Abbreviation applyAction :=
  (applyAction generateEditedImage generateFilteredImage
               generateAdjustedImage upscaleImage).
Local Abbreviation runApp :=
  (runApp generateEditedImage generateFilteredImage
          generateAdjustedImage upscaleImage).

Lemma applyAction_keeps_original (a : AppAction) (s : AppState) :
  0 <= historyIndex s < len (history s) ->
  keepsOriginal a = true ->
  originalImage (applyAction a s) = originalImage s
  /\ 0 <= historyIndex (applyAction a s) < len (history (applyAction a s)).
Proof.
  intros Hi Hkeep.
  assert (Hs : stackShape s) by by right.
  pose proof (applyAction_shape generateEditedImage generateFilteredImage
                generateAdjustedImage upscaleImage a s Hs) as Hs'.
  assert (Hsame : forall s', historyStack s' = historyStack s ->
                  originalImage s' = originalImage s
                  /\ 0 <= historyIndex s' < len (history s')).
  { unfold historyStack, originalImage. intros s' [= -> ->]. done. }
  assert (Hmoved : forall s' i, 0 <= i < len (history s) ->
                   historyStack s' = (history s, i) ->
                  originalImage s' = originalImage s
                  /\ 0 <= historyIndex s' < len (history s')).
  { unfold historyStack, originalImage. intros s' i Hr [= -> ->]. done. }
  assert (Happ : forall s' f,
                   historyStack s' = historyStack (addImageToHistory f s) ->
                  originalImage s' = originalImage s
                  /\ 0 <= historyIndex s' < len (history s')).
  { intros s' f Heq.
    pose proof (f_equal fst Heq) as Hh. pose proof (f_equal snd Heq) as Hx.
    unfold historyStack in Hh, Hx. cbn [fst snd] in Hh, Hx.
    destruct (addImageToHistory_stack f s Hs) as [Hh' Hx'].
    unfold originalImage. rewrite Hh, Hx, Hh', Hx'. split.
    - apply at_index_kept; lia.
    - rewrite len_app. unfold len. rewrite length_take. unfold len in Hi.
      cbn [length]. lia. }
  clear Hs Hs'.
  destruct a; cbn [applyAction keepsOriginal] in *; try discriminate.
  - by apply (Happ _ newImageFile).
  - unfold handleUndo, canUndo.
    destruct (Z.ltb_spec 0 (historyIndex s)); [|by apply Hsame].
    apply (Hmoved _ (historyIndex s - 1)); [lia|done].
  - unfold handleRedo, canRedo.
    destruct (Z.ltb_spec (historyIndex s) (len (history s) - 1)); [|by apply Hsame].
    apply (Hmoved _ (historyIndex s + 1)); [lia|done].
  - unfold handleReset.
    destruct (Z.ltb_spec 0 (len (history s))); [|by apply Hsame].
    apply (Hmoved _ 0); [lia|done].
  - by apply Hsame.
  - destruct imageFile; [discriminate|]. by apply Hsame.
  - unfold handleGenerate.
    destruct (currentImage s); [|by apply Hsame].
    destruct (isBlank (prompt s)); [by apply Hsame|].
    destruct (editHotspot s); [|by apply Hsame].
    destruct (bindR _ _) as [g|]; [by apply (Happ _ g)|by apply Hsame].
  - unfold handleApplyFilter.
    destruct (currentImage s); [|by apply Hsame].
    destruct (bindR _ _) as [g|]; [by apply (Happ _ g)|by apply Hsame].
  - unfold handleApplyAdjustment.
    destruct (currentImage s); [|by apply Hsame].
    destruct (bindR _ _) as [g|]; [by apply (Happ _ g)|by apply Hsame].
  - unfold handleUpscaleImage.
    destruct (currentImage s); [|by apply Hsame].
    destruct (bindR _ _) as [g|]; [by apply (Happ _ g)|by apply Hsame].
  - by apply Hsame.
  - unfold handleImageClick. destruct (activeTab s); by apply Hsame.
Qed.

Lemma runApp_keeps_original (actions : list AppAction) (s : AppState) :
  0 <= historyIndex s < len (history s) ->
  forallb keepsOriginal actions = true ->
  originalImage (runApp actions s) = originalImage s.
Proof.
  revert s. induction actions as [|a actions IH]; intros s Hi Hall; [done|].
  cbn in Hall. apply andb_prop in Hall as [Ha Hall].
  destruct (applyAction_keeps_original a s Hi Ha) as [Ho Hi'].
  transitivity (originalImage (applyAction a s)); [|exact Ho].
  apply (IH _ Hi' Hall).
Qed.

End OriginalKept.

Lemma handleUndo_stack (s : AppState) :
  history (handleUndo s) = history s
  /\ historyIndex (handleUndo s)
     = if 0 <? historyIndex s then historyIndex s - 1 else historyIndex s.
Proof. unfold handleUndo, canUndo. by destruct (0 <? historyIndex s). Qed.

Lemma handleRedo_stack (s : AppState) :
  history (handleRedo s) = history s
  /\ historyIndex (handleRedo s)
     = if historyIndex s <? len (history s) - 1
       then historyIndex s + 1 else historyIndex s.
Proof.
  unfold handleRedo, canRedo.
  by destruct (historyIndex s <? len (history s) - 1).
Qed.

Lemma iter_handleUndo (k : nat) (s : AppState) :
  0 <= historyIndex s ->
  historyStack (Nat.iter k handleUndo s)
  = (history s, Z.max 0 (historyIndex s - Z.of_nat k)).
Proof.
  intros Hi. induction k as [|k IH].
  - cbn. unfold historyStack. f_equal. lia.
  - rewrite Nat.iter_succ. unfold historyStack in *. injection IH as Hh Hx.
    destruct (handleUndo_stack (Nat.iter k handleUndo s)) as [-> ->].
    rewrite Hh, Hx. f_equal.
    destruct (Z.ltb_spec 0 (Z.max 0 (historyIndex s - Z.of_nat k))); lia.
Qed.

Lemma iter_handleRedo (k : nat) (s : AppState) :
  historyIndex s <= len (history s) - 1 ->
  historyStack (Nat.iter k handleRedo s)
  = (history s, Z.min (len (history s) - 1) (historyIndex s + Z.of_nat k)).
Proof.
  intros Hi. induction k as [|k IH].
  - cbn. unfold historyStack. f_equal. lia.
  - rewrite Nat.iter_succ. unfold historyStack in *. injection IH as Hh Hx.
    destruct (handleRedo_stack (Nat.iter k handleRedo s)) as [-> ->].
    rewrite Hh, Hx. f_equal.
    destruct (Z.ltb_spec (Z.min (len (history s) - 1) (historyIndex s + Z.of_nat k))
                         (len (history s) - 1)); lia.
Qed.

(** X5. On a stack whose index points into it, k undos lower the index by k
    but not below 0, and k redos raise it by k but not above the last
    entry, the sequence staying as it is; a reset lands where undoing all
    the way lands, and from there k redos show entry k. *)
Theorem repeated_undo_redo_and_reset (k : nat) (s : AppState) :
  0 <= historyIndex s < len (history s) ->
  historyStack (Nat.iter k handleUndo s)
    = (history s, Z.max 0 (historyIndex s - Z.of_nat k))
  /\ historyStack (Nat.iter k handleRedo s)
    = (history s, Z.min (len (history s) - 1) (historyIndex s + Z.of_nat k))
  /\ historyStack (handleReset s)
    = historyStack (Nat.iter (Z.to_nat (historyIndex s)) handleUndo s)
  /\ (Z.of_nat k < len (history s) ->
        currentImage (Nat.iter k handleRedo (handleReset s))
        = at_index (history s) (Z.of_nat k)).
Proof.
  intros Hi.
  assert (Hreset : historyStack (handleReset s) = (history s, 0)).
  { unfold handleReset. destruct (Z.ltb_spec 0 (len (history s))); [done|lia]. }
  split; [apply iter_handleUndo; lia|].
  split; [apply iter_handleRedo; lia|]. split.
  - rewrite Hreset, iter_handleUndo by lia. f_equal. lia.
  - intros Hk. unfold historyStack in Hreset. injection Hreset as Hh Hx.
    pose proof (iter_handleRedo k (handleReset s)) as Hredo.
    rewrite Hh, Hx in Hredo. specialize (Hredo ltac:(lia)).
    unfold historyStack in Hredo. injection Hredo as Hh' Hx'.
    unfold currentImage. rewrite Hh', Hx'. f_equal. lia.
Qed.

Lemma repeated_undo_redo_and_reset_witness :
  let s := initialApp [pngA; pngB; pngC] 1 in
  historyStack (Nat.iter 5 handleUndo s) = ([pngA; pngB; pngC], 0)
  /\ historyStack (Nat.iter 5 handleRedo s) = ([pngA; pngB; pngC], 2)
  /\ currentImage (Nat.iter 2 handleRedo (handleReset s)) = Some pngC.
Proof.
  intros s.
  destruct (repeated_undo_redo_and_reset 5 s) as (H1 & H2 & _ & _).
  { unfold len; cbn; lia. }
  destruct (repeated_undo_redo_and_reset 2 s) as (_ & _ & _ & H3).
  { unfold len; cbn; lia. }
  split; [exact H1|]. split; [exact H2|].
  apply H3. unfold len; cbn; lia.
Defined.

(** * Further properties of the persistence of the history *)

Lemma digitsFrom_pos (d : uint) (p : positive) :
  digitsFrom (Z.pos p) (list_ascii_of_string (NilEmpty.string_of_uint d))
  = Z.pos (Pos.of_uint_acc d p).
Proof.
  revert p. induction d as [|d IH|d IH|d IH|d IH|d IH|d IH|d IH|d IH|d IH|d IH];
    intros p; [reflexivity|..];
    cbn [NilEmpty.string_of_uint list_ascii_of_string Pos.of_uint_acc];
    unfold digitsFrom in *; cbn [fold_left];
    rewrite <- IH; f_equal;
    match goal with |- context [code ?c] =>
      let v := eval vm_compute in (code c) in change (code c) with v
    end; lia.
Qed.

Lemma digitsFrom_zero (d : uint) :
  digitsFrom 0 (list_ascii_of_string (NilEmpty.string_of_uint d))
  = Z.of_N (Pos.of_uint d).
Proof.
  induction d as [|d IH|d IH|d IH|d IH|d IH|d IH|d IH|d IH|d IH|d IH];
    [reflexivity|exact IH|..];
    cbn [NilEmpty.string_of_uint list_ascii_of_string Pos.of_uint];
    unfold digitsFrom; cbn [fold_left];
    exact (digitsFrom_pos d _).
Qed.

Lemma uint_digits (d : uint) :
  forallb isDigit (list_ascii_of_string (NilEmpty.string_of_uint d)) = true.
Proof.
  induction d as [|d IH|d IH|d IH|d IH|d IH|d IH|d IH|d IH|d IH|d IH];
    [reflexivity|..]; exact IH.
Qed.

Lemma takeWhile_all {A} (p : A -> bool) (l : list A) :
  forallb p l = true -> takeWhile p l = l.
Proof.
  induction l as [|x l IH]; [done|]. cbn.
  intros [-> Hl]%andb_prop. by rewrite IH.
Qed.

(** A run of digits that is not empty is read back as its value. *)
Lemma parseInt_digits (ds : list ascii) :
  ds <> [] -> forallb isDigit ds = true ->
  parseInt (string_of_list_ascii ds) = Some (digitsFrom 0 ds)
  /\ parseInt (String "-" (string_of_list_ascii ds)) = Some (- digitsFrom 0 ds).
Proof.
  intros Hne Hds. destruct ds as [|c ds]; [done|].
  pose proof Hds as Hall. cbn in Hds. apply andb_prop in Hds as [Hc Hds].
  assert (Hchar : isStrWhitespace c = false /\ Ascii.eqb c "-" = false
                  /\ Ascii.eqb c "+" = false).
  { unfold isDigit in Hc. apply andb_prop in Hc as [H1 H2].
    apply N.leb_le in H1, H2. unfold isStrWhitespace.
    repeat split.
    - repeat (apply orb_false_intro);
        [apply andb_false_intro2, N.leb_gt; lia|apply N.eqb_neq; lia
        |apply N.eqb_neq; lia].
    - apply Ascii.eqb_neq. intros ->. cbn in H1. lia.
    - apply Ascii.eqb_neq. intros ->. cbn in H1. lia. }
  destruct Hchar as (Hws & Hminus & Hplus).
  unfold parseInt. split.
  - cbn [string_of_list_ascii list_ascii_of_string dropWhile].
    rewrite list_ascii_of_string_of_list_ascii, Hws, Hminus, Hplus.
    rewrite takeWhile_all by exact Hall. f_equal.
    unfold digitsValue, digitsFrom. lia.
  - cbn [list_ascii_of_string].
    rewrite list_ascii_of_string_of_list_ascii.
    change (dropWhile isStrWhitespace ("-"%char :: c :: ds))
      with ("-"%char :: c :: ds).
    cbv iota beta. rewrite Ascii.eqb_refl. cbv iota beta.
    rewrite takeWhile_all by exact Hall. f_equal.
Qed.

(** The index that is written is the index that is read. *)
Lemma parseInt_stringOfZ (z : Z) : parseInt (stringOfZ z) = Some z.
Proof.
  assert (Hp : forall p,
            let ds := list_ascii_of_string (NilEmpty.string_of_uint (Pos.to_uint p)) in
            ds <> [] /\ forallb isDigit ds = true /\ digitsFrom 0 ds = Z.pos p
            /\ NilZero.string_of_uint (Pos.to_uint p) = string_of_list_ascii ds).
  { intros p ds. unfold ds.
    pose proof (Unsigned.to_uint_nonnil p) as Hnil.
    repeat split.
    - destruct (Pos.to_uint p); [done|discriminate..].
    - apply uint_digits.
    - by rewrite digitsFrom_zero, Unsigned.of_to.
    - rewrite string_of_list_ascii_of_string.
      unfold NilZero.string_of_uint. by destruct (Pos.to_uint p). }
  unfold stringOfZ. destruct z as [|p|p]; [reflexivity|..];
    destruct (Hp p) as (Hne & Hds & Hval & Hstr);
    destruct (parseInt_digits _ Hne Hds) as [Hpos Hneg];
    cbn [Z.to_int NilZero.string_of_int]; rewrite Hstr.
  - by rewrite Hpos, Hval.
  - by rewrite Hneg, Hval.
Qed.

Lemma chars_append (a b : string) :
  list_ascii_of_string (a +:+ b)
  = list_ascii_of_string a ++ list_ascii_of_string b.
Proof.
  induction a as [|c a IH]; [done|].
  rewrite append_String_l. cbn [list_ascii_of_string app]. by rewrite IH.
Qed.

Lemma tokenize_silent (mode mode' : lexMode) (c : ascii) (text : list ascii) :
  lexStep mode c = Some (mode', []) ->
  tokenize mode (c :: text) = tokenize mode' text.
Proof.
  intros Hstep. cbn [tokenize]. rewrite Hstep.
  by destruct (tokenize mode' text).
Qed.

Lemma tokenize_emit (mode mode' : lexMode) (c : ascii) (t : token)
    (text : list ascii) :
  lexStep mode c = Some (mode', [t]) ->
  tokenize mode (c :: text) = cons t <$> tokenize mode' text.
Proof.
  intros Hstep. cbn [tokenize]. rewrite Hstep.
  by destruct (tokenize mode' text).
Qed.

(** Inside a string, the escaped form of a character is read as the
    character. *)
Lemma tokenize_quoteChar (c : ascii) (acc rest : list ascii) :
  tokenize (MString acc) (list_ascii_of_string (quoteChar c) ++ rest)
  = tokenize (MString (c :: acc)) rest.
Proof.
  destruct c as [[] [] [] [] [] [] [] []];
    match goal with |- context [quoteChar ?c] =>
      let v := eval vm_compute in (list_ascii_of_string (quoteChar c)) in
      change (list_ascii_of_string (quoteChar c)) with v
    end;
    cbn [app];
    repeat (erewrite tokenize_silent by reflexivity); reflexivity.
Qed.

Lemma tokenize_quoteChars (s : string) (acc rest : list ascii) :
  tokenize (MString acc)
           (list_ascii_of_string (quoteChars s) ++ dquote :: rest)
  = cons (TString (lexemeOf (rev (list_ascii_of_string s) ++ acc)))
      <$> tokenize MDefault rest.
Proof.
  revert acc. induction s as [|c s IH]; intros acc.
  - cbn [quoteChars list_ascii_of_string app rev].
    by erewrite tokenize_emit by reflexivity.
  - cbn [quoteChars]. rewrite chars_append, <- app_assoc, tokenize_quoteChar, IH.
    cbn [list_ascii_of_string rev]. by rewrite <- app_assoc.
Qed.

(** A quoted string is read as the token of the string. *)
Lemma tokenize_quoteJSON (s : string) (rest : list ascii) :
  tokenize MDefault (list_ascii_of_string (quoteJSON s) ++ rest)
  = cons (TString s) <$> tokenize MDefault rest.
Proof.
  unfold quoteJSON. rewrite chars_append. cbn [list_ascii_of_string app].
  rewrite <- app_assoc. cbn [app].
  erewrite tokenize_silent by reflexivity.
  rewrite tokenize_quoteChars, app_nil_r. unfold lexemeOf.
  by rewrite rev_involutive, string_of_list_ascii_of_string.
Qed.

Lemma fmap_cons_app (t : token) (ts : list token) (o : option (list token)) :
  cons t <$> (app ts <$> o) = app (t :: ts) <$> o.
Proof. by destruct o. Qed.

Lemma fmap_cons_nil (t : token) (o : option (list token)) :
  cons t <$> o = app [t] <$> o.
Proof. by destruct o. Qed.

Lemma fmap_app_app (ts ts' : list token) (o : option (list token)) :
  app ts <$> (app ts' <$> o) = app (ts ++ ts') <$> o.
Proof. destruct o; cbn; [|done]. by rewrite app_assoc. Qed.

(** The text of a stored entry is read as the tokens of the entry. *)
Lemma tokenize_entry (f : File) (rest : list ascii) :
  tokenize MDefault (list_ascii_of_string (JSON_stringify (entryJson f)) ++ rest)
  = app (entryTokens f) <$> tokenize MDefault rest.
Proof.
  change (JSON_stringify (entryJson f))
    with ("{" +:+ ((quoteJSON "dataUrl" +:+ ":" +:+ quoteJSON (fileToDataURL f))
                    +:+ "," +:+ (quoteJSON "name" +:+ ":" +:+ quoteJSON (file_name f)))
              +:+ "}").
  rewrite !chars_append, <- !app_assoc.
  cbn [list_ascii_of_string app].
  erewrite tokenize_emit by reflexivity.
  rewrite tokenize_quoteJSON.
  erewrite tokenize_emit by reflexivity.
  rewrite tokenize_quoteJSON.
  erewrite tokenize_emit by reflexivity.
  rewrite tokenize_quoteJSON.
  erewrite tokenize_emit by reflexivity.
  rewrite tokenize_quoteJSON.
  erewrite tokenize_emit by reflexivity.
  by destruct (tokenize MDefault rest).
Qed.

Lemma tokenize_entries (f : File) (fs : list File) (rest : list ascii) :
  tokenize MDefault
    (list_ascii_of_string
       (joinStrings "," (List.map JSON_stringify (List.map entryJson (f :: fs))))
     ++ rest)
  = app (entryTokens f ++ moreEntryTokens fs) <$> tokenize MDefault rest.
Proof.
  revert f. induction fs as [|g fs IH]; intros f.
  - cbn [List.map joinStrings moreEntryTokens]. by rewrite tokenize_entry, app_nil_r.
  - change (joinStrings "," (List.map JSON_stringify (List.map entryJson (f :: g :: fs))))
      with (JSON_stringify (entryJson f) +:+ "," +:+
            joinStrings "," (List.map JSON_stringify (List.map entryJson (g :: fs)))).
    rewrite !chars_append, <- !app_assoc, tokenize_entry.
    cbn [list_ascii_of_string app].
    erewrite tokenize_emit by reflexivity.
    rewrite IH. cbn [moreEntryTokens].
    destruct (tokenize MDefault rest) as [ts|]; [|done].
    cbn [fmap option_fmap option_map]. f_equal.
Qed.

(** The text that the save writes is read as the tokens of its entries
    between brackets. *)
Lemma tokenize_history (f : File) (fs : list File) :
  tokenize MDefault
    (list_ascii_of_string (JSON_stringify (serializableHistory (f :: fs))))
  = Some (TLBracket :: entryTokens f ++ moreEntryTokens fs ++ [TRBracket]).
Proof.
  change (JSON_stringify (serializableHistory (f :: fs)))
    with ("[" +:+ joinStrings ","
                    (List.map JSON_stringify (List.map entryJson (f :: fs)))
              +:+ "]").
  rewrite !chars_append. cbn [list_ascii_of_string app].
  erewrite tokenize_emit by reflexivity.
  rewrite tokenize_entries.
  erewrite tokenize_emit by reflexivity.
  cbn [tokenize fmap option_fmap option_map].
  by rewrite <- app_assoc.
Qed.

Lemma parseTokens_entry (f : File) (items : list json) (firstState : bool)
    (ts : list token) :
  parseTokens (if firstState then SArrStart [] else SValue [FArr items])
              (entryTokens f ++ ts)
  = parseTokens (SArrNext (entryJson f :: (if firstState then [] else items)) []) ts.
Proof. by destruct firstState. Qed.

Lemma parseTokens_more (fs : list File) (items : list json) :
  parseTokens (SArrNext items []) (moreEntryTokens fs ++ [TRBracket])
  = Some (JArray (rev items ++ List.map entryJson fs)).
Proof.
  revert items. induction fs as [|f fs IH]; intros items.
  - cbn. by rewrite app_nil_r.
  - cbn [moreEntryTokens]. rewrite <- app_comm_cons, <- app_assoc.
    cbn [parseTokens parseStep].
    rewrite (parseTokens_entry f items false), IH.
    cbn [rev List.map]. by rewrite <- app_assoc.
Qed.

(** What the save writes for a history that is not empty parses to the
    entries of the history. *)
Lemma JSON_parse_stringify_history (f : File) (fs : list File) :
  JSON_parse (JSON_stringify (serializableHistory (f :: fs)))
  = Some (JArray (List.map entryJson (f :: fs))).
Proof.
  unfold JSON_parse. rewrite tokenize_history.
  cbn [parseTokens parseStep startValue].
  rewrite (parseTokens_entry f [] true), parseTokens_more. done.
Qed.

(** Decoding the encoded string of a file of a plain type gives the file
    back, under the name that is given. *)
Lemma dataURLtoFile_fileToDataURL (f : File) (filename : string) :
  plainMimeType (file_type f) = true ->
  dataURLtoFile (fileToDataURL f) filename
  = Ok (mkFile filename (file_type f) (file_bytes f)).
Proof.
  destruct f as [nm t bs]. cbn [file_type file_bytes].
  unfold plainMimeType. intros [Hne Ht]%andb_prop. apply negb_true_iff in Hne.
  unfold dataURLtoFile, fileToDataURL, readAsDataURL. cbn [file_type file_bytes].
  rewrite Hne, (split_dataURL t bs Ht).
  cbn [length Nat.ltb Nat.leb nth]. rewrite (matchMime_header t Ht).
  destruct t as [|c t]; [discriminate|].
  rewrite atob_base64Encode, fillBytes_binary_string.
  unfold newFile. by rewrite normalizeType_plain.
Qed.

Lemma restoreEntry_entryJson (f : File) :
  plainMimeType (file_type f) = true -> restoreEntry (entryJson f) = Ok f.
Proof.
  intros Hf.
  change (restoreEntry (entryJson f))
    with (let* decoded := dataURLtoFile (fileToDataURL f) "" in
          Ok (mkFile (file_name f) (file_type decoded) (file_bytes decoded))).
  rewrite dataURLtoFile_fileToDataURL by done. by destruct f.
Qed.

Lemma mapR_restoreEntry (fs : list File) :
  forallb (fun f => plainMimeType (file_type f)) fs = true ->
  mapR restoreEntry (List.map entryJson fs) = Ok fs.
Proof.
  induction fs as [|f fs IH]; [done|]. cbn [forallb List.map mapR].
  intros [Hf Hfs]%andb_prop.
  by rewrite restoreEntry_entryJson, IH.
Qed.

Lemma stringOfZ_not_empty (z : Z) : stringOfZ z <> "".
Proof.
  intros Hz. pose proof (parseInt_stringOfZ z) as Hp. by rewrite Hz in Hp.
Qed.

Lemma written_both (ls : Storage) (h i : string) :
  let ls' := ls |> writeItem HISTORY_KEY h |> writeItem INDEX_KEY i in
  getItem HISTORY_KEY ls' = Some h /\ getItem INDEX_KEY ls' = Some i.
Proof.
  unfold getItem, writeItem. split.
  - rewrite lookup_insert_ne by (symmetry; apply keys_differ).
    apply lookup_insert_eq.
  - apply lookup_insert_eq.
Qed.

(** The restore from a storage whose two keys hold what a save writes. *)
Lemma loadInitialState_written (ls : Storage) (h : list File) (i : Z) :
  getItem HISTORY_KEY ls = Some (JSON_stringify (serializableHistory h)) ->
  getItem INDEX_KEY ls = Some (stringOfZ i) ->
  0 <= i < len h ->
  forallb (fun f => plainMimeType (file_type f)) h = true ->
  loadInitialState ls = ((h, i), ls).
Proof.
  intros Hh Hx Hi Hplain.
  unfold loadInitialState. rewrite Hh, Hx.
  destruct h as [|f fs].
  { unfold len in Hi; cbn in Hi; lia. }
  rewrite (falsy_Some (stringOfZ _)) by apply stringOfZ_not_empty.
  change (falsy (Some (JSON_stringify (serializableHistory (f :: fs))))) with false.
  cbn -[restoreHistory JSON_stringify stringOfZ serializableHistory].
  unfold restoreHistory.
  rewrite JSON_parse_stringify_history. cbn [bindR arrayMap].
  rewrite mapR_restoreEntry by done. cbn [bindR].
  by rewrite parseInt_stringOfZ, validateIndex_in_range by lia.
Qed.

Lemma saveStateBegin_pending (s : AppState) (ls : Storage) :
  0 <= historyIndex s < len (history s) ->
  saveStateBegin s ls = (ls, Some (mkPending (history s) (historyIndex s))).
Proof.
  intros Hi. unfold saveStateBegin.
  destruct (Z.ltb_spec 0 (len (history s))); [|lia].
  destruct (Z.leb_spec 0 (historyIndex s)); [|lia]. done.
Qed.

Lemma saveStateComplete_accepted (accepts : Quota) (p : PendingSave)
    (ls : Storage) :
  let text := JSON_stringify (serializableHistory (pendingHistory p)) in
  accepts HISTORY_KEY text ls = true ->
  accepts INDEX_KEY (stringOfZ (pendingIndex p)) (writeItem HISTORY_KEY text ls)
  = true ->
  saveStateComplete accepts p ls
  = (ls |> writeItem HISTORY_KEY text
        |> writeItem INDEX_KEY (stringOfZ (pendingIndex p))).
Proof.
  intros text H1 H2. unfold saveStateComplete, setItem. fold text.
  by rewrite H1, H2.
Qed.

(** X6. A save of a state whose index points into its history begins a
    write of that history and that index. When the storage takes the two
    writes, whatever it holds when they land, a restore from it gives back
    the same sequence of files and the same index, for files of plain media
    types, and leaves the storage as the save left it. When the storage
    refuses the first write, the save stores nothing; when it refuses the
    second, only the history is written. *)
Theorem save_then_restore (accepts : Quota) (s : AppState) (ls : Storage) :
  0 <= historyIndex s < len (history s) ->
  let p := mkPending (history s) (historyIndex s) in
  let text := JSON_stringify (serializableHistory (history s)) in
  saveStateBegin s ls = (ls, Some p)
  /\ (forall later : Storage,
        accepts HISTORY_KEY text later = true ->
        accepts INDEX_KEY (stringOfZ (historyIndex s))
                (writeItem HISTORY_KEY text later) = true ->
        forallb (fun f => plainMimeType (file_type f)) (history s) = true ->
        loadInitialState (saveStateComplete accepts p later)
        = ((history s, historyIndex s), saveStateComplete accepts p later))
  /\ (forall later : Storage,
        accepts HISTORY_KEY text later = false ->
        saveStateComplete accepts p later = later)
  /\ (forall later : Storage,
        accepts HISTORY_KEY text later = true ->
        accepts INDEX_KEY (stringOfZ (historyIndex s))
                (writeItem HISTORY_KEY text later) = false ->
        saveStateComplete accepts p later = writeItem HISTORY_KEY text later).
Proof.
  intros Hi p text. split; [by apply saveStateBegin_pending|].
  split; [|split].
  - intros later H1 H2 Hplain.
    rewrite (saveStateComplete_accepted accepts p later H1 H2).
    destruct (written_both later text (stringOfZ (historyIndex s))) as [Hh Hx].
    by apply loadInitialState_written.
  - subst p text. intros later H1. unfold saveStateComplete, setItem.
    cbn [pendingHistory pendingIndex]. by rewrite H1.
  - subst p text. intros later H1 H2. unfold saveStateComplete, setItem.
    cbn [pendingHistory pendingIndex]. by rewrite H1, H2.
Qed.

Lemma save_then_restore_witness :
  fst (loadInitialState (saveState unbounded (initialApp [pngA; pngB; pngC] 1) ∅))
  = ([pngA; pngB; pngC], 1).
Proof.
  destruct (save_then_restore unbounded (initialApp [pngA; pngB; pngC] 1) ∅)
    as (Hbegin & Hround & _).
  { unfold len; cbn; lia. }
  unfold saveState. rewrite Hbegin.
  rewrite (Hround ∅ eq_refl eq_refl eq_refl). reflexivity.
Defined.

Lemma saveStateComplete_other_key (accepts : Quota) (p : PendingSave)
    (ls : Storage) (key : string) :
  key <> HISTORY_KEY -> key <> INDEX_KEY ->
  getItem key (saveStateComplete accepts p ls) = getItem key ls.
Proof.
  intros Hh Hx. unfold saveStateComplete, setItem, getItem, writeItem.
  destruct (accepts HISTORY_KEY _ ls); [|done].
  destruct (accepts INDEX_KEY _ _).
  - by rewrite !lookup_insert_ne by done.
  - by rewrite lookup_insert_ne by done.
Qed.

Lemma saveStateBegin_other_key (s : AppState) (ls : Storage) (key : string) :
  key <> HISTORY_KEY -> key <> INDEX_KEY ->
  getItem key (fst (saveStateBegin s ls)) = getItem key ls.
Proof.
  intros Hh Hx. unfold saveStateBegin, getItem, removeItem.
  destruct (_ && _); [done|]. cbn [fst].
  by rewrite !lookup_delete_ne by done.
Qed.

Lemma saveState_other_key (accepts : Quota) (s : AppState) (ls : Storage)
    (key : string) :
  key <> HISTORY_KEY -> key <> INDEX_KEY ->
  getItem key (saveState accepts s ls) = getItem key ls.
Proof.
  intros Hh Hx. unfold saveState.
  pose proof (saveStateBegin_other_key s ls key Hh Hx) as Hb.
  destruct (saveStateBegin s ls) as [ls' [p|]]; cbn [fst] in Hb; [|done].
  by rewrite saveStateComplete_other_key.
Qed.

Lemma runSaves_other_key (accepts : Quota) (es : list SaveEvent)
    (st : Storage * list PendingSave) (key : string) :
  key <> HISTORY_KEY -> key <> INDEX_KEY ->
  getItem key (fst (runSaves accepts es st)) = getItem key (fst st).
Proof.
  intros Hh Hx. revert st. induction es as [|e es IH]; intros st; [done|].
  cbn [runSaves fold_left]. fold (runSaves accepts es (saveStep accepts e st)).
  rewrite IH. destruct e as [s|k]; cbn [saveStep].
  - pose proof (saveStateBegin_other_key s (fst st) key Hh Hx) as Hb.
    by destruct (saveStateBegin s (fst st)).
  - destruct (snd st !! k); [|done]. cbn [fst].
    by apply saveStateComplete_other_key.
Qed.

Lemma loadInitialState_other_key (ls : Storage) (key : string) :
  key <> HISTORY_KEY -> key <> INDEX_KEY ->
  getItem key (snd (loadInitialState ls)) = getItem key ls.
Proof.
  intros Hh Hx.
  destruct (loadInitialState_cases ls)
    as [[_ [->| ->]]|(hj & ix & files & _ & _ & _ & ->)]; try done.
  unfold getItem, removeItem. by rewrite !lookup_delete_ne by done.
Qed.

(** X7. The engine reads and writes only its two keys: every other key of
    the storage keeps its value through a save, through every sequence of
    saves that begin and land in any order, whatever the storage refuses,
    and through a restore; and a restore changes the storage only by
    removing the two keys, which it does only when it gives the empty
    stack. *)
Theorem storage_other_keys_untouched
    (accepts : Quota) (s : AppState) (ls : Storage) (key : string) :
  key <> HISTORY_KEY -> key <> INDEX_KEY ->
  getItem key (saveState accepts s ls) = getItem key ls
  /\ (forall es pendings,
        getItem key (fst (runSaves accepts es (ls, pendings))) = getItem key ls)
  /\ getItem key (snd (loadInitialState ls)) = getItem key ls
  /\ (snd (loadInitialState ls) = ls
      \/ (snd (loadInitialState ls)
          = (ls |> removeItem HISTORY_KEY |> removeItem INDEX_KEY)
          /\ fst (loadInitialState ls) = ([], -1))).
Proof.
  intros Hh Hx.
  split; [by apply saveState_other_key|].
  split; [intros es pendings; by rewrite runSaves_other_key|].
  split; [by apply loadInitialState_other_key|].
  destruct (loadInitialState_cases ls)
    as [[Hf [Hs|Hs]]|(hj & ix & files & _ & _ & _ & ->)]; auto.
Qed.

Lemma storage_other_keys_untouched_witness :
  let ls : Storage := {[ "theme" := "dark"; HISTORY_KEY := truncatedHistoryJSON;
                         INDEX_KEY := "0" ]} in
  getItem "theme" (saveState unbounded (initialApp [pngA] 0) ls) = Some "dark"
  /\ getItem "theme" (snd (loadInitialState ls)) = Some "dark".
Proof.
  intros ls.
  destruct (storage_other_keys_untouched unbounded (initialApp [pngA] 0) ls "theme")
    as (H1 & _ & H2 & _); [discriminate|discriminate|].
  split; [rewrite H1|rewrite H2]; reflexivity.
Defined.

Lemma lastRendered_last (es : list SaveEvent) (e : SaveEvent) :
  lastRendered (es ++ [e])
  = match e with
    | EffectRuns s => Some s
    | WriteLands _ => lastRendered es
    end.
Proof. unfold lastRendered. by rewrite fold_left_app. Qed.

Lemma runSaves_last (accepts : Quota) (es : list SaveEvent) (e : SaveEvent)
    (st : Storage * list PendingSave) :
  runSaves accepts (es ++ [e]) st = saveStep accepts e (runSaves accepts es st).
Proof. unfold runSaves. by rewrite fold_left_app. Qed.

(** When the saves land in the order in which they began and the storage
    refuses nothing, the save of the last render is the last of the pending
    ones, or it has landed and nothing is pending. *)
Lemma runSaves_in_order (accepts : Quota) (es : list SaveEvent) (ls : Storage)
    (s : AppState) :
  (forall key value l, accepts key value l = true) ->
  Forall landsOldest es ->
  lastRendered es = Some s ->
  0 <= historyIndex s < len (history s) ->
  let st := runSaves accepts es (ls, []) in
  (exists front, snd st = front ++ [mkPending (history s) (historyIndex s)])
  \/ (snd st = []
      /\ getItem HISTORY_KEY (fst st)
         = Some (JSON_stringify (serializableHistory (history s)))
      /\ getItem INDEX_KEY (fst st) = Some (stringOfZ (historyIndex s))).
Proof.
  intros Hacc. revert s.
  induction es as [|e es IH] using rev_ind; intros s Hord Hlast Hi; [done|].
  apply Forall_app in Hord as [Hord He]. apply Forall_inv in He.
  rewrite lastRendered_last in Hlast. cbv zeta. rewrite runSaves_last.
  destruct e as [s'|k].
  - injection Hlast as ->. left. cbn [saveStep].
    rewrite (saveStateBegin_pending s _ Hi). cbn [snd]. by eexists.
  - cbn in He. subst k. cbn [saveStep].
    destruct (IH s Hord Hlast Hi) as [[front Hfront]|(Hnil & Hh & Hx)].
    + rewrite Hfront. destruct front as [|q front]; cbn [app lookup list_lookup].
      * right. cbn [snd fst delete list_delete]. split; [done|].
        rewrite saveStateComplete_accepted by apply Hacc.
        apply written_both.
      * left. exists front. done.
    + rewrite Hnil. cbn [lookup list_lookup]. right. by rewrite Hnil.
Qed.

(** X8. When the saves get to their writes in the order in which they
    began and the storage refuses nothing, then, once nothing is pending,
    a restore gives the history and the index of the last render, for a
    last render whose index points into its history of files of plain
    types. The step that removes the keys is not part of that order: it
    acts at once. *)
Theorem saves_in_order_keep_the_last_render
    (accepts : Quota) (es : list SaveEvent) (ls : Storage) (s : AppState) :
  (forall key value l, accepts key value l = true) ->
  Forall landsOldest es ->
  lastRendered es = Some s ->
  0 <= historyIndex s < len (history s) ->
  forallb (fun f => plainMimeType (file_type f)) (history s) = true ->
  snd (runSaves accepts es (ls, [])) = [] ->
  fst (loadInitialState (fst (runSaves accepts es (ls, []))))
  = (history s, historyIndex s).
Proof.
  intros Hacc Hord Hlast Hi Hplain Hdone.
  destruct (runSaves_in_order accepts es ls s Hacc Hord Hlast Hi)
    as [[front Hfront]|(_ & Hh & Hx)].
  - rewrite Hdone in Hfront. by destruct front.
  - by rewrite (loadInitialState_written _ _ _ Hh Hx Hi Hplain).
Qed.

Lemma saves_in_order_keep_the_last_render_witness :
  let events := [EffectRuns (initialApp [pngA] 0);
                 EffectRuns (initialApp [] (-1));
                 EffectRuns (initialApp [pngB] 0);
                 WriteLands 0;
                 EffectRuns (initialApp [pngB; pngC] 1);
                 WriteLands 0; WriteLands 0] in
  fst (loadInitialState (fst (runSaves unbounded events (∅, []))))
  = ([pngB; pngC], 1).
Proof.
  intros events.
  apply (saves_in_order_keep_the_last_render unbounded events ∅
           (initialApp [pngB; pngC] 1)).
  - intros key value l. reflexivity.
  - unfold events.
    repeat (apply List.Forall_cons; [first [exact I | reflexivity]|]).
    apply List.Forall_nil.
  - reflexivity.
  - unfold len; cbn; lia.
  - reflexivity.
  - reflexivity.
Defined.

(** X9. Restoring again gives the same stack: a second restore, from the
    storage that the first one left, gives what the first one gave and
    changes nothing. *)
Theorem restore_twice (ls : Storage) :
  loadInitialState (snd (loadInitialState ls))
  = (fst (loadInitialState ls), snd (loadInitialState ls)).
Proof.
  destruct (loadInitialState_cases ls)
    as [[Hf [Hs|Hs]]|(hj & ix & files & _ & _ & _ & Hl)].
  - rewrite Hs at 1. by destruct (loadInitialState ls).
  - rewrite Hf, Hs. destruct (removed_both ls) as [H1 _]. cbv zeta in H1.
    unfold loadInitialState. by rewrite H1.
  - rewrite Hl. cbn [fst snd]. exact Hl.
Qed.

(** * Further properties of the gallery store *)

Lemma listedBefore_asym (a b : SavedItem) :
  listedBefore a b -> listedBefore b a -> False.
Proof. unfold listedBefore. lia. Qed.

Lemma StronglySorted_filter {A} (R : A -> A -> Prop) (p : A -> bool) (l : list A) :
  StronglySorted R l -> StronglySorted R (List.filter p l).
Proof.
  induction 1 as [|x l Hl IH Hx]; cbn; [constructor|].
  destruct (p x); [|done]. constructor; [done|].
  apply Forall_forall. intros y Hy%list_elem_of_In%filter_In.
  rewrite Forall_forall in Hx. apply Hx, list_elem_of_In, Hy.
Qed.

Lemma Permutation_filter_bool {A} (p : A -> bool) (l l' : list A) :
  l ≡ₚ l' -> List.filter p l ≡ₚ List.filter p l'.
Proof.
  induction 1 as [|x l l' _ IH|x y l|l l' l'' _ IH1 _ IH2]; cbn.
  - done.
  - destruct (p x); [by constructor|done].
  - destruct (p x), (p y); try done. apply Permutation_swap.
  - by etrans.
Qed.

Lemma listing_sorted (db : ObjectStore) :
  storeOrdered db -> StronglySorted listedBefore (getAllItemsFromGallery db).
Proof. intros [Hs _]. by apply arraySort_listedBefore. Qed.

Lemma listing_perm (db : ObjectStore) : getAllItemsFromGallery db ≡ₚ records db.
Proof. apply arraySort_perm. Qed.

(** The list of the gallery is the only arrangement of the records in its
    order. *)
Lemma listing_unique (db : ObjectStore) (l : list SavedItem) :
  storeOrdered db -> StronglySorted listedBefore l -> l ≡ₚ records db ->
  getAllItemsFromGallery db = l.
Proof.
  intros Hdb Hl Hp.
  apply (StronglySorted_unique_strong listedBefore).
  - intros x y _ _ Hxy Hyx. destruct (listedBefore_asym x y Hxy Hyx).
  - by apply listing_sorted.
  - exact Hl.
  - by rewrite listing_perm, Hp.
Qed.

Lemma reachable_ordered (ops : list GalleryOp) :
  storeOrdered (runGallery ops emptyStore).
Proof. apply runGallery_ordered. split; constructor. Qed.

Lemma delete_listing (key : Z) (db : ObjectStore) :
  storeOrdered db ->
  getAllItemsFromGallery (deleteItemFromGallery key db)
  = List.filter (fun r => negb (id r =? key)) (getAllItemsFromGallery db).
Proof.
  intros Hdb. apply listing_unique.
  - apply (applyGalleryOp_ordered (GalleryDelete key) db Hdb).
  - apply StronglySorted_filter. by apply listing_sorted.
  - cbn. apply Permutation_filter_bool, listing_perm.
Qed.

Lemma filter_all {A} (p : A -> bool) (l : list A) :
  (forall x, x ∈ l -> p x = true) -> List.filter p l = l.
Proof.
  intros Hall. apply forallb_filter_id, forallb_forall.
  intros x Hx. by apply Hall, list_elem_of_In.
Qed.

(** X10. In every state of the gallery store, the list read after a delete
    is the list read before it without the entry of that id, in the same
    order; a delete of an id that the store does not hold changes neither
    the store nor the list. *)
Theorem delete_removes_one_entry (ops : list GalleryOp) (key : Z) :
  let db := runGallery ops emptyStore in
  getAllItemsFromGallery (deleteItemFromGallery key db)
    = List.filter (fun r => negb (id r =? key)) (getAllItemsFromGallery db)
  /\ Forall (fun r => id r <> key) (getAllItemsFromGallery (deleteItemFromGallery key db))
  /\ ((forall r, r ∈ records db -> id r <> key) ->
        deleteItemFromGallery key db = db).
Proof.
  intros db. pose proof (reachable_ordered ops) as Hdb. fold db in Hdb.
  rewrite (delete_listing key db Hdb). split; [done|]. split.
  - apply Forall_forall. intros r [_ Hr]%list_elem_of_In%filter_In.
    apply negb_true_iff, Z.eqb_neq in Hr. exact Hr.
  - intros Habsent. unfold deleteItemFromGallery, storeDelete.
    rewrite filter_all; [by destruct db|].
    intros r Hr. apply negb_true_iff, Z.eqb_neq. by apply Habsent.
Qed.

Lemma runGallery_app (ops1 ops2 : list GalleryOp) (db : ObjectStore) :
  runGallery (ops1 ++ ops2) db = runGallery ops2 (runGallery ops1 db).
Proof. apply fold_left_app. Qed.

Lemma keyGenerator_grows (ops : list GalleryOp) (db : ObjectStore) :
  keyGenerator db <= keyGenerator (runGallery ops db).
Proof.
  revert db. induction ops as [|o ops IH]; intros db; [done|].
  cbn [runGallery fold_left]. fold (runGallery ops (applyGalleryOp o db)).
  etrans; [|apply IH]. destruct o; cbn; lia.
Qed.

(** X11. The id that a save assigns is new: it is above the id of every
    entry that the store holds or has ever held, so an id is not used again
    after a delete; and the saved entry, with that id, the file and the
    date, is in the list read afterwards. *)
Theorem save_assigns_fresh_id
    (ops1 ops2 : list GalleryOp) (f : File) (now : Z) (r : SavedItem) :
  r ∈ records (runGallery ops1 emptyStore) ->
  let db := runGallery (ops1 ++ ops2) emptyStore in
  id r < fst (saveItemToGallery f now db)
  /\ mkItem (fst (saveItemToGallery f now db)) f now
       ∈ getAllItemsFromGallery (snd (saveItemToGallery f now db)).
Proof.
  intros Hr db. split.
  - cbn. unfold db. rewrite runGallery_app.
    pose proof (reachable_ordered ops1) as [_ Hbelow].
    rewrite Forall_forall in Hbelow. specialize (Hbelow r Hr).
    pose proof (keyGenerator_grows ops2 (runGallery ops1 emptyStore)). lia.
  - rewrite listing_perm. cbn. apply elem_of_app. right. by left.
Qed.

Lemma save_assigns_fresh_id_witness :
  let ops1 := [GallerySave pngA 1000; GallerySave pngB 2000] in
  let ops2 := [GalleryDelete 2; GalleryDelete 1] in
  2 < fst (saveItemToGallery pngC 3000 (runGallery (ops1 ++ ops2) emptyStore))
  /\ List.map id (getAllItemsFromGallery
                    (snd (saveItemToGallery pngC 3000
                            (runGallery (ops1 ++ ops2) emptyStore))))
     = [3].
Proof.
  intros ops1 ops2.
  destruct (save_assigns_fresh_id ops1 ops2 pngC 3000 (mkItem 2 pngB 2000))
    as [H _].
  { cbn. apply list_elem_of_further, list_elem_of_here. }
  split; [exact H|reflexivity].
Defined.

(** X12. When the date of a save is later than the date of every stored
    entry, the saved entry is the first of the list read afterwards and the
    rest of the list is the list read before. *)
Theorem newer_save_is_listed_first (ops : list GalleryOp) (f : File) (now : Z) :
  let db := runGallery ops emptyStore in
  Forall (fun r => createdAt r < now) (records db) ->
  getAllItemsFromGallery (snd (saveItemToGallery f now db))
  = mkItem (fst (saveItemToGallery f now db)) f now :: getAllItemsFromGallery db.
Proof.
  intros db Hnew. pose proof (reachable_ordered ops) as Hdb. fold db in Hdb.
  apply listing_unique.
  - apply (applyGalleryOp_ordered (GallerySave f now) db Hdb).
  - constructor; [by apply listing_sorted|].
    apply Forall_forall. intros r Hr. rewrite listing_perm in Hr.
    rewrite Forall_forall in Hnew. left. cbn. by apply Hnew.
  - cbn. rewrite listing_perm. apply Permutation_cons_append.
Qed.

Lemma newer_save_is_listed_first_witness :
  List.map id
    (getAllItemsFromGallery
       (snd (saveItemToGallery pngC 3000
               (runGallery [GallerySave pngA 1000; GallerySave pngB 2000]
                           emptyStore))))
  = [3; 2; 1].
Proof.
  rewrite (newer_save_is_listed_first
             [GallerySave pngA 1000; GallerySave pngB 2000] pngC 3000).
  - reflexivity.
  - repeat constructor.
Defined.

Lemma runDeletes_view (ds : list (bool * Z)) (v : GalleryView) (db : ObjectStore) :
  storeOrdered db -> items v = getAllItemsFromGallery db ->
  items (fst (runDeletes ds v db))
  = getAllItemsFromGallery (snd (runDeletes ds v db)).
Proof.
  revert v db. induction ds as [|[confirmed key] ds IH]; intros v db Hdb Hv; [done|].
  unfold runDeletes. cbn [fold_left fst snd].
  destruct confirmed; cbn [galleryHandleDelete].
  - apply (IH (mkGallery _ _ _) (deleteItemFromGallery key db)).
    + apply (applyGalleryOp_ordered (GalleryDelete key) db Hdb).
    + cbn [items]. by rewrite Hv, delete_listing.
  - by apply (IH v db).
Qed.

(** X13. The gallery view stays in step with the store: after the view has
    loaded the list, and after any sequence of deletions that the user
    confirms or declines, the list of the view is the list that the store
    gives, without a reload. *)
Theorem gallery_view_matches_store
    (ops : list GalleryOp) (ds : list (bool * Z)) :
  let db := runGallery ops emptyStore in
  let '(v, db') := runDeletes ds (loadItems db mountGallery) db in
  items v = getAllItemsFromGallery db'.
Proof.
  intros db.
  pose proof (runDeletes_view ds (loadItems db mountGallery) db
                (reachable_ordered ops) eq_refl) as H.
  by destruct (runDeletes ds (loadItems db mountGallery) db).
Qed.

(** * Further properties of the media codec *)

Lemma split_pieces (sep : ascii) (s : string) :
  (1 <= length (split sep s))%nat
  /\ ((length (split sep s) < 2)%nat <-> string_forall (notChar sep) s = true).
Proof.
  induction s as [|c s [IH1 IH2]]; cbn [split string_forall].
  - cbn. split; [lia|]. split; [done|lia].
  - unfold notChar at 1. destruct (Ascii.eqb c sep); cbn [negb andb length].
    + split; [lia|]. split; [lia|done].
    + destruct (split sep s) as [|piece pieces]; [cbn in IH1; lia|].
      cbn [length] in *. split; [lia|]. rewrite <- IH2. lia.
Qed.

(** X14. [dataURLtoFile] fails with "Invalid data URL" exactly for the
    strings without a comma; its only other failures are the missing media
    type and the base64 text that does not decode; a file that it gives has
    the name that was passed; and what follows a second comma is not
    read. *)
Theorem dataURLtoFile_failures (dataurl filename : string) :
  (dataURLtoFile dataurl filename = Throw (ErrorObj "Invalid data URL")
   <-> string_forall (notChar ",") dataurl = true)
  /\ (forall e, dataURLtoFile dataurl filename = Throw e ->
        e = ErrorObj "Invalid data URL"
        \/ e = ErrorObj "Could not parse MIME type from data URL"
        \/ e = ErrorObj atobMessage)
  /\ (forall f, dataURLtoFile dataurl filename = Ok f -> file_name f = filename)
  /\ (forall header data more : string,
        string_forall (notChar ",") header = true ->
        string_forall (notChar ",") data = true ->
        dataurl = header +:+ String "," (data +:+ String "," more) ->
        dataURLtoFile dataurl filename
        = dataURLtoFile (header +:+ String "," data) filename).
Proof.
  destruct (split_pieces "," dataurl) as [Hone Htwo].
  split; [|split; [|split]].
  - unfold dataURLtoFile. rewrite <- Htwo.
    destruct (Nat.ltb_spec (length (split "," dataurl)) 2) as [Hlt|Hge].
    + done.
    + split; [|lia].
      destruct (matchMime _) as [[|c mime]|]; [done| |done].
      by destruct (atob _).
  - intros e. unfold dataURLtoFile.
    destruct (length (split "," dataurl) <? 2)%nat; [intros [= <-]; auto|].
    destruct (matchMime _) as [[|c mime]|];
      [intros [= <-]; auto| |intros [= <-]; auto].
    destruct (atob _); [done|intros [= <-]; auto].
  - intros f. unfold dataURLtoFile.
    destruct (length (split "," dataurl) <? 2)%nat; [done|].
    destruct (matchMime _) as [[|c mime]|]; [done| |done].
    destruct (atob _); [|done]. by intros [= <-].
  - intros header data more Hheader Hdata ->.
    unfold dataURLtoFile.
    rewrite !split_at_first by done.
    rewrite (split_without "," data) by done.
    destruct (split "," more); reflexivity.
Qed.

Lemma dataURLtoFile_failures_witness :
  dataURLtoFile "data:image/png;base64,iVBORw==,and more" "a.png"
  = Ok (mkFile "a.png" "image/png" [x89; x50; x4e; x47]).
Proof.
  destruct (dataURLtoFile_failures
              "data:image/png;base64,iVBORw==,and more" "a.png")
    as (_ & _ & _ & H).
  rewrite (H "data:image/png;base64" "iVBORw==" "and more");
    reflexivity.
Defined.

(** * Properties of the AI service *)

Lemma readAsDataURL_typed (nm t : string) (bs : list byte) :
  t <> "" ->
  readAsDataURL (mkFile nm t bs) = "data:" +:+ t +:+ ";base64," +:+ base64Encode bs.
Proof.
  intros Ht. unfold readAsDataURL. cbn [file_type file_bytes].
  by rewrite (proj2 (String.eqb_neq t "") Ht).
Qed.

Lemma plainMimeType_parts (t : string) :
  plainMimeType t = true -> t <> "" /\ string_forall plainTypeChar t = true.
Proof.
  unfold plainMimeType. intros [Hne Ht]%andb_prop. split; [|done].
  apply negb_true_iff in Hne. by apply String.eqb_neq.
Qed.

(** Decoding a data URL of a plain type with a base64 text gives the file
    of that type and of those bytes. *)
Lemma dataURLtoFile_dataURL (t : string) (bs : list byte) (filename : string) :
  plainMimeType t = true ->
  dataURLtoFile ("data:" +:+ t +:+ ";base64," +:+ base64Encode bs) filename
  = Ok (mkFile filename t bs).
Proof.
  intros Ht. destruct (plainMimeType_parts t Ht) as [Hne _].
  rewrite <- (readAsDataURL_typed "" t bs Hne).
  apply (dataURLtoFile_fileToDataURL (mkFile "" t bs) filename Ht).
Qed.

Lemma fileToPart_plain (f : File) :
  plainMimeType (file_type f) = true ->
  fileToPart f
  = Ok (mkInlineData (Some (file_type f)) (Some (base64Encode (file_bytes f)))).
Proof.
  intros Hf. destruct (plainMimeType_parts _ Hf) as [Hne Ht].
  destruct f as [nm t bs]. cbn [file_type file_bytes] in *.
  unfold fileToPart. rewrite (readAsDataURL_typed nm t bs Hne), (split_dataURL t bs Ht).
  cbn [length Nat.ltb Nat.leb nth]. rewrite (matchMime_header t Ht).
  by destruct t.
Qed.

(** X15. For a file of a plain media type, the part that the service sends
    to the model carries the type of the file and a base64 text that
    decodes to the bytes of the file; [fileToBase64] gives the same text. *)
Theorem fileToPart_sends_the_file (f : File) :
  plainMimeType (file_type f) = true ->
  exists text : string,
    fileToPart f = Ok (mkInlineData (Some (file_type f)) (Some text))
    /\ fileToBase64 f = Some text
    /\ atob text
       = Some (string_of_list_ascii (List.map ascii_of_byte (file_bytes f))).
Proof.
  intros Hf. exists (base64Encode (file_bytes f)).
  split; [by apply fileToPart_plain|]. split; [|apply atob_base64Encode].
  destruct (plainMimeType_parts _ Hf) as [Hne Ht].
  destruct f as [nm t bs]. cbn [file_type file_bytes] in *.
  unfold fileToBase64. by rewrite (readAsDataURL_typed nm t bs Hne), (split_dataURL t bs Ht).
Qed.

Lemma fileToPart_sends_the_file_witness :
  fileToPart pngA = Ok (mkInlineData (Some "image/png") (Some "iVBORw=="))
  /\ fileToBase64 pngA = Some "iVBORw==".
Proof.
  destruct (fileToPart_sends_the_file pngA eq_refl) as (text & H1 & H2 & _).
  assert (text = "iVBORw==") as ->.
  { vm_compute in H2. by injection H2 as <-. }
  by split.
Defined.

Lemma handleApiResponse_cases
    (response : GenerateContentResponse) (context : ApiContext) :
  (forall url : string,
     handleApiResponse response context = Ok url
     <-> isBlocked response = false
         /\ exists image t,
              imagePartFromResponse response = Some (mkPart (Some image) t)
              /\ url = "data:" +:+ templateOf (mimeType image) +:+ ";base64,"
                       +:+ templateOf (data image))
  /\ (isBlocked response = true ->
        exists feedback,
          promptFeedback response = Some feedback
          /\ handleApiResponse response context
             = Throw (ErrorObj ("リクエストがブロックされました。理由: "
                                +:+ templateOf (blockReason feedback) +:+ "。"
                                +:+ orEmpty (blockReasonMessage feedback))))
  /\ (forall e, handleApiResponse response context = Throw e ->
        exists message, e = ErrorObj message).
Proof.
  unfold handleApiResponse, isBlocked.
  destruct (promptFeedback response) as [feedback|];
    [destruct (falsy (blockReason feedback)) eqn:Hf|]; cbn [negb].
  2:{ split; [|split].
      - intros url. split; [done|]. by intros [[=] _].
      - intros _. by exists feedback.
      - intros e [= <-]. by eexists. }
  all: split; [|split; [done|]].
  all: destruct (imagePartFromResponse response) as [[[image|] t]|].
  all: try (intros url; split;
            [intros [= <-]; split; [done|]; by exists image, t
            |intros [_ (image' & t' & [= <- <-] & ->)]; done]).
  all: try (intros url; split;
            [destruct (_ && _); discriminate
            |intros [_ (image' & t' & Hfound & _)]; discriminate]).
  all: try (intros e; destruct (_ && _); intros [= <-]; by eexists).
  all: intros e [=].
Qed.

(** X16. [handleApiResponse] gives a data URL exactly when the response is
    not blocked and the first candidate has a part with inline data, and
    then the URL is made of the type and the data of the first such part; a
    blocked response fails even when it carries an image; and every failure
    is an [Error] with a message. *)
Theorem handleApiResponse_outcome
    (response : GenerateContentResponse) (context : ApiContext) :
  (forall url : string,
     handleApiResponse response context = Ok url
     <-> isBlocked response = false
         /\ exists image t,
              imagePartFromResponse response = Some (mkPart (Some image) t)
              /\ url = "data:" +:+ templateOf (mimeType image) +:+ ";base64,"
                       +:+ templateOf (data image))
  /\ (isBlocked response = true ->
        exists feedback,
          promptFeedback response = Some feedback
          /\ handleApiResponse response context
             = Throw (ErrorObj ("リクエストがブロックされました。理由: "
                                +:+ templateOf (blockReason feedback) +:+ "。"
                                +:+ orEmpty (blockReasonMessage feedback))))
  /\ (forall e, handleApiResponse response context = Throw e ->
        exists message, e = ErrorObj message).
Proof. apply handleApiResponse_cases. Qed.

Section ServiceCalls.

Variable generateContent :
  string -> InlineData -> string -> Result GenerateContentResponse.

Lemma handleApiResponse_image response context mime bs :
  imageAnswer response mime bs ->
  handleApiResponse response context
  = Ok ("data:" +:+ mime +:+ ";base64," +:+ base64Encode bs).
Proof.
  intros [Hb (t & Hp)].
  apply (proj1 (handleApiResponse_cases response context)).
  split; [done|]. by eexists _, _.
Qed.

Lemma handleApiResponse_blocked response context :
  isBlocked response = true ->
  exists reason,
    handleApiResponse response context
    = Throw (ErrorObj ("リクエストがブロックされました。理由: " +:+ reason)).
Proof.
  intros Hb.
  destruct (proj1 (proj2 (handleApiResponse_cases response context)) Hb)
    as (feedback & _ & ->).
  by eexists.
Qed.


Lemma current_in_range (s : AppState) (img : File) :
  currentImage s = Some img -> stackShape s.
Proof.
  intros Hc. right. apply at_index_Some. unfold currentImage in Hc. by rewrite Hc.
Qed.

Lemma appended_after (file : File) (s s1 s' : AppState) :
  stackShape s ->
  history s1 = history s -> historyIndex s1 = historyIndex s ->
  history s' = history (addImageToHistory file s1) ->
  historyIndex s' = historyIndex (addImageToHistory file s1) ->
  error s' = None -> isLoading s' = false ->
  appended file s s'.
Proof.
  intros Hs Hh Hi Hh' Hi' He Hl.
  destruct (addImageToHistory_stack file s1 (stackShape_same s s1 Hh Hi Hs))
    as [Ha Hb].
  rewrite Hh, Hi in Ha. rewrite Hi in Hb.
  unfold appended. rewrite Hh', Hi', Ha, Hb. repeat split; try done.
  unfold currentImage. rewrite Hh', Hi', Ha, Hb.
  apply at_index_appended.
  destruct Hs as [[Hn Hm]|Hr]; [rewrite Hn, Hm; unfold len; cbn; lia|lia].
Qed.

(** X17. When the model answers an editing action with an image, the
    action appends that image to the history: behind the current image,
    under the name of the action and the time, with the type and the bytes
    that the answer carries; it becomes the current image and no error is
    shown. This holds for the edit, the filter, the adjustment and the
    upscale. *)
Theorem model_image_is_appended
    (now : Z) (s : AppState) (img : File)
    (response : GenerateContentResponse) (mime : string) (bs : list byte) :
  currentImage s = Some img ->
  plainMimeType (file_type img) = true ->
  plainMimeType mime = true ->
  imageAnswer response mime bs ->
  let named prefix := mkFile (prefix +:+ stringOfZ now +:+ ".png") mime bs in
  (forall hotspot,
     isBlank (prompt s) = false -> editHotspot s = Some hotspot ->
     generateContent IMAGE_MODEL (partOf img) (editPrompt (prompt s) hotspot)
     = Ok response ->
     let s' := handleGenerate (generateEditedImage generateContent) now s in
     appended (named "edited-") s s'
     /\ editHotspot s' = None /\ displayHotspot s' = None)
  /\ (forall filterPrompt,
        generateContent IMAGE_MODEL (partOf img) (filterPromptText filterPrompt)
        = Ok response ->
        appended (named "filtered-") s
          (handleApplyFilter (generateFilteredImage generateContent) now
             filterPrompt s))
  /\ (forall adjustmentPrompt,
        generateContent IMAGE_MODEL (partOf img)
          (adjustmentPromptText adjustmentPrompt)
        = Ok response ->
        appended (named "adjusted-") s
          (handleApplyAdjustment (generateAdjustedImage generateContent) now
             adjustmentPrompt s))
  /\ (generateContent IMAGE_MODEL (partOf img) upscalePrompt = Ok response ->
      appended (named "upscaled-") s
        (handleUpscaleImage (upscaleImage generateContent) now s)).
Proof.
  intros Hc Himg Hmime Hans named.
  pose proof (current_in_range s img Hc) as Hs.
  pose proof (fileToPart_plain img Himg) as Hpart. fold (partOf img) in Hpart.
  assert (Hurl : forall context prefix,
             (let* url := handleApiResponse response context in
              dataURLtoFile url (prefix +:+ stringOfZ now +:+ ".png"))
             = Ok (named prefix)).
  { intros context prefix.
    rewrite (handleApiResponse_image response context mime bs Hans).
    cbn [bindR]. by apply dataURLtoFile_dataURL. }
  split; [|split; [|split]].
  - intros hotspot Hp Hh Hgen. cbn zeta.
    unfold handleGenerate, generateEditedImage.
    rewrite Hc, Hp, Hh, Hpart. cbn [bindR]. rewrite Hgen. cbn [bindR].
    rewrite (Hurl CtxEdit "edited-"). split; [|done].
    by eapply appended_after.
  - intros filterPrompt Hgen.
    unfold handleApplyFilter, generateFilteredImage.
    rewrite Hc, Hpart. cbn [bindR]. rewrite Hgen. cbn [bindR].
    rewrite (Hurl CtxFilter "filtered-"). by eapply appended_after.
  - intros adjustmentPrompt Hgen.
    unfold handleApplyAdjustment, generateAdjustedImage.
    rewrite Hc, Hpart. cbn [bindR]. rewrite Hgen. cbn [bindR].
    rewrite (Hurl CtxAdjustment "adjusted-"). by eapply appended_after.
  - intros Hgen.
    unfold handleUpscaleImage, upscaleImage.
    rewrite Hc, Hpart. cbn [bindR]. rewrite Hgen. cbn [bindR].
    rewrite (Hurl CtxUpscale "upscaled-"). by eapply appended_after.
Qed.

End ServiceCalls.

Lemma model_image_is_appended_witness :
  let s := initialApp [pngA; pngB; pngC] 1
             |> setPrompt "remove the lamp" |> setEditHotspot (Some (10, 20)) in
  let model := fun _ _ _ => Ok (imageResponse "image/jpeg" "/9j/") in
  let edited := mkFile "edited-1700000000000.png" "image/jpeg" [xff; xd8; xff] in
  let upscaled := mkFile "upscaled-1700000000000.png" "image/jpeg" [xff; xd8; xff] in
  history (handleGenerate (generateEditedImage model) 1700000000000 s)
    = [pngA; pngB; edited]
  /\ currentImage (handleGenerate (generateEditedImage model) 1700000000000 s)
     = Some edited
  /\ history (handleUpscaleImage (upscaleImage model) 1700000000000 s)
     = [pngA; pngB; upscaled].
Proof.
  intros s model edited upscaled.
  assert (Hans : imageAnswer (imageResponse "image/jpeg" "/9j/") "image/jpeg"
                   [xff; xd8; xff]).
  { split; [reflexivity|]. eexists. vm_compute. reflexivity. }
  destruct (model_image_is_appended model 1700000000000 s pngB
              (imageResponse "image/jpeg" "/9j/") "image/jpeg" [xff; xd8; xff]
              eq_refl eq_refl eq_refl Hans) as (Hedit & _ & _ & Hup).
  destruct (Hedit (10, 20) eq_refl eq_refl eq_refl) as [(H1 & _ & H2 & _) _].
  destruct (Hup eq_refl) as (H3 & _).
  split; [exact H1|]. split; [exact H2|exact H3].
Defined.

(** X18. When the model blocks the request of an editing action, the
    history stack stays as it was, also when the blocked response carries
    an image, and the error shown is the text of the action followed by the
    text of the block, its reason and its message. This holds for the edit,
    the filter, the adjustment and the upscale. *)
Theorem blocked_answer_keeps_history
    (generateContent :
       string -> InlineData -> string -> Result GenerateContentResponse)
    (now : Z) (s : AppState) (img : File)
    (response : GenerateContentResponse)
    (reason : string) (detail : option string) :
  currentImage s = Some img ->
  plainMimeType (file_type img) = true ->
  promptFeedback response = Some (mkPromptFeedback (Some reason) detail) ->
  reason <> "" ->
  let shows text s' :=
    historyStack s' = historyStack s
    /\ error s'
       = Some (text +:+ "リクエストがブロックされました。理由: " +:+ reason
               +:+ "。" +:+ orEmpty detail) in
  (forall hotspot,
     isBlank (prompt s) = false -> editHotspot s = Some hotspot ->
     generateContent IMAGE_MODEL (partOf img) (editPrompt (prompt s) hotspot)
     = Ok response ->
     shows "画像の生成に失敗しました。 "
       (handleGenerate (generateEditedImage generateContent) now s))
  /\ (forall filterPrompt,
        generateContent IMAGE_MODEL (partOf img) (filterPromptText filterPrompt)
        = Ok response ->
        shows "フィルターの適用に失敗しました。 "
          (handleApplyFilter (generateFilteredImage generateContent) now
             filterPrompt s))
  /\ (forall adjustmentPrompt,
        generateContent IMAGE_MODEL (partOf img)
          (adjustmentPromptText adjustmentPrompt)
        = Ok response ->
        shows "調整の適用に失敗しました。 "
          (handleApplyAdjustment (generateAdjustedImage generateContent) now
             adjustmentPrompt s))
  /\ (generateContent IMAGE_MODEL (partOf img) upscalePrompt = Ok response ->
      shows "画像の高品質化に失敗しました。 "
        (handleUpscaleImage (upscaleImage generateContent) now s)).
Proof.
  intros Hc Himg Hf Hr.
  pose proof (fileToPart_plain img Himg) as Hpart. fold (partOf img) in Hpart.
  assert (Hb : isBlocked response = true).
  { unfold isBlocked. rewrite Hf. cbn [blockReason falsy].
    by rewrite (proj2 (String.eqb_neq reason "") Hr). }
  assert (Hthrow : forall context,
             handleApiResponse response context
             = Throw (ErrorObj ("リクエストがブロックされました。理由: "
                                +:+ reason +:+ "。" +:+ orEmpty detail))).
  { intros context.
    destruct (proj1 (proj2 (handleApiResponse_cases response context)) Hb)
      as (feedback & Hf' & ->).
    rewrite Hf in Hf'. by injection Hf' as <-. }
  cbn zeta. split; [|split; [|split]].
  - intros hotspot Hp Hh Hgen.
    unfold handleGenerate, generateEditedImage.
    rewrite Hc, Hp, Hh, Hpart. cbn [bindR]. rewrite Hgen. cbn [bindR].
    by rewrite Hthrow.
  - intros filterPrompt Hgen.
    unfold handleApplyFilter, generateFilteredImage.
    rewrite Hc, Hpart. cbn [bindR]. rewrite Hgen. cbn [bindR].
    by rewrite Hthrow.
  - intros adjustmentPrompt Hgen.
    unfold handleApplyAdjustment, generateAdjustedImage.
    rewrite Hc, Hpart. cbn [bindR]. rewrite Hgen. cbn [bindR].
    by rewrite Hthrow.
  - intros Hgen.
    unfold handleUpscaleImage, upscaleImage.
    rewrite Hc, Hpart. cbn [bindR]. rewrite Hgen. cbn [bindR].
    by rewrite Hthrow.
Qed.

Lemma blocked_answer_keeps_history_witness :
  let s := initialApp [pngA; pngB; pngC] 1 in
  let model := fun _ _ _ => Ok blockedResponse in
  historyStack (handleApplyFilter (generateFilteredImage model) 1700000000000
                  "sepia" s)
    = ([pngA; pngB; pngC], 1)
  /\ error (handleUpscaleImage (upscaleImage model) 1700000000000 s)
     = Some ("画像の高品質化に失敗しました。 "
             +:+ "リクエストがブロックされました。理由: SAFETY。").
Proof.
  intros s model.
  assert (Hr : "SAFETY" <> "") by discriminate.
  destruct (blocked_answer_keeps_history model 1700000000000 s pngB
              blockedResponse "SAFETY" None eq_refl eq_refl eq_refl Hr)
    as (_ & Hfilter & _ & Hup).
  destruct (Hfilter "sepia" eq_refl) as [H1 _].
  destruct (Hup eq_refl) as [_ H2].
  split; [exact H1|exact H2].
Defined.

(** * Properties of the image generation panel *)

Section PanelFacts.

Variable generateImages : string -> AspectRatio -> Result GenerateImagesResponse.
Variable generateText : string -> string -> Result (option string).
Variable typeErrorMessage : string -> string.

Lemma generateImage_cases (prompt : string) (aspectRatio : AspectRatio) :
  (exists imageBytes,
     imageBytes <> ""
     /\ generateImage generateImages typeErrorMessage prompt aspectRatio
        = Ok ("data:image/png;base64," +:+ imageBytes))
  \/ (exists message,
        generateImage generateImages typeErrorMessage prompt aspectRatio
        = Throw (ErrorObj ("画像生成に失敗しました: " +:+ message))).
Proof.
  unfold generateImage.
  destruct (generateImages prompt aspectRatio) as [response|err]; cbn [bindR].
  2:{ right. by eexists. }
  destruct (generatedImages response) as [[|first rest]|]; try (right; by eexists).
  destruct (image first) as [[[encoded|]]|]; cbn [falsy imageBytes];
    try (right; by eexists).
  destruct (String.eqb_spec encoded ""); [right; by eexists|].
  left. by exists encoded.
Qed.

Lemma dataURLtoFile_png (imageBytes filename : string) :
  (exists bytes,
     dataURLtoFile ("data:image/png;base64," +:+ imageBytes) filename
     = Ok (mkFile filename "image/png" bytes))
  \/ dataURLtoFile ("data:image/png;base64," +:+ imageBytes) filename
     = Throw (ErrorObj atobMessage).
Proof.
  unfold dataURLtoFile.
  change ("data:image/png;base64," +:+ imageBytes)
    with ("data:image/png;base64" +:+ String "," imageBytes).
  rewrite split_at_first by reflexivity.
  destruct (split "," imageBytes) as [|piece pieces] eqn:Hs.
  { destruct (split_pieces "," imageBytes) as [Hone _]. rewrite Hs in Hone. cbn in Hone. lia. }
  cbn [length Nat.ltb Nat.leb nth].
  change (matchMime "data:image/png;base64") with (Some "image/png").
  cbv iota. destruct (atob piece) as [bstr|]; [left|by right].
  by eexists.
Qed.

End PanelFacts.

Lemma base64Encode_not_empty (bs : list byte) : bs <> [] -> base64Encode bs <> "".
Proof.
  intros Hbs. destruct bs as [|a [|b [|c l]]]; [done|..];
    cbn [base64Encode]; discriminate.
Qed.

Lemma dropWhile_keeps_last {A} (p : A -> bool) (l : list A) (x : A) :
  p x = false -> exists l', dropWhile p (l ++ [x]) = l' ++ [x].
Proof.
  intros Hx. induction l as [|y l IH]; cbn [dropWhile app].
  - rewrite Hx. by exists [].
  - destruct (p y); [done|]. by exists (y :: l).
Qed.

Lemma dropWhile_head {A} (p : A -> bool) (l : list A) :
  dropWhile p l = [] \/ exists x l', dropWhile p l = x :: l' /\ p x = false.
Proof.
  induction l as [|y l IH]; cbn [dropWhile]; [by left|].
  destruct (p y) eqn:Hy; [done|]. right. by exists y, l.
Qed.

(** A trimmed string is empty or has something else than white space. *)
Lemma trim_not_blank (s : string) : trim s <> "" -> isBlank (trim s) = false.
Proof.
  unfold trim, isBlank. rewrite string_forall_chars, list_ascii_of_string_of_list_ascii.
  destruct (dropWhile_head isStrWhitespace (list_ascii_of_string s))
    as [->|(x & l' & -> & Hx)]; [done|].
  intros _. cbn [rev].
  destruct (dropWhile_keeps_last isStrWhitespace (rev l') x Hx) as [l3 ->].
  rewrite rev_app_distr. cbn [rev app forallb]. by rewrite Hx.
Qed.

Lemma stillMounted_error (p : PanelState) (s : AppState) (message : string) :
  error s = Some message -> message <> "" -> stillMounted p s = None.
Proof.
  intros He Hm. unfold stillMounted, showsStartScreen. rewrite He.
  by rewrite (falsy_Some message Hm).
Qed.

Lemma stillMounted_image (p : PanelState) (s : AppState) (f : File) :
  currentImage s = Some f -> stillMounted p s = None.
Proof.
  intros Hc. unfold stillMounted, showsStartScreen. rewrite Hc.
  by rewrite andb_false_r.
Qed.

(** X19. A run of the generation of the panel with a prompt that is not
    blank ends in one of three ways: the history is replaced by the one
    generated PNG file, named by the time, and that same file is saved to
    the gallery; or the history is replaced in the same way while the
    gallery stays as it was, when the save is rejected, and no error is
    shown for it; or the history and the gallery stay as they were and an
    error that is not empty is shown. The first two are what happens when
    the image model answers with bytes in base64. In every case the start
    screen is replaced, by the editor or by the error view, and the state
    of the panel is gone. *)
Theorem panel_generate_outcomes
    (generateImages : string -> AspectRatio -> Result GenerateImagesResponse)
    (typeErrorMessage : string -> string)
    (failure : option Thrown) (now savedAt : Z)
    (p : PanelState) (p' : option PanelState)
    (s s' : AppState) (db db' : ObjectStore) :
  isBlank (panelPrompt p) = false ->
  panelHandleGenerate generateImages typeErrorMessage failure now savedAt p s db
  = (p', s', db') ->
  let generated bytes :=
    mkFile ("generated-" +:+ stringOfZ now +:+ ".png") "image/png" bytes in
  let replacedBy file :=
    historyStack s' = ([file], 0) /\ error s' = None
    /\ db' = match failure with
             | None => snd (saveItemToGallery file savedAt db)
             | Some _ => db
             end in
  p' = None
  /\ ((exists bytes, replacedBy (generated bytes))
      \/ (historyStack s' = historyStack s /\ db' = db
          /\ exists message, message <> "" /\ error s' = Some message))
  /\ (forall response bs rest,
        bs <> [] ->
        generateImages (panelPrompt p) (panelAspectRatio p) = Ok response ->
        generatedImages response
        = Some (mkGeneratedImage (Some (mkImagePayload (Some (base64Encode bs))))
                :: rest) ->
        replacedBy (generated bs)).
Proof.
  intros Hp Hrun generated replacedBy. unfold panelHandleGenerate in Hrun.
  rewrite Hp in Hrun. cbv zeta in Hrun.
  assert (Hok : forall file,
            (let* imageUrl := generateImage generateImages typeErrorMessage
                                (panelPrompt p) (panelAspectRatio p) in
             dataURLtoFile imageUrl ("generated-" +:+ stringOfZ now +:+ ".png"))
            = Ok file ->
            p' = None /\ replacedBy file).
  { intros file Hfile. rewrite Hfile in Hrun.
    unfold awaitSaveItem, saveItemToGallery, storeAdd in Hrun.
    destruct failure as [err|]; injection Hrun as H1 H2 H3;
      unfold replacedBy; rewrite <- H1, <- H2, <- H3;
      (split; [by eapply stillMounted_image|by repeat split]). }
  assert (Hfail : forall err,
            (let* imageUrl := generateImage generateImages typeErrorMessage
                                (panelPrompt p) (panelAspectRatio p) in
             dataURLtoFile imageUrl ("generated-" +:+ stringOfZ now +:+ ".png"))
            = Throw err ->
            panelMessageOf err <> "" ->
            p' = None
            /\ historyStack s' = historyStack s /\ db' = db
            /\ error s' = Some (panelMessageOf err)).
  { intros err Herr Hm. rewrite Herr in Hrun. injection Hrun as H1 H2 H3.
    rewrite <- H1, <- H2, <- H3.
    split; [by eapply stillMounted_error|by repeat split]. }
  destruct (generateImage_cases generateImages typeErrorMessage (panelPrompt p)
              (panelAspectRatio p)) as [(encoded & Hne & Hgen)|(message & Hgen)].
  - assert (Hrest : forall response bs rest,
              bs <> [] ->
              generateImages (panelPrompt p) (panelAspectRatio p) = Ok response ->
              generatedImages response
              = Some (mkGeneratedImage
                        (Some (mkImagePayload (Some (base64Encode bs)))) :: rest) ->
              replacedBy (generated bs)).
    { intros response bs rest Hbs Hresp Himages.
      apply Hok. unfold generateImage. rewrite Hresp. cbn [bindR]. rewrite Himages.
      cbn [image imageBytes falsy templateOf default].
      rewrite (proj2 (String.eqb_neq _ "") (base64Encode_not_empty bs Hbs)).
      cbn [bindR]. exact (dataURLtoFile_dataURL "image/png" bs _ eq_refl). }
    destruct (dataURLtoFile_png encoded ("generated-" +:+ stringOfZ now +:+ ".png"))
      as [(bytes & Hfile)|Hfile].
    + destruct (Hok (generated bytes)) as [Hgone Hrep].
      { rewrite Hgen. cbn [bindR]. exact Hfile. }
      split; [exact Hgone|]. split; [left; by exists bytes|exact Hrest].
    + destruct (Hfail (ErrorObj atobMessage)) as (Hgone & H1 & H2 & H3).
      { rewrite Hgen. cbn [bindR]. exact Hfile. }
      { discriminate. }
      split; [exact Hgone|]. split; [|exact Hrest].
      right. split; [exact H1|]. split; [exact H2|].
      exists atobMessage. by split.
  - destruct (Hfail (ErrorObj ("画像生成に失敗しました: " +:+ message)))
      as (Hgone & H1 & H2 & H3).
    { rewrite Hgen. reflexivity. }
    { discriminate. }
    split; [exact Hgone|]. split.
    + right. split; [exact H1|]. split; [exact H2|].
      eexists. split; [|exact H3]. discriminate.
    + intros response bs rest Hbs Hresp Himages. exfalso.
      revert Hgen. unfold generateImage. rewrite Hresp. cbn [bindR].
      rewrite Himages. cbn [image imageBytes falsy].
      by rewrite (proj2 (String.eqb_neq _ "") (base64Encode_not_empty bs Hbs)).
Qed.

Lemma panel_generate_outcomes_witness :
  let model := fun _ _ =>
    Ok (mkImagesResponse
          (Some [mkGeneratedImage (Some (mkImagePayload (Some "iVBORw==")))])) in
  let panel := mkPanel "a cat on a roof" Ratio1x1 false false in
  let saved := panelHandleGenerate model (fun _ => "") None
                 1700000000000 1700000000005 panel (initialApp [] (-1)) emptyStore in
  let refused := panelHandleGenerate model (fun _ => "") (Some NonError)
                   1700000000000 1700000000005 panel (initialApp [] (-1))
                   emptyStore in
  let file := mkFile "generated-1700000000000.png" "image/png" [x89; x50; x4e; x47] in
  historyStack (snd (fst saved)) = ([file], 0)
  /\ getAllItemsFromGallery (snd saved) = [mkItem 1 file 1700000000005]
  /\ fst (fst saved) = None
  /\ historyStack (snd (fst refused)) = ([file], 0)
  /\ error (snd (fst refused)) = None
  /\ snd refused = emptyStore.
Proof.
  intros model panel saved refused file.
  pose (response := mkImagesResponse
          (Some [mkGeneratedImage (Some (mkImagePayload (Some "iVBORw==")))])).
  destruct (panel_generate_outcomes model (fun _ => "") None
              1700000000000 1700000000005 panel (fst (fst saved))
              (initialApp [] (-1)) (snd (fst saved))
              emptyStore (snd saved) eq_refl eq_refl) as (Hgone & _ & Hok).
  destruct (Hok response [x89; x50; x4e; x47] []) as (H1 & _ & H2);
    [discriminate|reflexivity|reflexivity|].
  destruct (panel_generate_outcomes model (fun _ => "") (Some NonError)
              1700000000000 1700000000005 panel (fst (fst refused))
              (initialApp [] (-1)) (snd (fst refused))
              emptyStore (snd refused) eq_refl eq_refl) as (_ & _ & Hok').
  destruct (Hok' response [x89; x50; x4e; x47] []) as (H3 & H4 & H5);
    [discriminate|reflexivity|reflexivity|].
  split; [exact H1|]. split; [rewrite H2; reflexivity|].
  split; [exact Hgone|]. split; [exact H3|]. split; [exact H4|exact H5].
Defined.

(** X20. A run of the prompt enhancement of the panel, in the start
    screen and with a prompt that is not blank, never touches the history.
    When the text model answers with a text that is not blank, the prompt
    of the panel becomes that text trimmed, which is not blank, so that the
    generation accepts it, and the panel stays with its flag down. In every
    other case the error shown starts with the text of the service, the
    error view replaces the start screen, and the state of the panel, its
    prompt included, is gone. *)
Theorem enhanced_prompt_is_not_blank
    (generateText : string -> string -> Result (option string))
    (typeErrorMessage : string -> string)
    (p : PanelState) (p' : option PanelState) (s s' : AppState) :
  showsStartScreen s = true ->
  isBlank (panelPrompt p) = false ->
  panelHandleEnhancePrompt generateText typeErrorMessage p s = (p', s') ->
  historyStack s' = historyStack s
  /\ ((exists answer,
         generateText TEXT_MODEL (enhancePromptText (panelPrompt p))
         = Ok (Some answer)
         /\ p' = Some (mkPanel (trim answer) (panelAspectRatio p)
                               (isGenerating p) false)
         /\ isBlank (trim answer) = false
         /\ error s' = Some "")
      \/ (p' = None
          /\ exists message,
               error s' = Some ("プロンプトの改善に失敗しました: " +:+ message))).
Proof.
  intros Hshown Hp. unfold panelHandleEnhancePrompt, enhancePrompt.
  rewrite Hp. cbv zeta.
  assert (Hstill : forall q, stillMounted q (s |> setError (Some "")) = Some q).
  { intros q. unfold stillMounted. revert Hshown. unfold showsStartScreen.
    destruct s. unfold currentImage. cbn.
    intros [[_ Hv]%andb_prop Hc]%andb_prop. by rewrite Hv, Hc. }
  assert (Hgone : forall q message,
            stillMounted q (s |> setError (Some "")
                              |> setError (Some ("プロンプトの改善に失敗しました: "
                                                 +:+ message)))
            = None).
  { intros q message. by eapply stillMounted_error. }
  destruct (generateText TEXT_MODEL (enhancePromptText (panelPrompt p)))
    as [[answer|]|err]; cbn [bindR].
  - destruct (String.eqb_spec (trim answer) "") as [He|Hne].
    + cbn [panelMessageOf errorMessageOf]. rewrite Hgone.
      intros [= <- <-]. split; [done|]. right. split; [done|]. by eexists.
    + rewrite Hstill. intros [= <- <-]. split; [done|]. left.
      exists answer. split; [done|]. split; [done|].
      split; [by apply trim_not_blank|done].
  - cbn [panelMessageOf errorMessageOf]. rewrite Hgone.
    intros [= <- <-]. split; [done|]. right. split; [done|]. by eexists.
  - cbn [panelMessageOf]. rewrite Hgone.
    intros [= <- <-]. split; [done|]. right. split; [done|]. by eexists.
Qed.

Lemma enhanced_prompt_is_not_blank_witness :
  let model := fun _ _ => Ok (Some "  a cat on a roof, golden hour glow  ") in
  let run := panelHandleEnhancePrompt model (fun _ => "")
               (mkPanel "cat" Ratio1x1 false false) (initialApp [] (-1)) in
  fst run = Some (mkPanel "a cat on a roof, golden hour glow" Ratio1x1 false false)
  /\ historyStack (snd run) = ([], -1).
Proof.
  intros model run.
  destruct (enhanced_prompt_is_not_blank model (fun _ => "")
              (mkPanel "cat" Ratio1x1 false false) (fst run)
              (initialApp [] (-1)) (snd run) eq_refl eq_refl eq_refl)
    as (Hh & [(answer & Ha & Hq & _)|[Hq _]]).
  - split; [|exact Hh]. rewrite Hq. injection Ha as <-. reflexivity.
  - discriminate Hq.
Defined.

(** * The marks of the click and the flag of the running action *)

Section RestFacts.

Variable generateEditedImage : File -> string -> Hotspot -> Result string.
Variable generateFilteredImage : File -> string -> Result string.
Variable generateAdjustedImage : File -> string -> Result string.
Variable upscaleImage : File -> Result string.

Local Abbreviation applyAction :=
  (applyAction generateEditedImage generateFilteredImage
               generateAdjustedImage upscaleImage).
Local Abbreviation runApp :=
  (runApp generateEditedImage generateFilteredImage
          generateAdjustedImage upscaleImage).

Lemma applyAction_rest (a : AppAction) (s : AppState) :
  isLoading s = false /\ (editHotspot s = None <-> displayHotspot s = None) ->
  isLoading (applyAction a s) = false
  /\ (editHotspot (applyAction a s) = None
      <-> displayHotspot (applyAction a s) = None).
Proof.
  intros [Hl Hh]. destruct a; cbn [applyAction].
  - done.
  - unfold handleUndo. destruct (canUndo s); done.
  - unfold handleRedo. destruct (canRedo s); done.
  - unfold handleReset. destruct (0 <? len (history s)); done.
  - done.
  - done.
  - done.
  - destruct imageFile; done.
  - unfold handleGenerate.
    destruct (currentImage s); [|done].
    destruct (isBlank (prompt s)); [done|].
    destruct (editHotspot s) eqn:He; [|cbn; rewrite He; done].
    destruct (bindR _ _); [done|]. cbn. by rewrite He.
  - unfold handleApplyFilter.
    destruct (currentImage s); [|done]. destruct (bindR _ _); done.
  - unfold handleApplyAdjustment.
    destruct (currentImage s); [|done]. destruct (bindR _ _); done.
  - unfold handleUpscaleImage.
    destruct (currentImage s); [|done]. destruct (bindR _ _); done.
  - done.
  - unfold handleImageClick. destruct (activeTab s); done.
Qed.

Lemma runApp_rest (actions : list AppAction) (s : AppState) :
  isLoading s = false /\ (editHotspot s = None <-> displayHotspot s = None) ->
  isLoading (runApp actions s) = false
  /\ (editHotspot (runApp actions s) = None
      <-> displayHotspot (runApp actions s) = None).
Proof.
  revert s. induction actions as [|a actions IH]; intros s Hs; [done|].
  apply IH, applyAction_rest, Hs.
Qed.

End RestFacts.

(** X21. Whatever the storage holds at start and whatever the collaborators
    answer, after any sequence of actions no action is marked as running,
    and the mark of the click on the displayed image and the point of the
    edit in the original image are both set or both unset. *)
Theorem hotspots_are_set_together
    (generateEditedImage : File -> string -> Hotspot -> Result string)
    (generateFilteredImage generateAdjustedImage : File -> string -> Result string)
    (upscaleImage : File -> Result string)
    (ls : Storage) (actions : list AppAction) :
  let s := runApp generateEditedImage generateFilteredImage
                  generateAdjustedImage upscaleImage actions (startApp ls) in
  isLoading s = false
  /\ (editHotspot s = None <-> displayHotspot s = None).
Proof.
  intros s. apply runApp_rest. unfold startApp.
  by destruct (fst (loadInitialState ls)).
Qed.

(** * The URL that is displayed *)

Section DisplayedUrl.

Context {Media : Type} `{EqDecision Media}.

Lemma commit_atRest (img : option Media) (sl : EffectSlot Media) :
  slotAtRest sl ->
  slotAtRest (afterEvent (Commit img) sl)
  /\ lastDeps (afterEvent (Commit img) sl) = Some img.
Proof.
  intros (Hsl & Hurl & Hdeps).
  destruct (decide (lastDeps sl = Some img)) as [Hsame|Hdiff].
  - rewrite (commit_same sl img Hsame).
    split; [exact (conj Hsl (conj Hurl Hdeps))|exact Hsame].
  - split; [split; [by apply afterEvent_consistent|]|];
      unfold afterEvent; cbn [effectSteps]; rewrite decide_False by done;
      cbn [last default]; unfold runEffect; destruct img; cbn.
    + split; [done|]. intros img [= <-]. split; intros _; by eexists.
    + split; [done|]. intros img [= <-]. split; intros [? ?]; done.
    + done.
    + done.
Qed.

Lemma commits_atRest (imgs : list (option Media)) (sl : EffectSlot Media) :
  slotAtRest sl ->
  slotAtRest (afterEvents (List.map Commit imgs) sl)
  /\ (forall img, last imgs = Some img ->
        lastDeps (afterEvents (List.map Commit imgs) sl) = Some img).
Proof.
  revert sl. induction imgs as [|img imgs IH]; intros sl Hsl; [done|].
  cbn [List.map afterEvents fold_left].
  destruct (commit_atRest img sl Hsl) as [Hrest Hdeps].
  destruct (IH _ Hrest) as [Hrest' Hlast]. split; [exact Hrest'|].
  intros img'. destruct imgs as [|img2 imgs]; [by intros [= <-]|].
  intros Hl. by apply Hlast.
Qed.

End DisplayedUrl.

Lemma last_map {A B} (f : A -> B) (l : list A) :
  last (List.map f l) = option_map f (last l).
Proof.
  induction l as [|x l IH]; [done|].
  destruct l as [|y l]; [done|]. exact IH.
Qed.

Lemma atRest_shown {Media : Type} `{EqDecision Media}
    (imgs : list (option Media)) :
  let sl := afterEvents (List.map Commit imgs) mountSlot in
  imageUrl sl = cleanup sl
  /\ (forall url, imageUrl sl = Some url -> liveUrls sl = {[url]})
  /\ (imageUrl sl = None -> liveUrls sl = ∅)
  /\ (forall img, last imgs = Some img -> (is_Some (imageUrl sl) <-> is_Some img)).
Proof.
  intros sl.
  assert (Hmount : slotAtRest (@mountSlot Media)).
  { split; [apply mountSlot_consistent|]. split; [done|]. intros img [=]. }
  destruct (commits_atRest imgs mountSlot Hmount)
    as [([Hlive _] & Hurl & Hdeps) Hlast].
  fold sl in Hlive, Hurl, Hdeps, Hlast.
  split; [exact Hurl|]. rewrite Hurl. split; [|split].
  - intros url Hc. by rewrite Hlive, Hc.
  - intros Hc. by rewrite Hlive, Hc.
  - intros img Himg. apply Hdeps, Hlast, Himg.
Qed.

(** X22. After the renders of the component, between the runs of the
    effect of a role, the URL in the state cell is the only live URL of the
    role, there is no live URL when the cell is empty, and the cell holds
    a URL exactly when the role has an image in the last render. A card of
    the gallery that has been rendered holds a URL, and it is the only
    live URL of the card. *)
Theorem displayed_url_is_live :
  (forall (r : Role) (renders : list AppState),
     let sl := afterEvents (roleEvents r renders false) mountSlot in
     (forall url, imageUrl sl = Some url -> liveUrls sl = {[url]})
     /\ (imageUrl sl = None -> liveUrls sl = ∅)
     /\ (forall s, last renders = Some s ->
           (is_Some (imageUrl sl) <-> is_Some (roleImage r s))))
  /\ (forall renders : list SavedItem,
        renders <> [] ->
        let sl := afterEvents (mediaCardEvents renders) mountSlot in
        exists url, imageUrl sl = Some url /\ liveUrls sl = {[url]}).
Proof.
  split.
  - intros r renders. unfold roleEvents. rewrite app_nil_r.
    rewrite <- (List.map_map (roleImage r) Commit).
    destruct (atRest_shown (List.map (roleImage r) renders))
      as (_ & Hlive & Hnone & Hlast).
    cbn zeta. split; [exact Hlive|]. split; [exact Hnone|].
    intros s Hs. apply Hlast. by rewrite last_map, Hs.
  - intros renders Hne. unfold mediaCardEvents.
    rewrite <- (List.map_map (fun item => Some (file item)) Commit).
    destruct (atRest_shown (List.map (fun item => Some (file item)) renders))
      as (_ & Hlive & _ & Hlast).
    cbn zeta.
    destruct (last renders) as [item|] eqn:Hitem.
    2:{ apply last_None in Hitem. done. }
    destruct (proj2 (Hlast (Some (file item))
                       ltac:(by rewrite last_map, Hitem))) as [url Hurl];
      [by eexists|].
    exists url. split; [exact Hurl|]. by apply Hlive.
Qed.

(** * From the editor to the gallery and back *)

(** X23. Saving the current image to the gallery leaves the history of
    the editor as it was and ends with no action marked as running. When
    the store takes the save, no error is shown, the gallery opened
    afterwards lists an entry with that image and the date of the save,
    first in the list when every stored entry is older, and choosing that
    entry for editing gives the editor a history of that image alone. When
    the store rejects the save, the store stays as it was and the error
    shown is the text of the failed save followed by the message of the
    rejection. *)
Theorem saved_image_comes_back
    (ops : list GalleryOp) (failure : option Thrown) (now : Z)
    (s : AppState) (img : File) :
  currentImage s = Some img ->
  let db := runGallery ops emptyStore in
  let saved := handleSaveToGallery failure now s db in
  let v := loadItems (snd saved) mountGallery in
  let item := mkItem (keyGenerator db) img now in
  historyStack (fst saved) = historyStack s
  /\ isLoading (fst saved) = false
  /\ (failure = None ->
      error (fst saved) = None
      /\ item ∈ items v
      /\ (Forall (fun r => createdAt r < now) (records db) ->
          items v = item :: getAllItemsFromGallery db)
      /\ (let s' := handleNavigateToEditor (Some (file item))
                      (handleNavigateToGallery (fst saved)) in
          historyStack s' = ([img], 0)
          /\ currentImage s' = Some img
          /\ view s' = editor))
  /\ (forall err, failure = Some err ->
        snd saved = db
        /\ error (fst saved)
           = Some ("ギャラリーへの保存に失敗しました。 " +:+ errorMessageOf err)).
Proof.
  intros Hc db saved v item.
  pose proof (reachable_ordered ops) as Hdb. fold db in Hdb.
  unfold v, saved, handleSaveToGallery. rewrite Hc.
  destruct failure as [err|]; cbn [awaitSaveItem fst snd].
  - split; [done|]. split; [done|]. split; [done|].
    by intros err' [= <-].
  - unfold saveItemToGallery, storeAdd. cbn [fst snd].
    split; [done|]. split; [done|]. split; [|done]. intros _.
    split; [done|]. split; [|split].
    + cbn [loadItems items]. rewrite listing_perm. cbn.
      apply elem_of_app. right. by left.
    + intros Hnew. cbn [loadItems items].
      apply listing_unique.
      * apply (applyGalleryOp_ordered (GallerySave img now) db Hdb).
      * constructor; [by apply listing_sorted|].
        apply Forall_forall. intros r Hr. rewrite listing_perm in Hr.
        rewrite Forall_forall in Hnew. left. cbn. by apply Hnew.
      * cbn. rewrite listing_perm. apply Permutation_cons_append.
    + done.
Qed.

Lemma saved_image_comes_back_witness :
  let db := runGallery [GallerySave pngA 1000; GallerySave pngC 2000] emptyStore in
  let s := initialApp [pngA; pngB] 1 in
  List.map file
    (items (loadItems (snd (handleSaveToGallery None 3000 s db)) mountGallery))
  = [pngB; pngC; pngA]
  /\ historyStack (fst (handleSaveToGallery None 3000 s db)) = ([pngA; pngB], 1)
  /\ error (fst (handleSaveToGallery (Some (ErrorObj "QuotaExceededError")) 3000 s db))
     = Some ("ギャラリーへの保存に失敗しました。 " +:+ "QuotaExceededError").
Proof.
  intros db s.
  destruct (saved_image_comes_back
              [GallerySave pngA 1000; GallerySave pngC 2000] None 3000 s pngB eq_refl)
    as (Hh & _ & Hsaved & _).
  destruct (Hsaved eq_refl) as (_ & _ & Hfirst & _).
  destruct (saved_image_comes_back
              [GallerySave pngA 1000; GallerySave pngC 2000]
              (Some (ErrorObj "QuotaExceededError")) 3000 s pngB eq_refl)
    as (_ & _ & _ & Hrejected).
  destruct (Hrejected _ eq_refl) as [_ He].
  split; [|split; [exact Hh|exact He]].
  fold db in Hfirst. rewrite Hfirst; [reflexivity|].
  repeat constructor.
Defined.

(** * The filter panel and the adjustment panel *)

Lemma runPresetPanel_last (es : list PresetEvent) (e : PresetEvent)
    (st : PresetPanel) :
  runPresetPanel (es ++ [e]) st = applyPresetEvent e (runPresetPanel es st).
Proof. unfold runPresetPanel. by rewrite fold_left_app. Qed.

Lemma applyPresetEvent_active (e : PresetEvent) (st : PresetPanel) :
  activePrompt (applyPresetEvent e st) = presetEventText e
  /\ (selectedPresetPrompt (applyPresetEvent e st) = None
      \/ customPrompt (applyPresetEvent e st) = "").
Proof.
  destruct e as [prompt|value]; cbn; [|by split; [|left]].
  split; [|by right]. unfold activePrompt. cbn.
  by destruct (String.eqb_spec prompt "").
Qed.

(** X24. In the filter panel and in the adjustment panel, after any
    choices of the user the preset and the custom text are never both set;
    a click on the button passes a prompt on only when no action runs, and
    the prompt is then the text of the last choice and is not blank; in
    every other case the click leaves the component as it is. *)
Theorem panel_applies_last_choice
    (generateFilteredImage generateAdjustedImage : File -> string -> Result string)
    (now : Z) (es : list PresetEvent) (s : AppState) :
  let st := runPresetPanel es mountPresetPanel in
  (selectedPresetPrompt st = None \/ customPrompt st = "")
  /\ (forall prompt,
        clickApply (isLoading s) st = Some prompt ->
        isLoading s = false /\ isBlank prompt = false
        /\ (exists es' e, es = es' ++ [e] /\ prompt = presetEventText e)
        /\ clickApplyFilter generateFilteredImage now st s
           = handleApplyFilter generateFilteredImage now prompt s
        /\ clickApplyAdjustment generateAdjustedImage now st s
           = handleApplyAdjustment generateAdjustedImage now prompt s)
  /\ (clickApply (isLoading s) st = None ->
      clickApplyFilter generateFilteredImage now st s = s
      /\ clickApplyAdjustment generateAdjustedImage now st s = s).
Proof.
  intros st.
  assert (Hst : (selectedPresetPrompt st = None \/ customPrompt st = "")
                /\ (activePrompt st <> "" ->
                    exists es' e, es = es' ++ [e]
                                  /\ activePrompt st = presetEventText e)).
  { unfold st. clear st. destruct es as [|e0 es0 _] using rev_ind.
    { split; [by left|]. by intros []. }
    rewrite runPresetPanel_last.
    destruct (applyPresetEvent_active e0 (runPresetPanel es0 mountPresetPanel))
      as [Ha Hx].
    split; [exact Hx|]. intros _. by exists es0, e0. }
  destruct Hst as [Hx Hlast]. split; [exact Hx|]. split.
  - intros prompt. unfold clickApplyFilter, clickApplyAdjustment, clickApply.
    unfold applyButtonEnabled, handleApply.
    destruct (String.eqb_spec (activePrompt st) "") as [He|Hne]; [done|].
    destruct (isLoading s); [done|].
    destruct (isBlank (activePrompt st)) eqn:Hb; [done|].
    cbn. intros [= <-]. repeat split; try done. by apply Hlast.
  - unfold clickApplyFilter, clickApplyAdjustment. by intros ->.
Qed.

(** * Properties of the video service *)

Lemma pollOperation_pending (operation : VideosOperation)
    (polls : list (Result VideosOperation)) :
  pollOperation operation polls = StillPending
  <-> done operation = false /\ Forall keepsWaiting polls.
Proof.
  revert operation.
  induction polls as [|answer later IH]; intros operation; cbn [pollOperation].
  - destruct (done operation); [|by split]. split; [done|by intros [? _]].
  - destruct (done operation) eqn:Hd.
    { split; [done|by intros [? _]]. }
    destruct answer as [operation'|err].
    + rewrite IH. split.
      * intros [Hd' Hlater]. split; [done|]. constructor; [|done].
        by exists operation'.
      * intros [_ Hall]. apply Forall_cons in Hall as [(o & [= <-] & Ho) Hlater].
        by split.
    + split; [done|]. intros [_ Hall].
      apply Forall_cons in Hall as [(o & [=] & _) _].
Qed.

Lemma pollOperation_more (operation : VideosOperation)
    (polls more : list (Result VideosOperation)) (r : Result VideosOperation) :
  pollOperation operation polls = Settled r ->
  pollOperation operation (polls ++ more) = Settled r.
Proof.
  revert operation.
  induction polls as [|answer later IH]; intros operation; cbn [pollOperation app].
  - destruct (done operation) eqn:Hd; [|done].
    intros <-. destruct more; cbn [pollOperation]; by rewrite Hd.
  - destruct (done operation); [done|].
    destruct answer as [operation'|err]; [apply IH|done].
Qed.

Lemma pollOperation_done (operation finished : VideosOperation)
    (polls : list (Result VideosOperation)) :
  pollOperation operation polls = Settled (Ok finished) -> done finished = true.
Proof.
  revert operation.
  induction polls as [|answer later IH]; intros operation; cbn [pollOperation].
  - destruct (done operation) eqn:Hd; [|done]. by intros [= <-].
  - destruct (done operation) eqn:Hd; [by intros [= <-]|].
    destruct answer as [operation'|err]; [apply IH|done].
Qed.

(** X25. When there is an image and its reader fails, [generateVideo]
    fails with the rejection of the reader, which is not an [Error] and
    carries no text of the service. Otherwise it is still waiting exactly when the video model
    accepted the request and neither the operation it gave nor any answer
    to a poll so far is finished or failed; once it has settled, later
    answers change nothing; every failure leaves as an [Error] whose
    message starts with the text of the service; and it gives a URL, the
    one of the downloaded blob, only after a finished operation with a
    download link that is not empty, fetched with the key appended, with a
    response that is ok and a body that could be read. *)
Theorem generateVideo_settles
    (generateVideos : VideoRequest -> Result VideosOperation)
    (fetch : string -> Result FetchResponse) (API_KEY : option string)
    (prompt : string) (image : option File) (readFails : bool)
    (polls : list (Result VideosOperation)) (newUrl : string) :
  let run answers :=
    generateVideo generateVideos fetch API_KEY prompt image readFails
                  answers newUrl in
  let request :=
    mkVideoRequest "veo-2.0-generate-001" prompt
      (option_map (fun f => Veo.mkImage (fileToBase64 f) (file_type f)) image) 1 in
  let unread := match image with Some _ => readFails | None => false end in
  (unread = true -> run polls = Settled (Throw NonError))
  /\ (unread = false ->
      (run polls = StillPending
       <-> exists started,
             generateVideos request = Ok started
             /\ done started = false /\ Forall keepsWaiting polls)
      /\ (forall e, run polls = Settled (Throw e) ->
            exists message, e = ErrorObj ("動画生成に失敗しました: " +:+ message)))
  /\ (forall r more, run polls = Settled r -> run (polls ++ more) = Settled r)
  /\ (forall url, run polls = Settled (Ok url) ->
        url = newUrl
        /\ exists finished link fetched bytes,
             done finished = true
             /\ downloadLinkOf finished = Some link /\ link <> ""
             /\ fetch (link +:+ "&key=" +:+ templateOf API_KEY) = Ok fetched
             /\ ok fetched = true /\ blob fetched = Ok bytes).
Proof.
  intros run request unread. unfold run, generateVideo. fold request. fold unread.
  destruct unread.
  { split; [done|]. split; [done|]. split; [done|]. by intros url [=]. }
  split; [done|].
  destruct (generateVideos request) as [started|err].
  2:{ split; [intros _; split; [split; [done|by intros (? & [=] & _)]|]|].
      - intros e [= <-]. by eexists.
      - split; done. }
  split; [intros _; split|split].
  - pose proof (pollOperation_pending started polls) as Hpending.
    destruct (pollOperation started polls) as [[finished|err]|] eqn:Hpoll.
    + split.
      * destruct (falsy _); [done|]. destruct (fetch _) as [fetched|]; [|done].
        cbn [bindR]. destruct (ok fetched); [|done]. by destruct (blob fetched).
      * intros (? & [= <-] & Hp). by apply Hpending in Hp.
    + split; [done|]. intros (? & [= <-] & Hp). by apply Hpending in Hp.
    + split; [|done]. intros _. exists started. split; [done|]. by apply Hpending.
  - intros e.
    destruct (pollOperation started polls) as [[finished|err]|]; [| |done].
    + destruct (falsy _); [intros [= <-]; by eexists|].
      destruct (fetch _) as [fetched|]; [|intros [= <-]; by eexists].
      cbn [bindR]. destruct (ok fetched); [|intros [= <-]; by eexists].
      destruct (blob fetched); [done|intros [= <-]; by eexists].
    + intros [= <-]. by eexists.
  - intros r more.
    destruct (pollOperation started polls) as [r'|] eqn:Hpoll.
    + by rewrite (pollOperation_more started polls more r' Hpoll).
    + done.
  - intros url.
    destruct (pollOperation started polls) as [[finished|err]|] eqn:Hpoll;
      [| done | done].
    destruct (downloadLinkOf finished) as [link|] eqn:Hlink; [|done].
    cbn [falsy templateOf default].
    destruct (String.eqb_spec link "") as [|Hne]; [done|].
    destruct (fetch _) as [fetched|] eqn:Hfetch; [|done].
    cbn [bindR]. destruct (ok fetched) eqn:Hok; [|done].
    destruct (blob fetched) as [bytes|] eqn:Hblob; [|done].
    cbn. intros [= <-]. split; [done|].
    exists finished, link, fetched, bytes.
    repeat split; try done. by apply (pollOperation_done started finished polls).
Qed.

(** * Actions that wait while others run *)

Section AsyncFacts.

Variable generateEditedImage : File -> string -> Hotspot -> Result string.
Variable generateFilteredImage : File -> string -> Result string.
Variable generateAdjustedImage : File -> string -> Result string.
Variable upscaleImage : File -> Result string.

Local Abbreviation start :=
  (startAction generateEditedImage generateFilteredImage
               generateAdjustedImage upscaleImage).
Local Abbreviation step :=
  (stepEvent generateEditedImage generateFilteredImage
             generateAdjustedImage upscaleImage).
Local Abbreviation run :=
  (runEvents generateEditedImage generateFilteredImage
             generateAdjustedImage upscaleImage).

(** A handler that runs to its end is its start followed at once by its
    answer. *)
Lemma handlers_start_then_settle (now : Z) (s : AppState) :
  let both k :=
    match start k s with
    | (s1, Some p) => settleAction now p s1
    | (s1, None) => s1
    end in
  handleGenerate generateEditedImage now s = both EditKind
  /\ (forall filterPrompt,
        handleApplyFilter generateFilteredImage now filterPrompt s
        = both (FilterKind filterPrompt))
  /\ (forall adjustmentPrompt,
        handleApplyAdjustment generateAdjustedImage now adjustmentPrompt s
        = both (AdjustKind adjustmentPrompt))
  /\ handleUpscaleImage upscaleImage now s = both UpscaleKind.
Proof.
  cbv zeta. split; [|split; [|split]].
  - unfold handleGenerate. cbn [startAction].
    destruct (currentImage s); [|done].
    destruct (isBlank (prompt s)); [done|].
    destruct (editHotspot s); [|done].
    unfold settleAction. cbn [pendingKind awaited closureHistory closureIndex].
    by destruct (generateEditedImage _ _ _) as [url|]; cbn [bindR];
      [destruct (dataURLtoFile _ _)|].
  - intros filterPrompt. unfold handleApplyFilter. cbn [startAction].
    destruct (currentImage s); [|done].
    unfold settleAction. cbn [pendingKind awaited closureHistory closureIndex].
    by destruct (generateFilteredImage _ _) as [url|]; cbn [bindR];
      [destruct (dataURLtoFile _ _)|].
  - intros adjustmentPrompt. unfold handleApplyAdjustment. cbn [startAction].
    destruct (currentImage s); [|done].
    unfold settleAction. cbn [pendingKind awaited closureHistory closureIndex].
    by destruct (generateAdjustedImage _ _) as [url|]; cbn [bindR];
      [destruct (dataURLtoFile _ _)|].
  - unfold handleUpscaleImage. cbn [startAction].
    destruct (currentImage s); [|done].
    unfold settleAction. cbn [pendingKind awaited closureHistory closureIndex].
    by destruct (upscaleImage _) as [url|]; cbn [bindR];
      [destruct (dataURLtoFile _ _)|].
Qed.

(** The start of an action leaves the stack as it is, and the action that
    waits holds the history and the index of that moment. *)
Lemma startAction_closure (k : AsyncKind) (s : AppState) :
  historyStack (fst (start k s)) = historyStack s
  /\ (forall p, snd (start k s) = Some p ->
        closureHistory p = history s /\ closureIndex p = historyIndex s).
Proof.
  destruct k; cbn [startAction];
    destruct (currentImage s); try (split; [done|]; by intros p [=]);
    try (split; [done|]; by intros p [= <-]).
  destruct (isBlank (prompt s)); [split; [done|]; by intros p [=]|].
  destruct (editHotspot s); [split; [done|]; by intros p [= <-]|].
  split; [done|]. by intros p [=].
Qed.

(** The answer to an action that waits leaves the stack as it is, or
    replaces it by the history of the action up to its index with a file
    appended. *)
Lemma settleAction_stack (now : Z) (p : PendingAction) (s : AppState) :
  let s' := settleAction now p s in
  (history s' = history s /\ historyIndex s' = historyIndex s)
  \/ exists f,
       history s' = slice0 (closureHistory p) (closureIndex p + 1) ++ [f]
       /\ historyIndex s'
          = len (slice0 (closureHistory p) (closureIndex p + 1) ++ [f]) - 1.
Proof.
  unfold settleAction.
  destruct (pendingKind p); destruct (bindR _ _) as [f|err]; try (by left);
    right; by exists f.
Qed.

Lemma stepEvent_keepsFirst (o : option File) (e : AppEvent)
    (st : AppState * list PendingAction) :
  keepsOriginalEvent e -> keepsFirst o st -> keepsFirst o (step e st).
Proof.
  destruct st as [s pendings]. intros He [[Hi Ho] Hp]. cbn [fst snd] in Hi, Ho, Hp.
  destruct e as [a|k|i now]; unfold keepsFirst; cbn [stepEvent fst snd].
  - destruct (applyAction_keeps_original generateEditedImage
                generateFilteredImage generateAdjustedImage upscaleImage
                a s Hi He) as [Ho' Hi'].
    split; [split; [done|congruence]|done].
  - destruct (startAction_closure k s) as [Hstack Hclosure].
    destruct (start k s) as [s' p]. cbn [fst snd] in *.
    pose proof (f_equal fst Hstack) as Hh. pose proof (f_equal snd Hstack) as Hx.
    unfold historyStack in Hh, Hx. cbn [fst snd] in Hh, Hx.
    split; [split; [by rewrite Hh, Hx|unfold originalImage; by rewrite Hh]|].
    cbn [snd]. apply Forall_app. split; [done|].
    destruct p as [p|]; [|done].
    destruct (Hclosure p eq_refl) as [Hch Hci]. apply Forall_singleton.
    by rewrite Hch, Hci.
  - destruct (pendings !! i) as [p|] eqn:Hlook; [|done]. cbn [fst snd].
    pose proof (proj1 (Forall_lookup _ _) Hp i p Hlook) as [Hci Hco].
    split; [|by apply Forall_delete].
    destruct (settleAction_stack now p s) as [[Hh Hx]|(f & Hh & Hx)].
    + split; [by rewrite Hh, Hx|unfold originalImage; by rewrite Hh].
    + rewrite slice0_in_range in Hh, Hx by lia.
      unfold originalImage. rewrite Hh, Hx. split.
      * rewrite len_app. unfold len. rewrite length_take. unfold len in Hci.
        cbn [length]. lia.
      * rewrite <- Hco. apply at_index_kept; lia.
Qed.

Lemma runEvents_keepsFirst (o : option File) (es : list AppEvent)
    (st : AppState * list PendingAction) :
  Forall keepsOriginalEvent es -> keepsFirst o st -> keepsFirst o (run es st).
Proof.
  intros Hes. revert st. induction Hes as [|e es He _ IH]; intros st Hst; [done|].
  apply IH. by apply stepEvent_keepsFirst.
Qed.

End AsyncFacts.

(** X4. Through every run that holds no upload, no start-over and no
    opening of a gallery item, and at whose start no action waits, the
    first entry of the history (the original image) stays the same and the
    index keeps pointing into the history, whatever the collaborators
    answer: through edits, filters, adjustments, upscales, appends, undos,
    redos and resets, also when actions start while others wait and the
    answers come in any order. *)
Theorem original_image_is_kept
    (generateEditedImage : File -> string -> Hotspot -> Result string)
    (generateFilteredImage generateAdjustedImage : File -> string -> Result string)
    (upscaleImage : File -> Result string)
    (events : list AppEvent) (s : AppState) :
  0 <= historyIndex s < len (history s) ->
  Forall keepsOriginalEvent events ->
  let s' := fst (runEvents generateEditedImage generateFilteredImage
                           generateAdjustedImage upscaleImage events (s, [])) in
  originalImage s' = originalImage s
  /\ 0 <= historyIndex s' < len (history s').
Proof.
  intros Hi Hes s'.
  destruct (runEvents_keepsFirst generateEditedImage generateFilteredImage
              generateAdjustedImage upscaleImage (originalImage s) events (s, [])
              Hes) as [[Hi' Ho'] _].
  { split; [by split|constructor]. }
  split; [exact Ho'|exact Hi'].
Qed.

Lemma original_image_is_kept_witness :
  let edit := fun _ _ _ => Ok (fileToDataURL pngC) in
  let filter := fun _ _ => Ok (fileToDataURL pngB) in
  let adjust := fun _ _ => Throw NonError in
  let upscale := fun _ => Ok (fileToDataURL pngC) in
  let events := [Starts (FilterKind "warm"); Does DoUndo; Starts UpscaleKind;
                 Does (DoAppend pngC); Settles 1 5; Does DoReset;
                 Settles 0 6; Does DoRedo] in
  originalImage (fst (runEvents edit filter adjust upscale events
                        (initialApp [pngA; pngB] 1, [])))
  = Some pngA.
Proof.
  intros edit filter adjust upscale events.
  destruct (original_image_is_kept edit filter adjust upscale events
              (initialApp [pngA; pngB] 1)) as [H _].
  - unfold len; cbn; lia.
  - unfold events.
    repeat (apply List.Forall_cons; [first [exact I | reflexivity]|]).
    apply List.Forall_nil.
  - exact H.
Defined.

(** * Values of JSON as file names *)

Lemma numberToString_examples :
  numberToString "1.0e3" = "1000"
  /\ numberToString "0.1" = "0.1"
  /\ numberToString "-0" = "0"
  /\ numberToString "1e21" = "1e+21"
  /\ numberToString "0.0000001" = "1e-7"
  /\ numberToString "9007199254740993" = "9007199254740992"
  /\ numberToString "123456789012345678901234" = "1.2345678901234569e+23"
  /\ numberToString "1e400" = "Infinity".
Proof. repeat split; vm_compute; reflexivity. Qed.

(** A stored entry whose name is a number is restored under the string of
    that number; one whose name is an object with a member [toString] makes
    [new File] throw, and the restore clears the two keys. *)
Lemma restore_of_names_that_are_not_strings :
  let entry name :=
    JObject [("dataUrl", JString (fileToDataURL pngA)); ("name", name)] in
  let stored name : Storage :=
    {[ HISTORY_KEY := JSON_stringify (JArray [entry name]); INDEX_KEY := "0" ]} in
  fst (loadInitialState (stored (JNumber "1.0e3")))
  = ([mkFile "1000" "image/png" [x89; x50; x4e; x47]], 0)
  /\ fst (loadInitialState (stored (JObject [("a", JNull)])))
     = ([mkFile "[object Object]" "image/png" [x89; x50; x4e; x47]], 0)
  /\ fst (loadInitialState (stored (JObject [("toString", JNumber "1")])))
     = ([], -1)
  /\ getItem HISTORY_KEY
       (snd (loadInitialState (stored (JObject [("toString", JNumber "1")]))))
     = None.
Proof. repeat split; vm_compute; reflexivity. Qed.
